(** * Relay expression functor: memoised mutator and visitor

    A shallow embedding of [src/relay/ir/expr_functor.cc].

    Relay expressions are immutable, reference-counted objects; what the
    traversals observe of them is their identity ([same_as]) and their
    fields.  The embedding keeps both: an expression handle is the address of
    its object in a heap that only grows, and the per-kind handlers are small
    programs over the operations a handler can perform on [this]
    (recursive [VisitExpr]/[Mutate], the type hook, node construction, field
    access, and the state of the concrete pass). *)

From Stdlib Require Import ZArith String.
From stdpp Require Import base option list gmap.

Set Implicit Arguments.
#[local] Set Warnings "-clear-no-such-hyp".
Set Default Proof Using "Type".

(** ** Handles and nodes *)

(** The node classes, the handles and the containers are declared in headers
    outside this file; they are taken from the spec's data model and from the
    way the handlers use them. *)

(** Modelled from the spec: [Expr], "an opaque handle to one immutable node
    instance; comparable by identity".  A handle is the address of its object
    in the heap. *)
Abbreviation Expr := nat.

(** Modelled from the spec: [Type], a handle to an object of the external
    type language, by the identity of that object; [None] is the undefined
    handle ([defined()] is false). *)
Definition Ty := option nat.

(** Modelled from the spec: the opaque attributes of calls and functions,
    "carried through unchanged". *)
Definition Attrs := option nat.

(** Modelled from the spec: [tvm::Array<T>], an ordered sequence owned through
    a handle as every object of the IR is.  [node_] is the identity of the
    array object, which [same_as] compares, and [elems] its contents.  A
    local [tvm::Array<T> a;] of a handler is a new, empty array object. *)
Record Array (A : Type) := mkArray { node_ : nat; elems : list A }.

(** Modelled from the spec: the ten kinds of node with the attributes of the
    spec's data model, named as the handlers name them. *)
Inductive Node :=
| VarNode (name_hint : string) (type_annotation : Ty)
| ConstantNode (data : Z)
| GlobalVarNode (name_hint : string)
| OpNode (name : string)
| TupleNode (fields : Array Expr)
| FunctionNode (params : Array Expr) (body : Expr) (ret_type : Ty)
               (type_params : Array Ty) (attrs : Attrs)
| CallNode (op : Expr) (args : Array Expr) (attrs : Attrs)
           (type_args : Array Ty)
| LetNode (var value body : Expr)
| IfNode (cond true_branch false_branch : Expr)
| TupleGetItemNode (tuple : Expr) (index : Z).

(** Modelled from the spec: [same_as], the identity test ("do two handles
    refer to the same underlying object"), on expression handles, type
    handles and arrays. *)
Definition same_as (a b : Expr) : bool := Nat.eqb a b.
Definition ty_same_as (a b : Ty) : bool := bool_decide (a = b).
Definition array_same_as {A B} (a : Array A) (b : Array B) : bool :=
  Nat.eqb (node_ a) (node_ b).

Definition defined (t : Ty) : bool :=
  match t with Some _ => true | None => false end.

(** [Array::push_back] on an array that the handler alone refers to: the
    array object stays the same, its contents grow. *)
Definition push_back {A} (a : Array A) (x : A) : Array A :=
  mkArray (node_ a) (elems a ++ [x]).

Definition is_VarNode (n : Node) : bool :=
  match n with VarNode _ _ => true | _ => false end.

(** ** Handler programs *)

(** Ways a traversal stops without a result. *)
Inductive fault :=
| Fatal     (* a failed CHECK: the process is aborted *)
| NullDeref (* a handle that refers to no object; excluded by the IR *).

(** A handler of a functor whose [VisitExpr] returns [R], whose type hook
    returns [T], and whose concrete pass keeps a state of type [U]. *)
Inductive prog (U R T A : Type) : Type :=
| Ret (a : A)
| Throw (f : fault)
| Visit (e : Expr) (k : R → prog U R T A)      (* this->VisitExpr(e) *)
| VisitTy (t : Ty) (k : T → prog U R T A)      (* this->VisitType(t) *)
| Make (n : Node) (k : Expr → prog U R T A)    (* XNode::make(...) *)
| NewArray (k : nat → prog U R T A)            (* tvm::Array<X> a; *)
| Deref (e : Expr) (k : Node → prog U R T A)    (* e-> ... *)
| GetUser (k : U → prog U R T A)
| PutUser (u : U) (k : prog U R T A).

Arguments Ret {U R T A} a.
Arguments Throw {U R T A} f.
Arguments Visit {U R T A} e k.
Arguments VisitTy {U R T A} t k.
Arguments Make {U R T A} n k.
Arguments NewArray {U R T A} k.
Arguments Deref {U R T A} e k.
Arguments GetUser {U R T A} k.
Arguments PutUser {U R T A} u k.

Fixpoint prog_bind {U R T A B} (f : A → prog U R T B) (p : prog U R T A)
  : prog U R T B :=
  match p with
  | Ret a => f a
  | Throw x => Throw x
  | Visit e k => Visit e (λ r, prog_bind f (k r))
  | VisitTy t k => VisitTy t (λ r, prog_bind f (k r))
  | Make n k => Make n (λ r, prog_bind f (k r))
  | NewArray k => NewArray (λ r, prog_bind f (k r))
  | Deref e k => Deref e (λ r, prog_bind f (k r))
  | GetUser k => GetUser (λ r, prog_bind f (k r))
  | PutUser u k => PutUser u (prog_bind f k)
  end.

#[global] Instance prog_ret {U R T} : MRet (prog U R T) := λ A a, Ret a.
#[global] Instance prog_mbind {U R T} : MBind (prog U R T) :=
  λ A B f p, prog_bind f p.

(** The calls a handler makes on [this].
    [Expr Mutate(const Expr& e) { return this->VisitExpr(e); }] *)
Definition this_VisitExpr {U R T} (e : Expr) : prog U R T R := Visit e Ret.
Definition this_Mutate {U T} (e : Expr) : prog U Expr T Expr := Visit e Ret.
Definition this_VisitType {U R T} (t : Ty) : prog U R T T := VisitTy t Ret.
Definition make {U R T} (n : Node) : prog U R T Expr := Make n Ret.
Definition new_array {U R T} (A : Type) : prog U R T (Array A) :=
  NewArray (λ i, Ret (mkArray i [])).
Definition deref {U R T} (e : Expr) : prog U R T Node := Deref e Ret.

(** The virtual methods of a functor: one handler per node kind, given the
    handle of the node ([GetRef<Expr>(op)]) and its fields, and the type
    hook. *)
Record ExprFunctor (U R T : Type) := {
  visit_Var : Expr → string → Ty → prog U R T R;
  visit_Constant : Expr → Z → prog U R T R;
  visit_GlobalVar : Expr → string → prog U R T R;
  visit_Op : Expr → string → prog U R T R;
  visit_Tuple : Expr → Array Expr → prog U R T R;
  visit_Function :
    Expr → Array Expr → Expr → Ty → Array Ty → Attrs → prog U R T R;
  visit_Call : Expr → Expr → Array Expr → Attrs → Array Ty → prog U R T R;
  visit_Let : Expr → Expr → Expr → Expr → prog U R T R;
  visit_If : Expr → Expr → Expr → Expr → prog U R T R;
  visit_TupleGetItem : Expr → Expr → Z → prog U R T R;
  visit_type : Ty → prog U R T T
}.

(** [ExprFunctor::VisitExpr]: dispatch on the kind of the node. *)
Definition ExprFunctor_dispatch {U R T} (this : ExprFunctor U R T) (e : Expr)
    (n : Node) : prog U R T R :=
  match n with
  | VarNode name_hint type_annotation =>
      visit_Var this e name_hint type_annotation
  | ConstantNode data => visit_Constant this e data
  | GlobalVarNode name_hint => visit_GlobalVar this e name_hint
  | OpNode name => visit_Op this e name
  | TupleNode fields => visit_Tuple this e fields
  | FunctionNode params body ret_type type_params attrs =>
      visit_Function this e params body ret_type type_params attrs
  | CallNode op args attrs type_args =>
      visit_Call this e op args attrs type_args
  | LetNode var value body => visit_Let this e var value body
  | IfNode cond true_branch false_branch =>
      visit_If this e cond true_branch false_branch
  | TupleGetItemNode tuple index => visit_TupleGetItem this e tuple index
  end.

Definition ExprFunctor_VisitExpr {U R T} (this : ExprFunctor U R T) (e : Expr)
  : prog U R T R :=
  n ← deref e; ExprFunctor_dispatch this e n.

(** ** Machine state and the interpretation of handler programs *)

(** [heap]: every node object built so far, at its address; [arrays]: the
    number of array objects built so far; [cache]: the functor's identity-keyed
    map ([memo_] of the mutator, [visit_counter_] of the visitor); [user]: the
    state of the concrete pass; [trace]: ghost record of the expressions whose
    kind-specific handler was entered, in order. *)
Record state (U C : Type) := mkState {
  heap : list Node;
  arrays : nat;
  cache : gmap nat C;
  user : U;
  trace : list Expr
}.

Arguments mkState {U C} heap arrays cache user trace.

Definition set_cache {U C} (m : gmap nat C) (s : state U C) : state U C :=
  mkState (heap s) (arrays s) m (user s) (trace s).
Definition set_user {U C} (u : U) (s : state U C) : state U C :=
  mkState (heap s) (arrays s) (cache s) u (trace s).
Definition alloc {U C} (n : Node) (s : state U C) : state U C :=
  mkState (heap s ++ [n]) (arrays s) (cache s) (user s) (trace s).
Definition alloc_array {U C} (s : state U C) : state U C :=
  mkState (heap s) (S (arrays s)) (cache s) (user s) (trace s).
Definition enter {U C} (e : Expr) (s : state U C) : state U C :=
  mkState (heap s) (arrays s) (cache s) (user s) (trace s ++ [e]).

Inductive result (S A : Type) :=
| Ok (a : A) (s : S)
| Fault (f : fault)
| OutOfFuel.

Arguments Ok {S A} a s.
Arguments Fault {S A} f.
Arguments OutOfFuel {S A}.

Definition result_bind {S A B} (f : A → S → result S B) (r : result S A)
  : result S B :=
  match r with
  | Ok a s => f a s
  | Fault x => Fault x
  | OutOfFuel => OutOfFuel
  end.

Section Interp.
Context {U C R T : Type}.
Variable visit_expr : Expr → state U C → result (state U C) R.
Variable visit_type : Ty → state U C → result (state U C) T.

Fixpoint interp {A} (p : prog U R T A) (s : state U C)
  : result (state U C) A :=
  match p with
  | Ret a => Ok a s
  | Throw f => Fault f
  | Visit e k =>
      match visit_expr e s with
      | Ok r s' => interp (k r) s'
      | Fault f => Fault f
      | OutOfFuel => OutOfFuel
      end
  | VisitTy t k =>
      match visit_type t s with
      | Ok r s' => interp (k r) s'
      | Fault f => Fault f
      | OutOfFuel => OutOfFuel
      end
  | Make n k => interp (k (length (heap s))) (alloc n s)
  | NewArray k => interp (k (arrays s)) (alloc_array s)
  | Deref e k =>
      match heap s !! e with
      | Some n => interp (k n) s
      | None => Fault NullDeref
      end
  | GetUser k => interp (k (user s)) s
  | PutUser u k => interp k (set_user u s)
  end.
End Interp.

(** ** ExprMutator *)

Module ExprMutator.

(** Modelled from the spec: [Downcast] is declared outside this file.  The
    spec has a required downcast fail fatally when the object is of another
    kind, "never silently coerced". *)
Definition Downcast_Var {U R T} (e : Expr) : prog U R T Expr :=
  n ← deref e;
  if is_VarNode n then mret e else Throw Fatal.

Section WithTypes.
(** Modelled from the spec: which objects of the external type language are
    type variables. *)
Variable is_TypeVar : nat → bool.
Context {U : Type}.
Local Abbreviation prog := (prog U Expr Ty).

(** Modelled from the spec: [Downcast<TypeVar>], as [Downcast_Var]. *)
Definition Downcast_TypeVar (t : Ty) : prog Ty :=
  match t with
  | Some i => if is_TypeVar i then mret t else Throw Fatal
  | None => Throw NullDeref
  end.

Definition VisitExpr_Var (op : Expr) (name_hint : string)
    (type_annotation : Ty) : prog Expr :=
  if defined type_annotation then
    type ← this_VisitType type_annotation;
    if negb (ty_same_as type_annotation type) then
      make (VarNode name_hint type)
    else mret op
  else mret op.

Definition VisitExpr_Constant (op : Expr) (data : Z) : prog Expr :=
  mret op.

Definition VisitExpr_GlobalVar (op : Expr) (name_hint : string)
  : prog Expr := mret op.

Definition VisitExpr_Op (op : Expr) (name : string) : prog Expr :=
  mret op.

(** [for (auto field : l) { auto new_field = this->Mutate(field);
     fields.push_back(new_field);
     unchanged &= new_field.same_as(field); }] *)
Fixpoint mutate_each (l : list Expr) (fields : Array Expr)
    (unchanged : bool) : prog (Array Expr * bool) :=
  match l with
  | [] => mret (fields, unchanged)
  | field :: l' =>
      new_field ← this_Mutate field;
      mutate_each l' (push_back fields new_field)
        (unchanged && same_as new_field field)
  end.

Definition VisitExpr_Tuple (op : Expr) (op_fields : Array Expr)
  : prog Expr :=
  fields ← new_array Expr;
  '(fields, all_fields_unchanged) ← mutate_each (elems op_fields) fields true;
  if all_fields_unchanged : bool then mret op
  else make (TupleNode fields).

(** The loop over [op->type_params]. *)
Fixpoint mutate_ty_params (l : list Ty) (ty_params : Array Ty)
    (all_ty_params_changed : bool) : prog (Array Ty * bool) :=
  match l with
  | [] => mret (ty_params, all_ty_params_changed)
  | ty_param :: l' =>
      t ← this_VisitType ty_param;
      new_ty_param ← Downcast_TypeVar t;
      mutate_ty_params l' (push_back ty_params new_ty_param)
        (all_ty_params_changed && ty_same_as new_ty_param ty_param)
  end.

(** The loop over [op->params]. *)
Fixpoint mutate_params (l : list Expr) (params : Array Expr)
    (all_params_changed : bool) : prog (Array Expr * bool) :=
  match l with
  | [] => mret (params, all_params_changed)
  | param :: l' =>
      e ← this_Mutate param;
      new_param ← Downcast_Var e;
      mutate_params l' (push_back params new_param)
        (all_params_changed && same_as param new_param)
  end.

Definition VisitExpr_Function (op : Expr) (op_params : Array Expr)
    (op_body : Expr) (op_ret_type : Ty) (op_type_params : Array Ty)
    (op_attrs : Attrs) : prog Expr :=
  ty_params ← new_array Ty;
  '(ty_params, all_ty_params_changed) ←
    mutate_ty_params (elems op_type_params) ty_params true;
  params ← new_array Expr;
  '(params, all_params_changed) ←
    mutate_params (elems op_params) params true;
  ret_type ← this_VisitType op_ret_type;
  body ← this_Mutate op_body;
  if array_same_as ty_params op_type_params &&
     array_same_as params op_params &&
     ty_same_as ret_type op_ret_type &&
     same_as body op_body
  then mret op
  else make (FunctionNode params body ret_type ty_params op_attrs).

(** The loop over [call_node->type_args]. *)
Fixpoint mutate_ty_args (l : list Ty) (ty_args : Array Ty)
    (unchanged : bool) : prog (Array Ty * bool) :=
  match l with
  | [] => mret (ty_args, unchanged)
  | ty_arg :: l' =>
      new_ty_arg ← this_VisitType ty_arg;
      mutate_ty_args l' (push_back ty_args new_ty_arg)
        (unchanged && ty_same_as new_ty_arg ty_arg)
  end.

Definition VisitExpr_Call (call_node : Expr) (op : Expr)
    (args : Array Expr) (attrs : Attrs) (type_args : Array Ty)
  : prog Expr :=
  new_op ← this_Mutate op;
  let unchanged := same_as op new_op in
  ty_args ← new_array Ty;
  '(ty_args, unchanged) ← mutate_ty_args (elems type_args) ty_args unchanged;
  call_args ← new_array Expr;
  '(call_args, unchanged) ← mutate_each (elems args) call_args unchanged;
  if unchanged : bool then mret call_node
  else make (CallNode new_op call_args attrs ty_args).

Definition VisitExpr_Let (op : Expr) (op_var op_value op_body : Expr)
  : prog Expr :=
  e ← this_Mutate op_var;
  var ← Downcast_Var e;
  value ← this_Mutate op_value;
  body ← this_Mutate op_body;
  if same_as var op_var && same_as value op_value && same_as body op_body
  then mret op
  else make (LetNode var value body).

Definition VisitExpr_If (op : Expr) (cond true_branch false_branch : Expr)
  : prog Expr :=
  guard ← this_Mutate cond;
  true_b ← this_Mutate true_branch;
  false_b ← this_Mutate false_branch;
  if same_as cond guard && same_as true_branch true_b &&
     same_as false_branch false_b
  then mret op
  else make (IfNode guard true_b false_b).

Definition VisitExpr_TupleGetItem (g : Expr) (tuple : Expr) (index : Z)
  : prog Expr :=
  t ← this_Mutate tuple;
  if same_as tuple t then mret g
  else make (TupleGetItemNode t index).

Definition VisitType (t : Ty) : prog Ty := mret t.

(** The mutator none of whose methods is overridden. *)
Definition base : ExprFunctor U Expr Ty := {|
  visit_Var := VisitExpr_Var;
  visit_Constant := VisitExpr_Constant;
  visit_GlobalVar := VisitExpr_GlobalVar;
  visit_Op := VisitExpr_Op;
  visit_Tuple := VisitExpr_Tuple;
  visit_Function := VisitExpr_Function;
  visit_Call := VisitExpr_Call;
  visit_Let := VisitExpr_Let;
  visit_If := VisitExpr_If;
  visit_TupleGetItem := VisitExpr_TupleGetItem;
  visit_type := VisitType
|}.

(** [ExprMutator::VisitExpr], with [memo_] the cache of the state, and
    the call of the (virtual) type hook.  The recursion of the handlers
    through [this] is bounded by [fuel]. *)
Fixpoint VisitExpr (this : ExprFunctor U Expr Ty) (fuel : nat) (expr : Expr)
      (s : state U Expr) {struct fuel} : result (state U Expr) Expr :=
  match fuel with
  | O => OutOfFuel
  | S fuel' =>
      match cache s !! expr with
      | Some it => Ok it s
      | None =>
          match
            interp (VisitExpr this fuel') (call_VisitType this fuel')
              (ExprFunctor_VisitExpr this expr) (enter expr s)
          with
          | Ok new_expr s' =>
              Ok new_expr (set_cache (<[expr := new_expr]> (cache s')) s')
          | Fault f => Fault f
          | OutOfFuel => OutOfFuel
          end
      end
  end
with call_VisitType (this : ExprFunctor U Expr Ty) (fuel : nat) (t : Ty)
      (s : state U Expr) {struct fuel} : result (state U Expr) Ty :=
  match fuel with
  | O => OutOfFuel
  | S fuel' =>
      interp (VisitExpr this fuel') (call_VisitType this fuel')
        (visit_type this t) s
  end.
End WithTypes.
End ExprMutator.

(** ** ExprVisitor *)

Module ExprVisitor.
Section Visitor.
Context {U : Type}.
Local Abbreviation prog := (prog U unit unit).

Definition VisitExpr_Var (op : Expr) (name_hint : string)
    (type_annotation : Ty) : prog unit :=
  if defined type_annotation then this_VisitType type_annotation
  else mret tt.

Definition VisitExpr_GlobalVar (op : Expr) (name_hint : string)
  : prog unit := mret tt.

Definition VisitExpr_Constant (op : Expr) (data : Z) : prog unit :=
  mret tt.

(** [for (auto x : l) { this->VisitExpr(x); }] *)
Fixpoint visit_each (l : list Expr) : prog unit :=
  match l with
  | [] => mret tt
  | x :: l' => _ ← this_VisitExpr x; visit_each l'
  end.

(** [for (auto ty_arg : l) { this->VisitType(ty_arg); }] *)
Fixpoint visit_each_type (l : list Ty) : prog unit :=
  match l with
  | [] => mret tt
  | t :: l' => _ ← this_VisitType t; visit_each_type l'
  end.

Definition VisitExpr_Tuple (op : Expr) (fields : Array Expr)
  : prog unit :=
  visit_each (elems fields).

Definition VisitExpr_Function (op : Expr) (params : Array Expr)
    (body : Expr) (ret_type : Ty) (type_params : Array Ty)
    (attrs : Attrs) : prog unit :=
  _ ← visit_each (elems params);
  this_VisitExpr body.

Definition VisitExpr_Call (op : Expr) (op_op : Expr) (args : Array Expr)
    (attrs : Attrs) (type_args : Array Ty) : prog unit :=
  _ ← this_VisitExpr op_op;
  _ ← visit_each_type (elems type_args);
  visit_each (elems args).

Definition VisitExpr_Let (op : Expr) (var value body : Expr)
  : prog unit :=
  _ ← this_VisitExpr value;
  _ ← this_VisitExpr var;
  this_VisitExpr body.

Definition VisitExpr_If (op : Expr) (cond true_branch false_branch : Expr)
  : prog unit :=
  _ ← this_VisitExpr cond;
  _ ← this_VisitExpr true_branch;
  this_VisitExpr false_branch.

Definition VisitExpr_Op (op : Expr) (name : string) : prog unit :=
  mret tt.

Definition VisitExpr_TupleGetItem (op : Expr) (tuple : Expr) (index : Z)
  : prog unit :=
  this_VisitExpr tuple.

Definition VisitType (t : Ty) : prog unit := mret tt.

(** The visitor none of whose methods is overridden. *)
Definition base : ExprFunctor U unit unit := {|
  visit_Var := VisitExpr_Var;
  visit_Constant := VisitExpr_Constant;
  visit_GlobalVar := VisitExpr_GlobalVar;
  visit_Op := VisitExpr_Op;
  visit_Tuple := VisitExpr_Tuple;
  visit_Function := VisitExpr_Function;
  visit_Call := VisitExpr_Call;
  visit_Let := VisitExpr_Let;
  visit_If := VisitExpr_If;
  visit_TupleGetItem := VisitExpr_TupleGetItem;
  visit_type := VisitType
|}.

(** [visit_counter_.insert({expr.get(), 1})]: [insert] leaves the map as
    it is when the key is present. *)
Definition insert_counter (expr : Expr) (m : gmap nat nat) : gmap nat nat :=
  match m !! expr with
  | Some _ => m
  | None => <[expr := 1]> m
  end.

(** [ExprVisitor::VisitExpr], with [visit_counter_] the cache of the
    state.  The counter is a [size_t] declared in the header; it is kept
    unbounded here. *)
Fixpoint VisitExpr (this : ExprFunctor U unit unit) (fuel : nat)
      (expr : Expr) (s : state U nat) {struct fuel}
    : result (state U nat) unit :=
  match fuel with
  | O => OutOfFuel
  | S fuel' =>
      match cache s !! expr with
      | Some it => Ok tt (set_cache (<[expr := S it]> (cache s)) s)
      | None =>
          match
            interp (VisitExpr this fuel') (call_VisitType this fuel')
              (ExprFunctor_VisitExpr this expr) (enter expr s)
          with
          | Ok _ s' => Ok tt (set_cache (insert_counter expr (cache s')) s')
          | Fault f => Fault f
          | OutOfFuel => OutOfFuel
          end
      end
  end
with call_VisitType (this : ExprFunctor U unit unit) (fuel : nat) (t : Ty)
      (s : state U nat) {struct fuel} : result (state U nat) unit :=
  match fuel with
  | O => OutOfFuel
  | S fuel' =>
      interp (VisitExpr this fuel') (call_VisitType this fuel')
        (visit_type this t) s
  end.
End Visitor.
End ExprVisitor.

(** ** Invariants of a pass *)

(** The expression children of a node, in field order. *)
Definition children (n : Node) : list Expr :=
  match n with
  | VarNode _ _ | ConstantNode _ | GlobalVarNode _ | OpNode _ => []
  | TupleNode fields => elems fields
  | FunctionNode params body _ _ _ => elems params ++ [body]
  | CallNode op args _ _ => op :: elems args
  | LetNode var value body => [var; value; body]
  | IfNode cond true_branch false_branch => [cond; true_branch; false_branch]
  | TupleGetItemNode tuple _ => [tuple]
  end.

(** What a run of the mutator may do to the state: the heap grows at its end,
    array identities are not reused, every binding of [memo_] is kept, and the
    handlers entered are those of expressions that were not cached. *)
Definition extends {U} (s s' : state U Expr) : Prop :=
  heap s `prefix_of` heap s' ∧
  arrays s ≤ arrays s' ∧
  cache s ⊆ cache s' ∧
  ∃ l, trace s' = trace s ++ l ∧ ∀ x, x ∈ l → cache s !! x = None.

(** ** Rewriting children in order *)

(** Calling [f] on the elements of a list from left to right, threading the
    state: the rewritten children in order. *)
Fixpoint visit_list {S A B} (f : A → S → result S B) (l : list A) (s : S)
  : result S (list B) :=
  match l with
  | [] => Ok [] s
  | x :: l' =>
      result_bind (λ r s1,
        result_bind (λ rs s2, Ok (r :: rs) s2) (visit_list f l' s1)) (f x s)
  end.

(** The structural-sharing rule, in the spec's words: with [unchanged] saying
    that every rewritten child is the original one, the handler returns the
    original reference [op] exactly when [unchanged] holds, and then builds
    nothing; otherwise it returns a node built for the purpose, at an address
    that held no object, and [rebuilt] describes that node. *)
Definition structural_sharing {U} (op r : Expr) (unchanged : Prop)
    (rebuilt : Node → Prop) (s1 s' : state U Expr) : Prop :=
  (r = op ↔ unchanged) ∧
  (unchanged → s' = s1) ∧
  (¬ unchanged →
     ∃ n', rebuilt n' ∧ heap s1 !! r = None ∧ s' = alloc n' s1 ∧
           heap s' !! r = Some n').

(** ** Concrete passes *)

(** A functor with one method overridden. *)
Definition override_Constant {U R T} (h : Expr → Z → prog U R T R)
    (this : ExprFunctor U R T) : ExprFunctor U R T := {|
  visit_Var := visit_Var this;
  visit_Constant := h;
  visit_GlobalVar := visit_GlobalVar this;
  visit_Op := visit_Op this;
  visit_Tuple := visit_Tuple this;
  visit_Function := visit_Function this;
  visit_Call := visit_Call this;
  visit_Let := visit_Let this;
  visit_If := visit_If this;
  visit_TupleGetItem := visit_TupleGetItem this;
  visit_type := visit_type this
|}.

Definition override_Var {U R T} (h : Expr → string → Ty → prog U R T R)
    (this : ExprFunctor U R T) : ExprFunctor U R T := {|
  visit_Var := h;
  visit_Constant := visit_Constant this;
  visit_GlobalVar := visit_GlobalVar this;
  visit_Op := visit_Op this;
  visit_Tuple := visit_Tuple this;
  visit_Function := visit_Function this;
  visit_Call := visit_Call this;
  visit_Let := visit_Let this;
  visit_If := visit_If this;
  visit_TupleGetItem := visit_TupleGetItem this;
  visit_type := visit_type this
|}.

Definition override_VisitType {U R T} (h : Ty → prog U R T T)
    (this : ExprFunctor U R T) : ExprFunctor U R T := {|
  visit_Var := visit_Var this;
  visit_Constant := visit_Constant this;
  visit_GlobalVar := visit_GlobalVar this;
  visit_Op := visit_Op this;
  visit_Tuple := visit_Tuple this;
  visit_Function := visit_Function this;
  visit_Call := visit_Call this;
  visit_Let := visit_Let this;
  visit_If := visit_If this;
  visit_TupleGetItem := visit_TupleGetItem this;
  visit_type := h
|}.

(** The state a fresh functor starts from, over the objects built so far. *)
Definition init {U C} (h : list Node) (narrays : nat) (u : U) : state U C :=
  mkState h narrays ∅ u [].

(** Constant, GlobalVar and Op nodes. *)
Definition is_terminal (n : Node) : bool :=
  match n with
  | ConstantNode _ | GlobalVarNode _ | OpNode _ => true
  | _ => false
  end.

Module Examples.
Open Scope string_scope.

(** Every type object is a type variable. *)
Definition all_TypeVar (i : nat) : bool := true.


(** A visitor that counts the Constants it visits. *)
Definition counting_visitor : ExprFunctor nat unit unit :=
  override_Constant
    (λ op data,
       GetUser (λ count,
         PutUser (S count) (ExprVisitor.VisitExpr_Constant op data)))
    ExprVisitor.base.

(** A mutator that rewrites [Constant(1)] to [Constant(42)]. *)
Definition constant_rewriter : ExprFunctor unit Expr Ty :=
  override_Constant
    (λ op data,
       if bool_decide (data = 1%Z) then make (ConstantNode 42)
       else ExprMutator.VisitExpr_Constant op data)
    (ExprMutator.base all_TypeVar).

(** A mutator that rewrites every Var to a Constant. *)
Definition var_breaker : ExprFunctor unit Expr Ty :=
  override_Var (λ op name_hint type_annotation, make (ConstantNode 0))
    (ExprMutator.base all_TypeVar).

(** [shared = Constant(1); a = TupleGetItem(shared, 0);
     b = TupleGetItem(shared, 0); root = Tuple([a, b])] *)
Definition shared_heap : list Node :=
  [ConstantNode 1; TupleGetItemNode 0 0; TupleGetItemNode 0 0;
   TupleNode (mkArray 0 [1; 2])].
Definition shared_root : Expr := 3.
Definition shared_state : state unit Expr := init shared_heap 1 tt.

(** [lt = Let(x, Constant(1), Tuple([x, Constant(2)]))] *)
Definition let_heap : list Node :=
  [VarNode "x" None; ConstantNode 1; ConstantNode 2;
   TupleNode (mkArray 0 [0; 2]); LetNode 0 1 3].
Definition let_root : Expr := 4.
Definition let_state : state unit Expr := init let_heap 1 tt.

(** [f = Function([x], x)], without type parameters or return type. *)
Definition fn_heap : list Node :=
  [VarNode "x" None;
   FunctionNode (mkArray 0 [0]) 0 None (mkArray 1 []) None].
Definition fn_root : Expr := 1.
Definition fn_state : state unit Expr := init fn_heap 2 tt.

(** [t = Tuple([f])] over the same function. *)
Definition fn_tuple_heap : list Node := fn_heap ++ [TupleNode (mkArray 2 [1])].
Definition fn_tuple_root : Expr := 2.
Definition fn_tuple_state : state unit Expr := init fn_tuple_heap 3 tt.


End Examples.

(** ** Observing the calls of a handler *)

(** A [VisitExpr] that only records the call: the ghost trace then holds the
    expressions a handler calls [this->VisitExpr] (or [this->Mutate]) on, in
    the order of the calls. *)
Definition record_visit {U} (e : Expr) (s : state U nat)
  : result (state U nat) unit := Ok tt (enter e s).
Definition record_mutate {U} (e : Expr) (s : state U Expr)
  : result (state U Expr) Expr := Ok e (enter e s).
Definition set_trace {U C} (l : list Expr) (s : state U C) : state U C :=
  mkState (heap s) (arrays s) (cache s) (user s) l.

(** [Downcast<Var>(this->Mutate(param))]: the rewrite of a binder, which has
    to be a Var. *)
Definition mutate_var {U}
    (ve : Expr → state U Expr → result (state U Expr) Expr)
    (param : Expr) (s : state U Expr) : result (state U Expr) Expr :=
  result_bind
    (λ e s1,
       match heap s1 !! e with
       | Some n => if is_VarNode n then Ok e s1 else Fault Fatal
       | None => Fault NullDeref
       end)
    (ve param s).

(** [Downcast<TypeVar>(VisitType(ty_param))]. *)
Definition visit_type_var {U} (is_TypeVar : nat → bool)
    (vt : Ty → state U Expr → result (state U Expr) Ty)
    (ty_param : Ty) (s : state U Expr) : result (state U Expr) Ty :=
  result_bind
    (λ t s1,
       match t with
       | Some i => if is_TypeVar i then Ok t s1 else Fault Fatal
       | None => Fault NullDeref
       end)
    (vt ty_param s).

(** ** Passes over a DAG *)

(** The objects of a heap are built children first, so that a child has a
    smaller address than its parents: the heap is a DAG. *)
Definition wf_heap (h : list Node) : bool :=
  forallb (λ p : nat * Node, forallb (λ c, Nat.ltb c p.1) (children p.2))
    (imap pair h).

(** [child h x c]: [c] is a child of the node at [x]. *)
Definition child (h : list Node) (x c : Expr) : Prop :=
  ∃ n, h !! x = Some n ∧ c ∈ children n.

(** The handler program calls [this->VisitExpr] on expressions in [P]
    only. *)
Inductive only_visits {U R T A} (P : Expr → Prop) : prog U R T A → Prop :=
| ov_Ret a : only_visits P (Ret a)
| ov_Throw f : only_visits P (Throw f)
| ov_Visit e k :
    P e → (∀ r, only_visits P (k r)) → only_visits P (Visit e k)
| ov_VisitTy t k : (∀ r, only_visits P (k r)) → only_visits P (VisitTy t k)
| ov_Make n k : (∀ r, only_visits P (k r)) → only_visits P (Make n k)
| ov_NewArray k : (∀ r, only_visits P (k r)) → only_visits P (NewArray k)
| ov_Deref e k : (∀ r, only_visits P (k r)) → only_visits P (Deref e k)
| ov_GetUser k : (∀ r, only_visits P (k r)) → only_visits P (GetUser k)
| ov_PutUser u k : only_visits P k → only_visits P (PutUser u k).

(** A functor whose handlers recurse into the children of their node only,
    and whose type hook does not call back into the expression functor. *)
Definition descending {U R T} (this : ExprFunctor U R T) : Prop :=
  (∀ e n, only_visits (λ x, x ∈ children n) (ExprFunctor_dispatch this e n)) ∧
  (∀ t, only_visits (λ _, False) (visit_type this t)).

(** What a run does to the cache and the trace, over the objects [h0] the
    pass started from: the handlers entered, [l], are entered once each, are
    those of expressions in [Q] that were not cached, and are exactly the
    expressions that the run adds to the cache. *)
Definition pass_step {U C} (h0 : list Node) (Q : Expr → Prop)
    (s s' : state U C) : Prop :=
  h0 `prefix_of` heap s →
  h0 `prefix_of` heap s' ∧
  ∃ l, trace s' = trace s ++ l ∧ NoDup l ∧
       (∀ x, x ∈ l → Q x ∧ x ∉ dom (cache s)) ∧
       dom (cache s') = dom (cache s) ∪ list_to_set l.

(** The expressions at or under [e]: those a pass started at [e] can
    reach. *)
Definition under (h0 : list Node) (e x : Expr) : Prop :=
  x ≤ e ∧ rtc (child h0) e x.

(** The expressions strictly under [e]. *)
Definition strictly_under (h0 : list Node) (e x : Expr) : Prop :=
  x < e ∧ ∃ c, child h0 e c ∧ rtc (child h0) c x.


(** The cache holds, with every cached expression of [h0], its children. *)
Definition closed {U C} (h0 : list Node) (s : state U C) : Prop :=
  ∀ x c, x ∈ dom (cache s) → child h0 x c → c ∈ dom (cache s).

(** The last step of a default handler of the mutator: [GetRef<Expr>(op)]
    when nothing changed, [XNode::make(...)] otherwise. *)
Definition share_or_build {U} (op : Expr) (unchanged : bool) (n' : Node)
    (s : state U Expr) : result (state U Expr) Expr :=
  if unchanged then Ok op s else Ok (length (heap s)) (alloc n' s).

(** ** Heaps without functions *)

Definition is_FunctionNode (n : Node) : bool :=
  match n with FunctionNode _ _ _ _ _ => true | _ => false end.

Definition function_free (h : list Node) : bool :=
  forallb (λ n, negb (is_FunctionNode n)) h.

(** The bound var of every Let is a Var. *)
Definition let_binders_ok (h : list Node) : bool :=
  forallb
    (λ n, match n with
          | LetNode var _ _ =>
              match h !! var with
              | Some nv => is_VarNode nv
              | None => false
              end
          | _ => true
          end) h.

(** Every expression in the memo cache is bound to itself. *)
Definition memo_identity {U} (s : state U Expr) : Prop :=
  ∀ x r, cache s !! x = Some r → r = x.

(** ** Further properties of the visitor *)

(** The handler program builds no node and no array; with [w = false] it
    does not write the state of the concrete pass either. *)
Inductive builds_nothing {U R T A} (w : bool) : prog U R T A → Prop :=
| bn_Ret a : builds_nothing w (Ret a)
| bn_Throw f : builds_nothing w (Throw f)
| bn_Visit e k : (∀ r, builds_nothing w (k r)) → builds_nothing w (Visit e k)
| bn_VisitTy t k :
    (∀ r, builds_nothing w (k r)) → builds_nothing w (VisitTy t k)
| bn_Deref e k : (∀ r, builds_nothing w (k r)) → builds_nothing w (Deref e k)
| bn_GetUser k : (∀ r, builds_nothing w (k r)) → builds_nothing w (GetUser k)
| bn_PutUser u k :
    w = true → builds_nothing w k → builds_nothing w (PutUser u k).

(** A functor all of whose handlers, and whose type hook, build nothing. *)
Definition read_only {U R T} (w : bool) (this : ExprFunctor U R T) : Prop :=
  (∀ e n, builds_nothing w (ExprFunctor_dispatch this e n)) ∧
  (∀ t, builds_nothing w (visit_type this t)).

(** The objects and, with [w = false], the state of the pass are the same in
    [s] and [s']. *)
Definition same_objects {U C} (w : bool) (s s' : state U C) : Prop :=
  heap s' = heap s ∧ arrays s' = arrays s ∧ (w = false → user s' = user s).

(** Every counter of [s] is still there in [s'], and has not decreased; every
    counter that [s'] adds is at least 1. *)
Definition counters_grow {U} (s s' : state U nat) : Prop :=
  (∀ x c, cache s !! x = Some c → ∃ c', cache s' !! x = Some c' ∧ c ≤ c') ∧
  (∀ x c, cache s !! x = None → cache s' !! x = Some c → 1 ≤ c).

(** ** The calls of the default handlers *)

(** A call of a handler on [this]: [this->VisitExpr(e)] (or [this->Mutate(e)])
    or [this->VisitType(t)]. *)
Inductive call :=
| CallExpr (e : Expr)
| CallType (t : Ty).

Definition run_call {S R} (ve : Expr → S → result S R)
    (vt : Ty → S → result S R) (c : call) (s : S) : result S R :=
  match c with
  | CallExpr e => ve e s
  | CallType t => vt t s
  end.

(** The calls of the default handler of the visitor on a node, in order. *)
Definition visitor_calls (n : Node) : list call :=
  match n with
  | VarNode _ type_annotation =>
      if defined type_annotation then [CallType type_annotation] else []
  | ConstantNode _ | GlobalVarNode _ | OpNode _ => []
  | TupleNode fields => CallExpr <$> elems fields
  | FunctionNode params body _ _ _ =>
      (CallExpr <$> elems params) ++ [CallExpr body]
  | CallNode op args _ type_args =>
      CallExpr op :: (CallType <$> elems type_args) ++
      (CallExpr <$> elems args)
  | LetNode var value body => [CallExpr value; CallExpr var; CallExpr body]
  | IfNode cond true_branch false_branch =>
      [CallExpr cond; CallExpr true_branch; CallExpr false_branch]
  | TupleGetItemNode tuple _ => [CallExpr tuple]
  end.

(** The calls of the default handler of the mutator on a node, in order. *)
Definition mutator_calls (n : Node) : list call :=
  match n with
  | VarNode _ type_annotation =>
      if defined type_annotation then [CallType type_annotation] else []
  | ConstantNode _ | GlobalVarNode _ | OpNode _ => []
  | TupleNode fields => CallExpr <$> elems fields
  | FunctionNode params body ret_type type_params _ =>
      (CallType <$> elems type_params) ++ (CallExpr <$> elems params) ++
      [CallType ret_type; CallExpr body]
  | CallNode op args _ type_args =>
      CallExpr op :: (CallType <$> elems type_args) ++
      (CallExpr <$> elems args)
  | LetNode var value body => [CallExpr var; CallExpr value; CallExpr body]
  | IfNode cond true_branch false_branch =>
      [CallExpr cond; CallExpr true_branch; CallExpr false_branch]
  | TupleGetItemNode tuple _ => [CallExpr tuple]
  end.

(** A mutator's [VisitExpr] and type hook that return their argument and
    record the call in the state of the pass. *)
Definition log_call {C} (c : call) (s : state (list call) C)
  : state (list call) C := set_user (user s ++ [c]) s.
Definition logging_mutate (e : Expr) (s : state (list call) Expr)
  : result (state (list call) Expr) Expr := Ok e (log_call (CallExpr e) s).
Definition logging_type (t : Ty) (s : state (list call) Expr)
  : result (state (list call) Expr) Ty := Ok t (log_call (CallType t) s).

(** The binders of a node are Vars of the heap, and its type parameters are
    type variables. *)
Definition binders_ok (is_TypeVar : nat → bool) (h : list Node) (n : Node)
  : bool :=
  let is_var (x : Expr) :=
    match h !! x with Some nv => is_VarNode nv | None => false end in
  let is_tv (t : Ty) :=
    match t with Some i => is_TypeVar i | None => false end in
  match n with
  | LetNode var _ _ => is_var var
  | FunctionNode params _ _ type_params _ =>
      forallb is_var (elems params) && forallb is_tv (elems type_params)
  | _ => true
  end.

(** ** Counting visits *)

(** The counter of an identity in [visit_counter_], 0 when it is not
    recorded. *)
Definition counter {U} (s : state U nat) (x : Expr) : nat :=
  default 0 (cache s !! x).

(** The number of occurrences of [x] in [l]. *)
Definition occ (x : Expr) (l : list Expr) : nat :=
  length (filter (λ y, y = x) l).

(** The children of the node at [y]. *)
Definition children_at (h : list Node) (y : Expr) : list Expr :=
  match h !! y with Some n => children n | None => [] end.

(** The expressions a list of calls calls [VisitExpr] on. *)
Definition called_exprs (cs : list call) : list Expr :=
  flat_map (λ c, match c with CallExpr e => [e] | CallType _ => [] end) cs.

(** ** Copies *)

(** Two lists are related element by element. *)
Fixpoint all2 {A B} (f : A → B → bool) (l : list A) (l' : list B) : bool :=
  match l, l' with
  | [], [] => true
  | x :: l, y :: l' => f x y && all2 f l l'
  | _, _ => false
  end.

(** Two nodes are of the same kind, with children related by [f] in order,
    and with the same type handles, attributes and index. *)
Definition copy_node (f : Expr → Expr → bool) (nx ny : Node) : bool :=
  match nx, ny with
  | TupleNode fields, TupleNode fields' =>
      all2 f (elems fields) (elems fields')
  | FunctionNode params body ret_type type_params attrs,
    FunctionNode params' body' ret_type' type_params' attrs' =>
      all2 f (elems params) (elems params') && f body body' &&
      ty_same_as ret_type' ret_type &&
      bool_decide (elems type_params' = elems type_params) &&
      bool_decide (attrs' = attrs)
  | CallNode op args attrs type_args, CallNode op' args' attrs' type_args' =>
      f op op' && all2 f (elems args) (elems args') &&
      bool_decide (attrs' = attrs) &&
      bool_decide (elems type_args' = elems type_args)
  | LetNode var value body, LetNode var' value' body' =>
      f var var' && f value value' && f body body'
  | IfNode cond true_branch false_branch,
    IfNode cond' true_branch' false_branch' =>
      f cond cond' && f true_branch true_branch' &&
      f false_branch false_branch'
  | TupleGetItemNode tuple index, TupleGetItemNode tuple' index' =>
      f tuple tuple' && bool_decide (index' = index)
  | _, _ => false
  end.

(** [copy_of fuel h x y]: in the heap [h], the expression [y] is [x] with
    some of its Tuple, Function, Call, Let, If and TupleGetItem nodes built
    anew.  The two are the same object, or nodes of the same kind whose
    children are copies in order; Vars, Constants, GlobalVars and Ops are
    copies of themselves only.  [fuel] bounds the depth of the comparison. *)
Fixpoint copy_of (fuel : nat) (h : list Node) (x y : Expr) : bool :=
  match fuel with
  | 0 => false
  | S fuel =>
      match h !! x, h !! y with
      | Some nx, Some ny => same_as x y || copy_node (copy_of fuel h) nx ny
      | _, _ => false
      end
  end.

(** Every expression in the memo cache is bound to a copy of it. *)
Definition memo_copies {U} (s : state U Expr) : Prop :=
  ∀ x y, cache s !! x = Some y → copy_of (S x) (heap s) x y = true.

(** * Properties *)

(** ** Interpretation lemmas *)

Section InterpFacts.
Context {U C R T : Type}.
Variable ve : Expr → state U C → result (state U C) R.
Variable vt : Ty → state U C → result (state U C) T.

Lemma interp_bind {A B} (p : prog U R T A) (f : A → prog U R T B) s :
  interp ve vt (p ≫= f) s
  = result_bind (λ a s', interp ve vt (f a) s') (interp ve vt p s).
Proof.
  unfold mbind, prog_mbind.
  revert s; induction p as [| | e k IH | t k IH | n k IH | k IH | e k IH
                            | k IH | u p IH]; intros s; simpl; try done.
  - destruct (ve e s); simpl; auto.
  - destruct (vt t s); simpl; auto.
  - destruct (heap s !! e); simpl; auto.
Qed.

Lemma interp_ret {A} (a : A) s : interp ve vt (mret a) s = Ok a s.
Proof. done. Qed.

Lemma interp_this_VisitExpr e s : interp ve vt (this_VisitExpr e) s = ve e s.
Proof. simpl. by destruct (ve e s). Qed.

Lemma interp_this_VisitType t s : interp ve vt (this_VisitType t) s = vt t s.
Proof. simpl. by destruct (vt t s). Qed.

Lemma interp_make n s :
  interp ve vt (make n) s = Ok (length (heap s)) (alloc n s).
Proof. done. Qed.

Lemma interp_NewArray {A} (k : nat → prog U R T A) s :
  interp ve vt (NewArray k) s = interp ve vt (k (arrays s)) (alloc_array s).
Proof. done. Qed.

Lemma interp_new_array A s :
  interp ve vt (new_array A) s = Ok (mkArray (arrays s) []) (alloc_array s).
Proof. done. Qed.

(** A relation between states that holds across every primitive step and
    across the calls on [this] holds across every handler program. *)
Section Rel.
Variable Rel : state U C → state U C → Prop.
Hypothesis Rel_refl : ∀ s, Rel s s.
Hypothesis Rel_trans : ∀ s1 s2 s3, Rel s1 s2 → Rel s2 s3 → Rel s1 s3.
Hypothesis Rel_alloc : ∀ n s, Rel s (alloc n s).
Hypothesis Rel_alloc_array : ∀ s, Rel s (alloc_array s).
Hypothesis Rel_set_user : ∀ u s, Rel s (set_user u s).
Hypothesis Rel_ve : ∀ e s r s', ve e s = Ok r s' → Rel s s'.
Hypothesis Rel_vt : ∀ t s r s', vt t s = Ok r s' → Rel s s'.

Lemma interp_rel {A} (p : prog U R T A) s a s' :
  interp ve vt p s = Ok a s' → Rel s s'.
Proof using All.
  revert s; induction p as [| | e k IH | t k IH | n k IH | k IH | e k IH
                            | k IH | u p IH]; intros s; simpl; intros H.
  - by inversion H.
  - done.
  - destruct (ve e s) as [r s1| |] eqn:E; try done. eauto.
  - destruct (vt t s) as [r s1| |] eqn:E; try done. eauto.
  - eauto.
  - eauto.
  - destruct (heap s !! e); try done. eauto.
  - eauto.
  - eauto.
Qed.
End Rel.
End InterpFacts.

Lemma interp_this_Mutate {U C T}
    (ve : Expr → state U C → result (state U C) Expr)
    (vt : Ty → state U C → result (state U C) T) e s :
  interp ve vt (this_Mutate e) s = ve e s.
Proof. simpl. by destruct (ve e s). Qed.

(** ** What every mutator preserves *)

Section MutatorExtends.
Context {U : Type}.
Implicit Types s : state U Expr.

Lemma extends_refl s : extends s s.
Proof.
  repeat split; try done. exists []. split; [by rewrite app_nil_r|].
  intros x Hx. by apply elem_of_nil in Hx.
Qed.

Lemma extends_trans s1 s2 s3 : extends s1 s2 → extends s2 s3 → extends s1 s3.
Proof.
  intros (Hh & Ha & Hc & l & Hl & Hn) (Hh' & Ha' & Hc' & l' & Hl' & Hn').
  repeat split.
  - by etrans.
  - lia.
  - by etrans.
  - exists (l ++ l'). split; [by rewrite Hl', Hl, app_assoc|].
    intros x [Hx|Hx]%elem_of_app; [by apply Hn|].
    eapply lookup_weaken_None; [by apply Hn'|done].
Qed.

Lemma extends_alloc n s : extends s (alloc n s).
Proof.
  repeat split; simpl; try done.
  - by apply prefix_app_r.
  - exists []. split; [by rewrite app_nil_r|]. by intros x ?%elem_of_nil.
Qed.

Lemma extends_alloc_array s : extends s (alloc_array s).
Proof.
  repeat split; simpl; try done; [lia|].
  exists []. split; [by rewrite app_nil_r|]. by intros x ?%elem_of_nil.
Qed.

Lemma extends_set_user u s : extends s (set_user u s).
Proof.
  repeat split; simpl; try done.
  exists []. split; [by rewrite app_nil_r|]. by intros x ?%elem_of_nil.
Qed.

Lemma extends_store e r s s1 :
  cache s !! e = None → extends (enter e s) s1 →
  extends s (set_cache (<[e := r]> (cache s1)) s1).
Proof.
  intros He (Hh & Ha & Hc & l & Hl & Hn); simpl in *.
  repeat split; simpl; try done.
  - by apply insert_subseteq_r.
  - exists (e :: l). split; [by rewrite Hl, <- app_assoc|].
    intros x [->|Hx]%elem_of_cons; auto.
Qed.

(** Every run of [VisitExpr], of the type hook and of a handler program,
    of any mutator, extends the state. *)
Lemma VisitExpr_extends (this : ExprFunctor U Expr Ty) fuel :
  (∀ e s r s', ExprMutator.VisitExpr this fuel e s = Ok r s' → extends s s') ∧
  (∀ t s r s', ExprMutator.call_VisitType this fuel t s = Ok r s' →
               extends s s').
Proof.
  induction fuel as [|fuel [IHe IHt]]; [done|].
  assert (Hp : ∀ A (p : prog U Expr Ty A) s a s',
    interp (ExprMutator.VisitExpr this fuel)
           (ExprMutator.call_VisitType this fuel) p s = Ok a s' →
    extends s s').
  { intros A p s a s'.
    apply interp_rel; eauto using extends_refl, extends_trans,
      extends_alloc, extends_alloc_array, extends_set_user. }
  split.
  - intros e s r s'; simpl.
    destruct (cache s !! e) as [it|] eqn:Hc.
    + intros [= <- <-]. apply extends_refl.
    + case_match eqn:Hi; try done.
      intros [= <- <-]. apply extends_store; [done|].
      exact (Hp _ (ExprFunctor_VisitExpr this e) _ _ _ Hi).
  - intros t s r s'; simpl. apply Hp.
Qed.

End MutatorExtends.

(** ** Identity tests *)

Lemma same_as_spec (a b : Expr) : same_as a b = bool_decide (a = b).
Proof.
  unfold same_as. destruct (Nat.eqb_spec a b).
  - by rewrite bool_decide_eq_true_2.
  - by rewrite bool_decide_eq_false_2.
Qed.

Lemma same_as_sym (a b : Expr) : same_as a b = same_as b a.
Proof. apply Nat.eqb_sym. Qed.

Lemma ty_same_as_sym (a b : Ty) : ty_same_as a b = ty_same_as b a.
Proof. unfold ty_same_as. apply bool_decide_ext. naive_solver. Qed.

Lemma bool_decide_cons {A} `{EqDecision A} (x y : A) (l k : list A) :
  bool_decide (x :: l = y :: k) = bool_decide (x = y) && bool_decide (l = k).
Proof.
  destruct (decide (x = y)) as [->|Hxy], (decide (l = k)) as [->|Hlk].
  - by rewrite !bool_decide_eq_true_2.
  - rewrite bool_decide_eq_false_2 by congruence.
    by rewrite (bool_decide_eq_false_2 (l = k)), andb_false_r.
  - rewrite bool_decide_eq_false_2 by congruence.
    by rewrite (bool_decide_eq_false_2 (x = y)).
  - rewrite bool_decide_eq_false_2 by congruence.
    by rewrite (bool_decide_eq_false_2 (x = y)).
Qed.

(** ** The loops of the mutator's handlers *)

Section MutatorLoops.
Context {U : Type}.
Variable ve : Expr → state U Expr → result (state U Expr) Expr.
Variable vt : Ty → state U Expr → result (state U Expr) Ty.

(** The loop over the fields rewrites them in order, pushes the results on
    the array and clears the flag when some result is another object. *)
Lemma interp_mutate_each l fields unchanged s :
  interp ve vt (ExprMutator.mutate_each l fields unchanged) s
  = result_bind (λ news s1,
      Ok (mkArray (node_ fields) (elems fields ++ news),
          unchanged && bool_decide (news = l)) s1)
      (visit_list ve l s).
Proof.
  revert fields unchanged s.
  induction l as [|x l IH]; intros fields unchanged s; simpl.
  - destruct fields as [i xs]; simpl.
    by rewrite app_nil_r, andb_true_r.
  - destruct (ve x s) as [r s1| |]; simpl; try done.
    rewrite IH. simpl.
    destruct (visit_list ve l s1) as [rs s2| |]; simpl; try done.
    rewrite <- app_assoc. simpl.
    by rewrite bool_decide_cons, same_as_spec, andb_assoc.
Qed.

Lemma interp_mutate_ty_args l ty_args unchanged s :
  interp ve vt (ExprMutator.mutate_ty_args l ty_args unchanged) s
  = result_bind (λ news s1,
      Ok (mkArray (node_ ty_args) (elems ty_args ++ news),
          unchanged && bool_decide (news = l)) s1)
      (visit_list vt l s).
Proof.
  revert ty_args unchanged s.
  induction l as [|x l IH]; intros ty_args unchanged s; simpl.
  - destruct ty_args as [i xs]; simpl.
    by rewrite app_nil_r, andb_true_r.
  - destruct (vt x s) as [r s1| |]; simpl; try done.
    rewrite IH. simpl.
    destruct (visit_list vt l s1) as [rs s2| |]; simpl; try done.
    rewrite <- app_assoc. simpl.
    by rewrite bool_decide_cons, andb_assoc.
Qed.
End MutatorLoops.

Lemma result_bind_Ok {S A B} (f : A → S → result S B) x b s' :
  result_bind f x = Ok b s' → ∃ a s1, x = Ok a s1 ∧ f a s1 = Ok b s'.
Proof. destruct x as [a s1| |]; simpl; try done. eauto. Qed.

Lemma lookup_alloc_new {U C} (n : Node) (s : state U C) :
  heap (alloc n s) !! length (heap s) = Some n.
Proof. simpl. by rewrite lookup_app_r, Nat.sub_diag. Qed.

(** ** Downcasts *)

Section Downcast.
Context {U : Type}.
Variable is_TypeVar : nat → bool.
Variable ve : Expr → state U Expr → result (state U Expr) Expr.
Variable vt : Ty → state U Expr → result (state U Expr) Ty.
Implicit Types s : state U Expr.

Lemma interp_Downcast_Var e s :
  interp ve vt (ExprMutator.Downcast_Var e) s
  = match heap s !! e with
    | Some n => if is_VarNode n then Ok e s else Fault Fatal
    | None => Fault NullDeref
    end.
Proof.
  unfold ExprMutator.Downcast_Var. simpl.
  destruct (heap s !! e) as [n|]; [|done]. by destruct (is_VarNode n).
Qed.

Lemma Downcast_Var_Ok e s r s' :
  interp ve vt (ExprMutator.Downcast_Var e) s = Ok r s' →
  r = e ∧ s' = s ∧ ∃ n, heap s !! e = Some n ∧ is_VarNode n = true.
Proof.
  rewrite interp_Downcast_Var.
  destruct (heap s !! e) as [n|]; [|done].
  destruct (is_VarNode n) eqn:Hn; [|done]. intros [= <- <-]. eauto.
Qed.

Lemma interp_mutate_var {A} x (k : Expr → prog U Expr Ty A) s :
  interp ve vt
    (e ← this_Mutate x; new_param ← ExprMutator.Downcast_Var e; k new_param) s
  = result_bind (λ p s1, interp ve vt (k p) s1) (mutate_var ve x s).
Proof.
  rewrite interp_bind, interp_this_Mutate. unfold mutate_var.
  destruct (ve x s) as [e s1| |]; cbn [result_bind]; try done.
  rewrite interp_bind, interp_Downcast_Var.
  destruct (heap s1 !! e) as [n|]; [|done]. by destruct (is_VarNode n).
Qed.

Lemma interp_visit_type_var {A} x (k : Ty → prog U Expr Ty A) s :
  interp ve vt
    (t ← this_VisitType x;
     new_ty_param ← ExprMutator.Downcast_TypeVar is_TypeVar t;
     k new_ty_param) s
  = result_bind (λ p s1, interp ve vt (k p) s1)
      (visit_type_var is_TypeVar vt x s).
Proof.
  rewrite interp_bind, interp_this_VisitType. unfold visit_type_var.
  destruct (vt x s) as [t s1| |]; cbn [result_bind]; try done.
  rewrite interp_bind. destruct t as [i|]; [|done]. simpl.
  by destruct (is_TypeVar i).
Qed.
End Downcast.

(** ** The default handlers as rewrites of the children *)

Section HandlerEquations.
Context {U : Type}.
Variable ve : Expr → state U Expr → result (state U Expr) Expr.
Variable vt : Ty → state U Expr → result (state U Expr) Ty.
Implicit Types s : state U Expr.

Lemma interp_share_or_build op (unchanged : bool) n' s :
  interp ve vt (if unchanged then mret op else make n') s
  = share_or_build op unchanged n' s.
Proof. by destruct unchanged. Qed.

Lemma Tuple_rewrite op fields s :
  interp ve vt (ExprMutator.VisitExpr_Tuple op fields) s
  = result_bind (λ new_fields s1,
      share_or_build op (bool_decide (new_fields = elems fields))
        (TupleNode (mkArray (arrays s) new_fields)) s1)
      (visit_list ve (elems fields) (alloc_array s)).
Proof.
  unfold ExprMutator.VisitExpr_Tuple.
  rewrite interp_bind, interp_new_array. cbn [result_bind].
  rewrite interp_bind, interp_mutate_each.
  destruct (visit_list ve _ _) as [news s1| |]; cbn [result_bind]; try done.
  cbv beta iota zeta. by rewrite interp_share_or_build.
Qed.

Lemma Call_rewrite call_node op args attrs type_args s :
  interp ve vt
    (ExprMutator.VisitExpr_Call call_node op args attrs type_args) s
  = result_bind (λ new_op s1,
      result_bind (λ new_tys s2,
        result_bind (λ new_args s3,
          share_or_build call_node
            (same_as op new_op && bool_decide (new_tys = elems type_args) &&
             bool_decide (new_args = elems args))
            (CallNode new_op (mkArray (arrays s2) new_args) attrs
               (mkArray (arrays s1) new_tys)) s3)
          (visit_list ve (elems args) (alloc_array s2)))
        (visit_list vt (elems type_args) (alloc_array s1)))
      (ve op s).
Proof.
  unfold ExprMutator.VisitExpr_Call.
  rewrite interp_bind, interp_this_Mutate.
  destruct (ve op s) as [new_op s1| |]; cbn [result_bind]; try done.
  rewrite interp_bind, interp_new_array. cbn [result_bind].
  rewrite interp_bind, interp_mutate_ty_args.
  destruct (visit_list vt _ _) as [tys s2| |]; cbn [result_bind]; try done.
  cbv beta iota zeta.
  rewrite interp_bind, interp_new_array. cbn [result_bind].
  rewrite interp_bind, interp_mutate_each.
  destruct (visit_list ve _ _) as [news s3| |]; cbn [result_bind]; try done.
  cbv beta iota zeta. by rewrite interp_share_or_build.
Qed.

Lemma Let_rewrite op op_var op_value op_body s :
  interp ve vt (ExprMutator.VisitExpr_Let op op_var op_value op_body) s
  = result_bind (λ var s1,
      result_bind (λ value s2,
        result_bind (λ body s3,
          share_or_build op
            (same_as var op_var && same_as value op_value &&
             same_as body op_body)
            (LetNode var value body) s3)
          (ve op_body s2))
        (ve op_value s1))
      (mutate_var ve op_var s).
Proof.
  unfold ExprMutator.VisitExpr_Let. rewrite interp_mutate_var.
  destruct (mutate_var ve op_var s) as [var s1| |]; cbn [result_bind];
    try done.
  rewrite interp_bind, interp_this_Mutate.
  destruct (ve op_value s1) as [value s2| |]; cbn [result_bind]; try done.
  rewrite interp_bind, interp_this_Mutate.
  destruct (ve op_body s2) as [body s3| |]; cbn [result_bind]; try done.
  by rewrite interp_share_or_build.
Qed.

Lemma If_rewrite op cond true_branch false_branch s :
  interp ve vt (ExprMutator.VisitExpr_If op cond true_branch false_branch) s
  = result_bind (λ guard s1,
      result_bind (λ true_b s2,
        result_bind (λ false_b s3,
          share_or_build op
            (same_as cond guard && same_as true_branch true_b &&
             same_as false_branch false_b)
            (IfNode guard true_b false_b) s3)
          (ve false_branch s2))
        (ve true_branch s1))
      (ve cond s).
Proof.
  unfold ExprMutator.VisitExpr_If.
  rewrite interp_bind, interp_this_Mutate.
  destruct (ve cond s) as [guard s1| |]; cbn [result_bind]; try done.
  rewrite interp_bind, interp_this_Mutate.
  destruct (ve true_branch s1) as [true_b s2| |]; cbn [result_bind]; try done.
  rewrite interp_bind, interp_this_Mutate.
  destruct (ve false_branch s2) as [false_b s3| |]; cbn [result_bind];
    try done.
  by rewrite interp_share_or_build.
Qed.

Lemma TupleGetItem_rewrite g tuple index s :
  interp ve vt (ExprMutator.VisitExpr_TupleGetItem g tuple index) s
  = result_bind (λ t s1,
      share_or_build g (same_as tuple t) (TupleGetItemNode t index) s1)
      (ve tuple s).
Proof.
  unfold ExprMutator.VisitExpr_TupleGetItem.
  rewrite interp_bind, interp_this_Mutate.
  destruct (ve tuple s) as [t s1| |]; cbn [result_bind]; try done.
  by rewrite interp_share_or_build.
Qed.

Lemma share_or_build_returns op unchanged n' s :
  ∃ r s', share_or_build op unchanged n' s = Ok r s'.
Proof. destruct unchanged; simpl; eauto. Qed.

(** Each handler returns as soon as the rewrites of the children do. *)
Lemma Tuple_returns op fields s new_fields s1 :
  visit_list ve (elems fields) (alloc_array s) = Ok new_fields s1 →
  ∃ r s', interp ve vt (ExprMutator.VisitExpr_Tuple op fields) s = Ok r s'.
Proof.
  intros H. rewrite Tuple_rewrite, H. apply share_or_build_returns.
Qed.

Lemma Call_returns call_node op args attrs type_args s
    new_op new_tys new_args s1 s2 s3 :
  ve op s = Ok new_op s1 →
  visit_list vt (elems type_args) (alloc_array s1) = Ok new_tys s2 →
  visit_list ve (elems args) (alloc_array s2) = Ok new_args s3 →
  ∃ r s',
    interp ve vt
      (ExprMutator.VisitExpr_Call call_node op args attrs type_args) s
    = Ok r s'.
Proof.
  intros H1 H2 H3. rewrite Call_rewrite, H1. cbn [result_bind].
  rewrite H2. cbn [result_bind]. rewrite H3. apply share_or_build_returns.
Qed.

Lemma Let_returns op op_var op_value op_body s var value body nv s1 s2 s3 :
  ve op_var s = Ok var s1 →
  heap s1 !! var = Some nv → is_VarNode nv = true →
  ve op_value s1 = Ok value s2 →
  ve op_body s2 = Ok body s3 →
  ∃ r s',
    interp ve vt (ExprMutator.VisitExpr_Let op op_var op_value op_body) s
    = Ok r s'.
Proof.
  intros H1 Hnv Hv H2 H3. rewrite Let_rewrite. unfold mutate_var.
  rewrite H1. cbn [result_bind]. rewrite Hnv, Hv. cbn [result_bind].
  rewrite H2. cbn [result_bind]. rewrite H3. apply share_or_build_returns.
Qed.

Lemma If_returns op cond true_branch false_branch s
    guard true_b false_b s1 s2 s3 :
  ve cond s = Ok guard s1 →
  ve true_branch s1 = Ok true_b s2 →
  ve false_branch s2 = Ok false_b s3 →
  ∃ r s',
    interp ve vt (ExprMutator.VisitExpr_If op cond true_branch false_branch) s
    = Ok r s'.
Proof.
  intros H1 H2 H3. rewrite If_rewrite, H1. cbn [result_bind].
  rewrite H2. cbn [result_bind]. rewrite H3. apply share_or_build_returns.
Qed.

Lemma TupleGetItem_returns g tuple index s t s1 :
  ve tuple s = Ok t s1 →
  ∃ r s',
    interp ve vt (ExprMutator.VisitExpr_TupleGetItem g tuple index) s
    = Ok r s'.
Proof.
  intros H. rewrite TupleGetItem_rewrite, H. apply share_or_build_returns.
Qed.
End HandlerEquations.

(** ** The structural-sharing rule, kind by kind *)

Section Sharing.
Context {U : Type}.
Variable this : ExprFunctor U Expr Ty.
Variable fuel : nat.
Local Abbreviation ve := (ExprMutator.VisitExpr this fuel).
Local Abbreviation vt := (ExprMutator.call_VisitType this fuel).
Implicit Types s : state U Expr.

Lemma extends_length s s' : extends s s' → length (heap s) ≤ length (heap s').
Proof. intros [Hp _]. by apply prefix_length. Qed.

Lemma visit_list_ve_extends l s news s' :
  visit_list ve l s = Ok news s' → extends s s'.
Proof.
  revert s news; induction l as [|x l IH]; intros s news; simpl.
  - intros [= <- <-]. apply extends_refl.
  - intros (r & s1 & Hx & H)%result_bind_Ok.
    apply result_bind_Ok in H as (rs & s2 & Hl & [= <- <-]).
    eapply extends_trans; [|by eapply IH].
    by eapply (proj1 (VisitExpr_extends this fuel)).
Qed.

Lemma visit_list_vt_extends l s news s' :
  visit_list vt l s = Ok news s' → extends s s'.
Proof.
  revert s news; induction l as [|x l IH]; intros s news; simpl.
  - intros [= <- <-]. apply extends_refl.
  - intros (r & s1 & Hx & H)%result_bind_Ok.
    apply result_bind_Ok in H as (rs & s2 & Hl & [= <- <-]).
    eapply extends_trans; [|by eapply IH].
    by eapply (proj2 (VisitExpr_extends this fuel)).
Qed.

(** The last step of every handler: return [op], or build the new node. *)
Lemma sharing_step op (unchanged : bool) n' (P : Prop) rebuilt s1 r s' :
  op < length (heap s1) →
  (unchanged = true ↔ P) →
  rebuilt n' →
  interp ve vt (if unchanged then mret op else make n') s1 = Ok r s' →
  structural_sharing op r P rebuilt s1 s'.
Proof.
  intros Hop HP Hn'. destruct unchanged; simpl; intros [= <- <-].
  - assert (HP' : P) by (by apply HP). by split_and!.
  - assert (HP' : ¬ P) by (intros HP'; by apply HP in HP').
    split_and!; try done.
    + split; [lia|done].
    + intros _. exists n'. split_and!; try done.
      * by apply lookup_ge_None_2.
      * apply lookup_alloc_new.
Qed.

Lemma Tuple_sharing op fields s r s' :
  op < length (heap s) →
  interp ve vt (ExprMutator.VisitExpr_Tuple op fields) s = Ok r s' →
  ∃ new_fields s1,
    visit_list ve (elems fields) (alloc_array s) = Ok new_fields s1 ∧
    structural_sharing op r (new_fields = elems fields)
      (λ n', ∃ a, n' = TupleNode (mkArray a new_fields)) s1 s'.
Proof.
  intros Hop. unfold ExprMutator.VisitExpr_Tuple.
  rewrite interp_bind, interp_new_array. simpl result_bind.
  rewrite interp_bind, interp_mutate_each.
  intros (x & s1 & (news & s1' & Hl & [= <- <-])%result_bind_Ok & H)%result_bind_Ok.
  simpl in H. exists news, s1'. split; [done|].
  eapply sharing_step; [| |eexists; done|exact H].
  - apply visit_list_ve_extends, extends_length in Hl. simpl in Hl. lia.
  - by rewrite bool_decide_eq_true.
Qed.

Lemma Call_sharing call_node op args attrs type_args s r s' :
  call_node < length (heap s) →
  interp ve vt
    (ExprMutator.VisitExpr_Call call_node op args attrs type_args) s
  = Ok r s' →
  ∃ new_op new_tys new_args s1 s2 s3,
    ve op s = Ok new_op s1 ∧
    visit_list vt (elems type_args) (alloc_array s1) = Ok new_tys s2 ∧
    visit_list ve (elems args) (alloc_array s2) = Ok new_args s3 ∧
    structural_sharing call_node r
      (new_op = op ∧ new_tys = elems type_args ∧ new_args = elems args)
      (λ n', ∃ a b, n' = CallNode new_op (mkArray a new_args) attrs
                                 (mkArray b new_tys)) s3 s'.
Proof.
  intros Hop. unfold ExprMutator.VisitExpr_Call.
  rewrite interp_bind, interp_this_Mutate.
  intros (new_op & s1 & Hve & H)%result_bind_Ok.
  rewrite interp_bind, interp_new_array in H. simpl result_bind in H.
  rewrite interp_bind, interp_mutate_ty_args in H.
  apply result_bind_Ok in H
    as (x & s2 & (tys & s2' & Htys & [= <- <-])%result_bind_Ok & H).
  cbv beta iota zeta in H.
  rewrite interp_NewArray, interp_bind, interp_mutate_each in H.
  apply result_bind_Ok in H
    as (x & s3 & (news & s3' & Hargs & [= <- <-])%result_bind_Ok & H).
  cbv beta iota zeta in H.
  exists new_op, tys, news, s1, s2', s3'. split_and!; try done.
  eapply sharing_step; [| |by eexists _, _|exact H].
  - apply (proj1 (VisitExpr_extends this fuel)), extends_length in Hve.
    apply visit_list_vt_extends, extends_length in Htys.
    apply visit_list_ve_extends, extends_length in Hargs.
    simpl in *. lia.
  - rewrite !andb_true_iff, same_as_spec, !bool_decide_eq_true.
    intuition congruence.
Qed.

Lemma Let_sharing op op_var op_value op_body s r s' :
  op < length (heap s) →
  interp ve vt (ExprMutator.VisitExpr_Let op op_var op_value op_body) s
  = Ok r s' →
  ∃ var value body s1 s2 s3,
    ve op_var s = Ok var s1 ∧
    (∃ n, heap s1 !! var = Some n ∧ is_VarNode n = true) ∧
    ve op_value s1 = Ok value s2 ∧
    ve op_body s2 = Ok body s3 ∧
    structural_sharing op r
      (var = op_var ∧ value = op_value ∧ body = op_body)
      (λ n', n' = LetNode var value body) s3 s'.
Proof.
  intros Hop. unfold ExprMutator.VisitExpr_Let.
  rewrite interp_bind, interp_this_Mutate.
  intros (e & s1 & Hvar & H)%result_bind_Ok.
  rewrite interp_bind in H.
  apply result_bind_Ok in H as (var & s1' & (-> & -> & Hn)%Downcast_Var_Ok & H).
  rewrite interp_bind, interp_this_Mutate in H.
  apply result_bind_Ok in H as (value & s2 & Hvalue & H).
  rewrite interp_bind, interp_this_Mutate in H.
  apply result_bind_Ok in H as (body & s3 & Hbody & H).
  exists e, value, body, s1, s2, s3. split_and!; try done.
  eapply sharing_step; [| |done|exact H].
  - apply (proj1 (VisitExpr_extends this fuel)), extends_length in Hvar.
    apply (proj1 (VisitExpr_extends this fuel)), extends_length in Hvalue.
    apply (proj1 (VisitExpr_extends this fuel)), extends_length in Hbody.
    lia.
  - rewrite !andb_true_iff, !same_as_spec, !bool_decide_eq_true.
    intuition congruence.
Qed.

Lemma If_sharing op cond true_branch false_branch s r s' :
  op < length (heap s) →
  interp ve vt (ExprMutator.VisitExpr_If op cond true_branch false_branch) s
  = Ok r s' →
  ∃ guard true_b false_b s1 s2 s3,
    ve cond s = Ok guard s1 ∧
    ve true_branch s1 = Ok true_b s2 ∧
    ve false_branch s2 = Ok false_b s3 ∧
    structural_sharing op r
      (guard = cond ∧ true_b = true_branch ∧ false_b = false_branch)
      (λ n', n' = IfNode guard true_b false_b) s3 s'.
Proof.
  intros Hop. unfold ExprMutator.VisitExpr_If.
  rewrite interp_bind, interp_this_Mutate.
  intros (guard & s1 & Hc & H)%result_bind_Ok.
  rewrite interp_bind, interp_this_Mutate in H.
  apply result_bind_Ok in H as (true_b & s2 & Htb & H).
  rewrite interp_bind, interp_this_Mutate in H.
  apply result_bind_Ok in H as (false_b & s3 & Hfb & H).
  exists guard, true_b, false_b, s1, s2, s3. split_and!; try done.
  eapply sharing_step; [| |done|exact H].
  - apply (proj1 (VisitExpr_extends this fuel)), extends_length in Hc.
    apply (proj1 (VisitExpr_extends this fuel)), extends_length in Htb.
    apply (proj1 (VisitExpr_extends this fuel)), extends_length in Hfb.
    lia.
  - rewrite !andb_true_iff, !same_as_spec, !bool_decide_eq_true.
    intuition congruence.
Qed.

Lemma TupleGetItem_sharing g tuple index s r s' :
  g < length (heap s) →
  interp ve vt (ExprMutator.VisitExpr_TupleGetItem g tuple index) s
  = Ok r s' →
  ∃ t s1,
    ve tuple s = Ok t s1 ∧
    structural_sharing g r (t = tuple)
      (λ n', n' = TupleGetItemNode t index) s1 s'.
Proof.
  intros Hop. unfold ExprMutator.VisitExpr_TupleGetItem.
  rewrite interp_bind, interp_this_Mutate.
  intros (t & s1 & Ht & H)%result_bind_Ok.
  exists t, s1. split; [done|].
  eapply sharing_step; [| |done|exact H].
  - apply (proj1 (VisitExpr_extends this fuel)), extends_length in Ht. lia.
  - rewrite same_as_spec, bool_decide_eq_true. intuition congruence.
Qed.
End Sharing.

(** ** [VisitExpr], unfolded once *)

Section MutatorUnfold.
Context {U : Type}.
Variable this : ExprFunctor U Expr Ty.
Implicit Types s : state U Expr.

Lemma Mutator_VisitExpr_hit fuel e s r :
  cache s !! e = Some r → ExprMutator.VisitExpr this (S fuel) e s = Ok r s.
Proof. intros H. simpl. by rewrite H. Qed.

Lemma Mutator_VisitExpr_miss fuel e s n :
  cache s !! e = None → heap s !! e = Some n →
  ExprMutator.VisitExpr this (S fuel) e s
  = result_bind (λ r s', Ok r (set_cache (<[e := r]> (cache s')) s'))
      (interp (ExprMutator.VisitExpr this fuel)
              (ExprMutator.call_VisitType this fuel)
              (ExprFunctor_dispatch this e n) (enter e s)).
Proof.
  intros Hc Hn. simpl. rewrite Hc, Hn.
  by destruct (interp _ _ (ExprFunctor_dispatch this e n) _).
Qed.

Lemma Mutator_call_VisitType_S fuel t s :
  ExprMutator.call_VisitType this (S fuel) t s
  = interp (ExprMutator.VisitExpr this fuel)
           (ExprMutator.call_VisitType this fuel) (visit_type this t) s.
Proof. done. Qed.
End MutatorUnfold.

(** ** The default handlers of the mutator *)

Section DefaultHandlers.
Context {U : Type}.
Variable is_TypeVar : nat → bool.
Variable this : ExprFunctor U Expr Ty.
Variable fuel : nat.
Local Abbreviation ve := (ExprMutator.VisitExpr this fuel).
Local Abbreviation vt := (ExprMutator.call_VisitType this fuel).
Local Abbreviation base := (ExprMutator.base (U:=U) is_TypeVar).

(** C3. For every Tuple, Call, Let, If and TupleGetItem node [n] at [op], the
    default handler of the mutator, run inside any mutator [this], returns
    whenever the rewrites of the children do (in a Let, to a Var for the bound
    var); and when it returns, it has rewritten the children in order and
    followed the structural-sharing rule: it returns [op] itself if and only
    if every rewritten child (for a Call also the callee and every rewritten
    type argument) is the original one, and otherwise returns a newly built
    node of the same kind that carries the rewritten children (and the
    original attributes or index). *)
Theorem default_rewrite_shares_structure (op : Expr) (n : Node)
    (s : state U Expr) :
  heap s !! op = Some n →
  match n with
  | TupleNode fields =>
      (∀ new_fields s1,
         visit_list ve (elems fields) (alloc_array s) = Ok new_fields s1 →
         ∃ r s', interp ve vt (ExprFunctor_dispatch base op n) s = Ok r s') ∧
      (∀ r s',
         interp ve vt (ExprFunctor_dispatch base op n) s = Ok r s' →
         ∃ new_fields s1,
           visit_list ve (elems fields) (alloc_array s) = Ok new_fields s1 ∧
           structural_sharing op r (new_fields = elems fields)
             (λ n', ∃ a, n' = TupleNode (mkArray a new_fields)) s1 s')
  | CallNode callee args attrs type_args =>
      (∀ new_op new_tys new_args s1 s2 s3,
         ve callee s = Ok new_op s1 →
         visit_list vt (elems type_args) (alloc_array s1) = Ok new_tys s2 →
         visit_list ve (elems args) (alloc_array s2) = Ok new_args s3 →
         ∃ r s', interp ve vt (ExprFunctor_dispatch base op n) s = Ok r s') ∧
      (∀ r s',
         interp ve vt (ExprFunctor_dispatch base op n) s = Ok r s' →
         ∃ new_op new_tys new_args s1 s2 s3,
           ve callee s = Ok new_op s1 ∧
           visit_list vt (elems type_args) (alloc_array s1) = Ok new_tys s2 ∧
           visit_list ve (elems args) (alloc_array s2) = Ok new_args s3 ∧
           structural_sharing op r
             (new_op = callee ∧ new_tys = elems type_args ∧
              new_args = elems args)
             (λ n', ∃ a b, n' = CallNode new_op (mkArray a new_args) attrs
                                        (mkArray b new_tys)) s3 s')
  | LetNode op_var op_value op_body =>
      (∀ var value body nv s1 s2 s3,
         ve op_var s = Ok var s1 →
         heap s1 !! var = Some nv → is_VarNode nv = true →
         ve op_value s1 = Ok value s2 →
         ve op_body s2 = Ok body s3 →
         ∃ r s', interp ve vt (ExprFunctor_dispatch base op n) s = Ok r s') ∧
      (∀ r s',
         interp ve vt (ExprFunctor_dispatch base op n) s = Ok r s' →
         ∃ var value body s1 s2 s3,
           ve op_var s = Ok var s1 ∧
           (∃ nv, heap s1 !! var = Some nv ∧ is_VarNode nv = true) ∧
           ve op_value s1 = Ok value s2 ∧
           ve op_body s2 = Ok body s3 ∧
           structural_sharing op r
             (var = op_var ∧ value = op_value ∧ body = op_body)
             (λ n', n' = LetNode var value body) s3 s')
  | IfNode cond true_branch false_branch =>
      (∀ guard true_b false_b s1 s2 s3,
         ve cond s = Ok guard s1 →
         ve true_branch s1 = Ok true_b s2 →
         ve false_branch s2 = Ok false_b s3 →
         ∃ r s', interp ve vt (ExprFunctor_dispatch base op n) s = Ok r s') ∧
      (∀ r s',
         interp ve vt (ExprFunctor_dispatch base op n) s = Ok r s' →
         ∃ guard true_b false_b s1 s2 s3,
           ve cond s = Ok guard s1 ∧
           ve true_branch s1 = Ok true_b s2 ∧
           ve false_branch s2 = Ok false_b s3 ∧
           structural_sharing op r
             (guard = cond ∧ true_b = true_branch ∧ false_b = false_branch)
             (λ n', n' = IfNode guard true_b false_b) s3 s')
  | TupleGetItemNode tuple index =>
      (∀ t s1,
         ve tuple s = Ok t s1 →
         ∃ r s', interp ve vt (ExprFunctor_dispatch base op n) s = Ok r s') ∧
      (∀ r s',
         interp ve vt (ExprFunctor_dispatch base op n) s = Ok r s' →
         ∃ t s1,
           ve tuple s = Ok t s1 ∧
           structural_sharing op r (t = tuple)
             (λ n', n' = TupleGetItemNode t index) s1 s')
  | _ => True
  end.
Proof.
  intros Hop.
  assert (op < length (heap s)) by (by eapply lookup_lt_Some).
  destruct n; try done; cbn [ExprFunctor_dispatch]; split.
  - intros. by eapply Tuple_returns.
  - intros. by eapply Tuple_sharing.
  - intros. by eapply Call_returns.
  - intros. by eapply Call_sharing.
  - intros. by eapply Let_returns.
  - intros. by eapply Let_sharing.
  - intros. by eapply If_returns.
  - intros. by eapply If_sharing.
  - intros. by eapply TupleGetItem_returns.
  - intros. by eapply TupleGetItem_sharing.
Qed.

End DefaultHandlers.

(** The spec's targeted rebuild: rewriting [Constant(1)] to [Constant(42)]
    under [lt = Let(x, Constant(1), Tuple([x, Constant(2)]))], the default Let
    handler rewrites var, value and body and follows the sharing rule. *)
Lemma default_rewrite_shares_structure_witness :
  heap Examples.let_state !! Examples.let_root = Some (LetNode 0 1 3) ∧
  ∃ r s',
    interp (ExprMutator.VisitExpr Examples.constant_rewriter 5)
      (ExprMutator.call_VisitType Examples.constant_rewriter 5)
      (ExprFunctor_dispatch (ExprMutator.base Examples.all_TypeVar)
         Examples.let_root (LetNode 0 1 3)) Examples.let_state = Ok r s' ∧
    ∃ var value body s1 s2 s3,
      ExprMutator.VisitExpr Examples.constant_rewriter 5 0 Examples.let_state
      = Ok var s1 ∧
      (∃ nv, heap s1 !! var = Some nv ∧ is_VarNode nv = true) ∧
      ExprMutator.VisitExpr Examples.constant_rewriter 5 1 s1 = Ok value s2 ∧
      ExprMutator.VisitExpr Examples.constant_rewriter 5 3 s2 = Ok body s3 ∧
      structural_sharing Examples.let_root r
        (var = 0 ∧ value = 1 ∧ body = 3)
        (λ n', n' = LetNode var value body) s3 s'.
Proof.
  split; [reflexivity|].
  destruct (@default_rewrite_shares_structure unit Examples.all_TypeVar
              Examples.constant_rewriter 5
              Examples.let_root (LetNode 0 1 3) Examples.let_state eq_refl)
    as [Hreturns Hshares].
  destruct (Hreturns 0 5 3 (VarNode "x" None) _ _ _
              ltac:(vm_compute; reflexivity) eq_refl eq_refl
              ltac:(vm_compute; reflexivity) ltac:(vm_compute; reflexivity))
    as (r & s' & Hr).
  exists r, s'. split; [exact Hr|]. by apply Hshares.
Defined.

Section TerminalsAndVars.
Context {U : Type}.
Variable is_TypeVar : nat → bool.
Implicit Types s : state U Expr.

(** C8. For a Constant, GlobalVar or Op node [n] at [op], the default handler
    returns [op] itself and leaves the whole state as it is, whatever
    [VisitExpr] and the type hook of the mutator do ([ve], [vt]); and in a
    pass of the default mutator with any type hook [hook], [VisitExpr] on such
    a node, not cached yet, returns [op] and binds [op] to itself. *)
Theorem terminal_rewrite_is_identity (op : Expr) (n : Node) s :
  is_terminal n = true →
  (∀ ve vt,
     interp ve vt (ExprFunctor_dispatch (ExprMutator.base is_TypeVar) op n) s
     = Ok op s) ∧
  (∀ hook fuel,
     heap s !! op = Some n → cache s !! op = None →
     ExprMutator.VisitExpr
       (override_VisitType hook (ExprMutator.base is_TypeVar)) (S fuel) op s
     = Ok op (set_cache (<[op := op]> (cache s)) (enter op s))).
Proof.
  intros Hn. split.
  - intros ve vt. by destruct n.
  - intros hook fuel Hop Hc.
    rewrite (Mutator_VisitExpr_miss _ _ _ _ Hc Hop). by destruct n.
Qed.

(** C10. The default Var handler on a Var without type annotation returns
    [op] itself with the state as it is, for every type hook [vt]: the hook
    is not called.  On a Var annotated with [t] it calls the hook on [t]
    once; it returns [op] when the hook returns [t] itself, and otherwise a
    new Var with the same name hint and the rewritten annotation. *)
Theorem var_rewrite_calls_hook_only_when_annotated
    (ve : Expr → state U Expr → result (state U Expr) Expr)
    (vt : Ty → state U Expr → result (state U Expr) Ty)
    (op : Expr) (name_hint : string) s :
  interp ve vt (ExprMutator.VisitExpr_Var op name_hint None) s = Ok op s ∧
  ∀ t : nat,
    interp ve vt (ExprMutator.VisitExpr_Var op name_hint (Some t)) s
    = result_bind
        (λ type s1,
           if decide (type = Some t) then Ok op s1
           else Ok (length (heap s1)) (alloc (VarNode name_hint type) s1))
        (vt (Some t) s).
Proof.
  split; [done|]. intros t. unfold ExprMutator.VisitExpr_Var. simpl defined.
  cbv iota. rewrite interp_bind, interp_this_VisitType.
  destruct (vt (Some t) s) as [type s1| |]; simpl result_bind; try done.
  unfold ty_same_as. case_bool_decide; case_decide; simpl; try done;
    congruence.
Qed.
End TerminalsAndVars.

Lemma terminal_rewrite_is_identity_witness :
  is_terminal (ConstantNode 1) = true ∧
  (∀ ve vt,
     interp ve vt
       (ExprFunctor_dispatch (ExprMutator.base Examples.all_TypeVar) 0
          (ConstantNode 1)) Examples.shared_state
     = Ok 0 Examples.shared_state) ∧
  (∀ hook fuel,
     heap Examples.shared_state !! 0 = Some (ConstantNode 1) →
     cache Examples.shared_state !! 0 = None →
     ExprMutator.VisitExpr
       (override_VisitType hook (ExprMutator.base Examples.all_TypeVar))
       (S fuel) 0 Examples.shared_state
     = Ok 0 (set_cache (<[0 := 0]> (cache Examples.shared_state))
               (enter 0 Examples.shared_state))).
Proof.
  split; [reflexivity|].
  apply (@terminal_rewrite_is_identity unit Examples.all_TypeVar 0
           (ConstantNode 1) Examples.shared_state).
  reflexivity.
Defined.

(** ** The order of the children of a Let *)

Section LetOrder.
Context {U : Type}.

Lemma Visitor_Let_sequence
    (ve : Expr → state U nat → result (state U nat) unit)
    (vt : Ty → state U nat → result (state U nat) unit)
    (op var value body : Expr) (s : state U nat) :
  interp ve vt (ExprVisitor.VisitExpr_Let op var value body) s
  = result_bind (λ _ s1,
      result_bind (λ _ s2, ve body s2) (ve var s1)) (ve value s).
Proof.
  unfold ExprVisitor.VisitExpr_Let. simpl.
  destruct (ve value s) as [[] s1| |]; simpl; try done.
  destruct (ve var s1) as [[] s2| |]; simpl; try done.
  by destruct (ve body s2).
Qed.

Lemma Mutator_Let_sequence
    (ve : Expr → state U Expr → result (state U Expr) Expr)
    (vt : Ty → state U Expr → result (state U Expr) Ty)
    (op op_var op_value op_body : Expr) (s : state U Expr) :
  interp ve vt (ExprMutator.VisitExpr_Let op op_var op_value op_body) s
  = result_bind (λ e s1,
      result_bind (λ var s1',
        result_bind (λ value s2,
          result_bind (λ body s3,
            if same_as var op_var && same_as value op_value &&
               same_as body op_body
            then Ok op s3
            else Ok (length (heap s3)) (alloc (LetNode var value body) s3))
            (ve op_body s2))
          (ve op_value s1'))
        (interp ve vt (ExprMutator.Downcast_Var e) s1))
      (ve op_var s).
Proof.
  unfold ExprMutator.VisitExpr_Let.
  rewrite interp_bind, interp_this_Mutate.
  destruct (ve op_var s) as [e s1| |]; cbn [result_bind]; try done.
  rewrite interp_bind.
  destruct (interp ve vt (ExprMutator.Downcast_Var e) s1) as [var s1'| |];
    cbn [result_bind]; try done.
  rewrite interp_bind, interp_this_Mutate.
  destruct (ve op_value s1') as [value s2| |]; cbn [result_bind]; try done.
  rewrite interp_bind, interp_this_Mutate.
  destruct (ve op_body s2) as [body s3| |]; cbn [result_bind]; try done.
  by destruct (same_as var op_var && same_as value op_value &&
               same_as body op_body).
Qed.

(** C6. The default Let handler of the visitor is [VisitExpr] on the value,
    then on the bound var, then on the body; the default Let handler of the
    mutator is [Mutate] on the bound var (which has to remain a Var), then on
    the value, then on the body, and then the sharing decision.  With a
    [VisitExpr] that only records its calls, the visitor's calls are
    [value; var; body] and the mutator's are [var; value; body]. *)
Theorem let_children_order (op var value body : Expr)
    (sv : state U nat) (sm : state U Expr) (nv : Node) :
  heap sm !! var = Some nv →
  is_VarNode nv = true →
  (∀ ve vt,
     interp ve vt (ExprVisitor.VisitExpr_Let op var value body) sv
     = result_bind (λ _ s1,
         result_bind (λ _ s2, ve body s2) (ve var s1)) (ve value sv)) ∧
  (∀ ve vt,
     interp ve vt (ExprMutator.VisitExpr_Let op var value body) sm
     = result_bind (λ e s1,
         result_bind (λ var' s1',
           result_bind (λ value' s2,
             result_bind (λ body' s3,
               if same_as var' var && same_as value' value &&
                  same_as body' body
               then Ok op s3
               else Ok (length (heap s3))
                       (alloc (LetNode var' value' body') s3))
               (ve body s2))
             (ve value s1'))
           (interp ve vt (ExprMutator.Downcast_Var e) s1))
         (ve var sm)) ∧
  (∀ vt,
     interp record_visit vt (ExprVisitor.VisitExpr_Let op var value body) sv
     = Ok tt (set_trace (trace sv ++ [value; var; body]) sv)) ∧
  (∀ vt,
     interp record_mutate vt (ExprMutator.VisitExpr_Let op var value body) sm
     = Ok op (set_trace (trace sm ++ [var; value; body]) sm)).
Proof.
  intros Hnv Hvar. split_and!.
  - intros. apply Visitor_Let_sequence.
  - intros. apply Mutator_Let_sequence.
  - intros vt. rewrite Visitor_Let_sequence. unfold record_visit, enter.
    simpl. unfold set_trace. by rewrite <- !app_assoc.
  - intros vt. rewrite Mutator_Let_sequence. unfold record_mutate.
    simpl result_bind.
    unfold ExprMutator.Downcast_Var. simpl. rewrite Hnv, Hvar. simpl.
    unfold same_as. rewrite !Nat.eqb_refl. simpl.
    unfold set_trace, enter. simpl. by rewrite <- !app_assoc.
Qed.
End LetOrder.

Lemma let_children_order_witness :
  heap Examples.let_state !! 0 = Some (VarNode "x" None) ∧
  is_VarNode (VarNode "x" None) = true ∧
  (∀ vt,
     interp record_visit vt (ExprVisitor.VisitExpr_Let 4 0 1 3)
       (init (U:=unit) Examples.let_heap 1 tt)
     = Ok tt (set_trace [1; 0; 3] (init Examples.let_heap 1 tt))) ∧
  (∀ vt,
     interp record_mutate vt (ExprMutator.VisitExpr_Let 4 0 1 3)
       Examples.let_state
     = Ok 4 (set_trace [0; 1; 3] Examples.let_state)).
Proof.
  split; [reflexivity|]. split; [reflexivity|].
  apply (@let_children_order unit 4 0 1 3
           (init Examples.let_heap 1 tt) Examples.let_state
           (VarNode "x" None) eq_refl eq_refl).
Defined.

(** ** The Function handler *)

Lemma visit_list_app {S A B} (f : A → S → result S B) l1 l2 s :
  visit_list f (l1 ++ l2) s
  = result_bind (λ rs1 s1,
      result_bind (λ rs2 s2, Ok (rs1 ++ rs2) s2) (visit_list f l2 s1))
      (visit_list f l1 s).
Proof.
  revert s; induction l1 as [|x l1 IH]; intros s; simpl.
  - by destruct (visit_list f l2 s).
  - destruct (f x s) as [r s1| |]; simpl; try done.
    rewrite IH. destruct (visit_list f l1 s1) as [rs1 s2| |]; simpl; try done.
    by destruct (visit_list f l2 s2).
Qed.

(** A fault at one element stops the loop with that fault. *)
Lemma visit_list_fault {S A B} (f : A → S → result S B)
    before x after s rs s1 ft :
  visit_list f before s = Ok rs s1 →
  f x s1 = Fault ft →
  visit_list f (before ++ x :: after) s = Fault ft.
Proof. intros H1 H2. rewrite visit_list_app, H1. simpl. by rewrite H2. Qed.

Section FunctionHandler.
Context {U : Type}.
Variable is_TypeVar : nat → bool.
Variable ve : Expr → state U Expr → result (state U Expr) Expr.
Variable vt : Ty → state U Expr → result (state U Expr) Ty.
Implicit Types s : state U Expr.

Lemma interp_mutate_params l params flag s :
  interp ve vt (ExprMutator.mutate_params l params flag) s
  = result_bind (λ news s1,
      Ok (mkArray (node_ params) (elems params ++ news),
          flag && bool_decide (news = l)) s1)
      (visit_list (mutate_var ve) l s).
Proof.
  revert params flag s.
  induction l as [|x l IH]; intros params flag s.
  - destruct params as [i xs]; simpl. by rewrite app_nil_r, andb_true_r.
  - cbn [ExprMutator.mutate_params visit_list]. rewrite interp_mutate_var.
    destruct (mutate_var ve x s) as [e s1| |]; simpl; try done.
    rewrite IH.
    destruct (visit_list (mutate_var ve) l s1) as [rs s2| |]; simpl; try done.
    rewrite <- app_assoc. simpl.
    by rewrite bool_decide_cons, same_as_sym, same_as_spec, andb_assoc.
Qed.

Lemma interp_mutate_ty_params l ty_params flag s :
  interp ve vt (ExprMutator.mutate_ty_params is_TypeVar l ty_params flag) s
  = result_bind (λ news s1,
      Ok (mkArray (node_ ty_params) (elems ty_params ++ news),
          flag && bool_decide (news = l)) s1)
      (visit_list (visit_type_var is_TypeVar vt) l s).
Proof.
  revert ty_params flag s.
  induction l as [|x l IH]; intros ty_params flag s.
  - destruct ty_params as [i xs]; simpl. by rewrite app_nil_r, andb_true_r.
  - cbn [ExprMutator.mutate_ty_params visit_list].
    rewrite interp_visit_type_var.
    destruct (visit_type_var is_TypeVar vt x s) as [t s1| |]; simpl; try done.
    rewrite IH.
    destruct (visit_list (visit_type_var is_TypeVar vt) l s1)
      as [rs s2| |]; simpl; try done.
    rewrite <- app_assoc. simpl.
    by rewrite bool_decide_cons, andb_assoc.
Qed.

(** The Function handler: rewrite the type parameters, the parameters, the
    return type and the body, in this order; then compare the two arrays
    built on the way with the arrays of the node, and the return type and the
    body with the original ones. *)
Lemma Function_rewrite op params body ret_type type_params attrs s :
  interp ve vt
    (ExprMutator.VisitExpr_Function is_TypeVar op params body ret_type
       type_params attrs) s
  = result_bind (λ tys s1,
      result_bind (λ ps s2,
        result_bind (λ rt s3,
          result_bind (λ b s4,
            if Nat.eqb (arrays s) (node_ type_params) &&
               Nat.eqb (arrays s1) (node_ params) &&
               ty_same_as rt ret_type && same_as b body
            then Ok op s4
            else Ok (length (heap s4))
                   (alloc (FunctionNode (mkArray (arrays s1) ps) b rt
                             (mkArray (arrays s) tys) attrs) s4))
            (ve body s3))
          (vt ret_type s2))
        (visit_list (mutate_var ve) (elems params) (alloc_array s1)))
      (visit_list (visit_type_var is_TypeVar vt) (elems type_params)
         (alloc_array s)).
Proof.
  unfold ExprMutator.VisitExpr_Function.
  rewrite interp_bind, interp_new_array. cbn [result_bind].
  rewrite interp_bind, interp_mutate_ty_params.
  destruct (visit_list (visit_type_var is_TypeVar vt) _ _) as [tys s1| |];
    cbn [result_bind]; try done.
  cbv beta iota zeta.
  rewrite interp_bind, interp_new_array. cbn [result_bind].
  rewrite interp_bind, interp_mutate_params.
  destruct (visit_list (mutate_var ve) _ _) as [ps s2| |];
    cbn [result_bind]; try done.
  cbv beta iota zeta.
  rewrite interp_bind, interp_this_VisitType.
  destruct (vt ret_type s2) as [rt s3| |]; cbn [result_bind]; try done.
  rewrite interp_bind, interp_this_Mutate.
  destruct (ve body s3) as [b s4| |]; cbn [result_bind]; try done.
  unfold array_same_as. cbn [node_ elems app].
  by destruct (_ && _).
Qed.
End FunctionHandler.

(** ** Binders have to remain Vars *)

Section BinderContract.
Context {U : Type}.
Variable is_TypeVar : nat → bool.
Implicit Types s : state U Expr.

Lemma Let_non_var_fatal
    (ve : Expr → state U Expr → result (state U Expr) Expr)
    (vt : Ty → state U Expr → result (state U Expr) Ty)
    op var value body s e s1 ne :
  ve var s = Ok e s1 → heap s1 !! e = Some ne → is_VarNode ne = false →
  interp ve vt (ExprMutator.VisitExpr_Let op var value body) s = Fault Fatal.
Proof.
  intros He Hne Hv. rewrite Mutator_Let_sequence, He. cbn [result_bind].
  by rewrite interp_Downcast_Var, Hne, Hv.
Qed.

Lemma Function_non_var_fatal
    (ve : Expr → state U Expr → result (state U Expr) Expr)
    (vt : Ty → state U Expr → result (state U Expr) Ty)
    op params body ret_type type_params attrs s
    before param after tys s0 vars s1 e s2 ne :
  elems params = before ++ param :: after →
  visit_list (visit_type_var is_TypeVar vt) (elems type_params)
    (alloc_array s) = Ok tys s0 →
  visit_list (mutate_var ve) before (alloc_array s0) = Ok vars s1 →
  ve param s1 = Ok e s2 → heap s2 !! e = Some ne → is_VarNode ne = false →
  interp ve vt
    (ExprMutator.VisitExpr_Function is_TypeVar op params body ret_type
       type_params attrs) s = Fault Fatal.
Proof.
  intros Hps Htys Hbefore He Hne Hv.
  rewrite Function_rewrite, Htys. cbn [result_bind]. rewrite Hps.
  rewrite (visit_list_fault (mutate_var ve) before param after _ Hbefore
             (ft := Fatal)); [done|].
  unfold mutate_var. rewrite He. cbn [result_bind]. by rewrite Hne, Hv.
Qed.

(** C7. In the default Let handler, when [Mutate] on the bound var returns an
    object that is not a Var, and in the default Function handler, when
    [Mutate] on a parameter does (the type parameters and the parameters
    before it having been rewritten), the handler stops with the fatal fault:
    no node is built and no result returned.  A fault of a handler is the
    fault of the [VisitExpr] that dispatched to it, and a fault of a call on
    [this] is the fault of the handler that made it, so the whole mutation
    stops there. *)
Theorem non_var_binder_is_fatal :
  (∀ ve vt op var value body s e s1 ne,
     ve var s = Ok e s1 → heap s1 !! e = Some ne → is_VarNode ne = false →
     interp ve vt
       (ExprFunctor_dispatch (ExprMutator.base is_TypeVar) op
          (LetNode var value body)) s = Fault Fatal) ∧
  (∀ ve vt op params body ret_type type_params attrs s
     before param after tys s0 vars s1 e s2 ne,
     elems params = before ++ param :: after →
     visit_list (visit_type_var is_TypeVar vt) (elems type_params)
       (alloc_array s) = Ok tys s0 →
     visit_list (mutate_var ve) before (alloc_array s0) = Ok vars s1 →
     ve param s1 = Ok e s2 → heap s2 !! e = Some ne → is_VarNode ne = false →
     interp ve vt
       (ExprFunctor_dispatch (ExprMutator.base is_TypeVar) op
          (FunctionNode params body ret_type type_params attrs)) s
     = Fault Fatal) ∧
  (∀ (this : ExprFunctor U Expr Ty) fuel e n s f,
     heap s !! e = Some n → cache s !! e = None →
     interp (ExprMutator.VisitExpr this fuel)
       (ExprMutator.call_VisitType this fuel)
       (ExprFunctor_dispatch this e n) (enter e s) = Fault f →
     ExprMutator.VisitExpr this (S fuel) e s = Fault f) ∧
  (∀ (ve : Expr → state U Expr → result (state U Expr) Expr)
     (vt : Ty → state U Expr → result (state U Expr) Ty)
     e (k : Expr → prog U Expr Ty Expr) s f,
     ve e s = Fault f → interp ve vt (Visit e k) s = Fault f).
Proof.
  split_and!.
  - intros. by eapply Let_non_var_fatal.
  - intros. by eapply Function_non_var_fatal.
  - intros this fuel e n s f Hn Hc H.
    by rewrite (Mutator_VisitExpr_miss _ _ _ _ Hc Hn), H.
  - intros ve vt e k s f H. simpl. by rewrite H.
Qed.
End BinderContract.

(** A mutator that rewrites the parameter [x] of [Function([x], x)] to a
    Constant stops with the fatal fault. *)
Lemma non_var_binder_is_fatal_witness :
  ExprMutator.VisitExpr Examples.var_breaker 5 Examples.fn_root
    Examples.fn_state = Fault Fatal.
Proof.
  destruct (@non_var_binder_is_fatal unit Examples.all_TypeVar)
    as (_ & HF & Hup & _).
  apply (Hup Examples.var_breaker 4 Examples.fn_root
           (FunctionNode (mkArray 0 [0]) 0 None (mkArray 1 []) None));
    [reflexivity | reflexivity |].
  eapply (HF _ _ _ _ _ _ _ _ _ [] 0 []);
    [reflexivity | reflexivity | reflexivity
    | vm_compute; reflexivity | reflexivity | reflexivity].
Defined.

(** ** The Function handler never returns the original *)

Section FunctionRebuilt.
Context {U : Type}.
Variable is_TypeVar : nat → bool.
Variable this : ExprFunctor U Expr Ty.
Variable fuel : nat.
Implicit Types s : state U Expr.

Lemma visit_list_mutate_var_extends l s news s' :
  visit_list (mutate_var (ExprMutator.VisitExpr this fuel)) l s = Ok news s' →
  extends s s'.
Proof.
  revert s news; induction l as [|x l IH]; intros s news; simpl.
  - intros [= <- <-]. apply extends_refl.
  - intros (r & s1 & Hx & H)%result_bind_Ok.
    apply result_bind_Ok in H as (rs & s2 & Hl & [= <- <-]).
    eapply extends_trans; [|by eapply IH].
    unfold mutate_var in Hx.
    apply result_bind_Ok in Hx as (e & s0 & He & Hx).
    destruct (heap s0 !! e) as [n|]; [|done].
    destruct (is_VarNode n); [|done]. injection Hx as <- <-.
    by eapply (proj1 (VisitExpr_extends this fuel)).
Qed.

Lemma visit_list_type_var_extends l s news s' :
  visit_list (visit_type_var is_TypeVar (ExprMutator.call_VisitType this fuel))
    l s = Ok news s' →
  extends s s'.
Proof.
  revert s news; induction l as [|x l IH]; intros s news; simpl.
  - intros [= <- <-]. apply extends_refl.
  - intros (r & s1 & Hx & H)%result_bind_Ok.
    apply result_bind_Ok in H as (rs & s2 & Hl & [= <- <-]).
    eapply extends_trans; [|by eapply IH].
    unfold visit_type_var in Hx.
    apply result_bind_Ok in Hx as (t & s0 & Ht & Hx).
    destruct t as [i|]; [|done].
    destruct (is_TypeVar i); [|done]. injection Hx as <- <-.
    by eapply (proj2 (VisitExpr_extends this fuel)).
Qed.

(** Whenever the arrays of the node were built before the handler runs, the
    array of rewritten type parameters is another object than
    [op->type_params], the comparison fails, and the handler builds a new
    Function, whatever the rewrites returned. *)
Lemma Function_always_rebuilt op params body ret_type type_params attrs
    s r s' :
  op < length (heap s) →
  node_ type_params < arrays s →
  interp (ExprMutator.VisitExpr this fuel)
    (ExprMutator.call_VisitType this fuel)
    (ExprMutator.VisitExpr_Function is_TypeVar op params body ret_type
       type_params attrs) s = Ok r s' →
  r ≠ op ∧
  ∃ ps b rt tys a1 a2,
    heap s' !! r = Some (FunctionNode (mkArray a1 ps) b rt (mkArray a2 tys)
                           attrs).
Proof.
  intros Hop Harr. rewrite Function_rewrite.
  intros (tys & s1 & Htys & H)%result_bind_Ok.
  apply result_bind_Ok in H as (ps & s2 & Hps & H).
  apply result_bind_Ok in H as (rt & s3 & Hrt & H).
  apply result_bind_Ok in H as (b & s4 & Hb & H).
  rewrite (proj2 (Nat.eqb_neq (arrays s) (node_ type_params))) in H by lia.
  simpl in H. injection H as <- <-.
  apply visit_list_type_var_extends, extends_length in Htys.
  apply visit_list_mutate_var_extends, extends_length in Hps.
  apply (proj2 (VisitExpr_extends this fuel)), extends_length in Hrt.
  apply (proj1 (VisitExpr_extends this fuel)), extends_length in Hb.
  simpl in *. split; [lia|].
  eexists _, _, _, _, _, _. by rewrite lookup_app_r, Nat.sub_diag.
Qed.
End FunctionRebuilt.

(** C4 (the code departs from the claim). On [f = Function([x], x)], the
    default mutator leaves the parameter, the return type and the body as
    they are (there are no type parameters), and yet returns a new Function,
    at address 2, instead of [f]. *)
Theorem function_rebuilt_though_unchanged :
  ∃ s',
    ExprMutator.VisitExpr (ExprMutator.base Examples.all_TypeVar) 5
      Examples.fn_root Examples.fn_state = Ok 2 s' ∧
    cache s' !! 0 = Some 0 ∧
    heap s' !! Examples.fn_root
    = Some (FunctionNode (mkArray 0 [0]) 0 None (mkArray 1 []) None) ∧
    heap s' !! 2
    = Some (FunctionNode (mkArray 3 [0]) 0 None (mkArray 2 []) None) ∧
    same_as 2 Examples.fn_root = false.
Proof. eexists. split; [vm_compute; reflexivity|]. by vm_compute. Qed.

(** C5 (the code departs from the claim). On [t = Tuple([f])] with
    [f = Function([x], x)], the mutator none of whose handlers is overridden
    returns a new Tuple, at address 4, over a new Function, at address 3,
    instead of [t]. *)
Theorem default_mutator_not_identity_on_function :
  ∃ s',
    ExprMutator.VisitExpr (ExprMutator.base Examples.all_TypeVar) 5
      Examples.fn_tuple_root Examples.fn_tuple_state = Ok 4 s' ∧
    heap s' !! 4 = Some (TupleNode (mkArray 3 [3])) ∧
    heap s' !! 3
    = Some (FunctionNode (mkArray 5 [0]) 0 None (mkArray 4 []) None) ∧
    same_as 4 Examples.fn_tuple_root = false.
Proof. eexists. split; [vm_compute; reflexivity|]. by vm_compute. Qed.

(** ** Passes over a DAG *)

Lemma wf_heap_child h x c : wf_heap h = true → child h x c → c < x.
Proof.
  unfold wf_heap. rewrite forallb_forall. intros Hwf (n & Hx & Hc).
  specialize (Hwf (x, n)). rewrite forallb_forall in Hwf.
  apply Nat.ltb_lt, Hwf.
  - apply list_elem_of_In, elem_of_lookup_imap. eauto.
  - by apply list_elem_of_In.
Qed.

Lemma only_visits_mono {U R T A} (P Q : Expr → Prop) (p : prog U R T A) :
  (∀ x, P x → Q x) → only_visits P p → only_visits Q p.
Proof. intros HPQ. induction 1; constructor; auto. Qed.

Lemma only_visits_bind {U R T A B} (P : Expr → Prop) (p : prog U R T A)
    (f : A → prog U R T B) :
  only_visits P p → (∀ a, only_visits P (f a)) → only_visits P (p ≫= f).
Proof.
  intros Hp Hf. unfold mbind, prog_mbind.
  induction Hp; simpl; try constructor; auto.
Qed.

Section PassStep.
Context {U C : Type}.
Variable h0 : list Node.
Implicit Types s : state U C.
Implicit Types Q : Expr → Prop.

Lemma pass_step_refl Q s : pass_step h0 Q s s.
Proof.
  intros Hp. split; [done|]. exists []. split_and!.
  - by rewrite app_nil_r.
  - constructor.
  - by intros x ?%elem_of_nil.
  - set_solver.
Qed.

Lemma pass_step_trans Q s1 s2 s3 :
  pass_step h0 Q s1 s2 → pass_step h0 Q s2 s3 → pass_step h0 Q s1 s3.
Proof.
  intros H12 H23 Hp.
  destruct (H12 Hp) as (Hp2 & l & Hl & Hnd & Hb & Hd).
  destruct (H23 Hp2) as (Hp3 & l' & Hl' & Hnd' & Hb' & Hd').
  split; [done|]. exists (l ++ l'). split_and!.
  - by rewrite Hl', Hl, app_assoc.
  - apply NoDup_app. split_and!; try done.
    intros x Hx Hx'. apply Hb' in Hx' as [_ Hx']. set_solver.
  - intros x [Hx|Hx]%elem_of_app; [by apply Hb|].
    apply Hb' in Hx as [? Hx]. split; [done|]. set_solver.
  - rewrite Hd', Hd. set_solver.
Qed.

Lemma pass_step_mono Q Q' s s' :
  (∀ x, Q x → Q' x) → pass_step h0 Q s s' → pass_step h0 Q' s s'.
Proof.
  intros Hb H Hp. destruct (H Hp) as (Hp' & l & Hl & Hnd & Hlb & Hd).
  split; [done|]. exists l. split_and!; try done.
  intros x Hx. apply Hlb in Hx as [? ?]. split; [by apply Hb|done].
Qed.

Lemma pass_step_same Q s s' :
  h0 `prefix_of` heap s → heap s `prefix_of` heap s' →
  dom (cache s') = dom (cache s) → trace s' = trace s → pass_step h0 Q s s'.
Proof.
  intros _ Hh Hc Ht Hp. split; [by etrans|]. exists []. split_and!.
  - by rewrite app_nil_r.
  - constructor.
  - by intros x ?%elem_of_nil.
  - rewrite Hc. set_solver.
Qed.

(** The store at the end of [VisitExpr] on a miss. *)
Lemma pass_step_store Q Q' e s s1 s' :
  pass_step h0 Q (enter e s) s1 →
  (∀ x, Q x → Q' x ∧ x ≠ e) → Q' e → e ∉ dom (cache s) →
  heap s' = heap s1 → trace s' = trace s1 →
  dom (cache s') = {[e]} ∪ dom (cache s1) →
  pass_step h0 Q' s s'.
Proof.
  intros H HQ HQe He Hh Ht Hd Hp.
  destruct (H Hp) as (Hp1 & l & Hl & Hnd & Hlb & Hd1). simpl in *.
  split; [by rewrite Hh|]. exists (e :: l). split_and!.
  - by rewrite Ht, Hl, <- app_assoc.
  - constructor; [|done]. intros [[_ Hx]%HQ _]%Hlb. done.
  - intros x [->|Hx]%elem_of_cons; [done|].
    apply Hlb in Hx as [[? _]%HQ ?]. done.
  - rewrite Hd, Hd1. set_solver.
Qed.

(** A handler program that visits expressions in [P] only, run with a
    [VisitExpr] that steps within [Q] on each such expression, steps within
    [Q]. *)
Lemma interp_pass_step {R T A} Q
    (ve : Expr → state U C → result (state U C) R)
    (vt : Ty → state U C → result (state U C) T)
    (P : Expr → Prop) (p : prog U R T A) :
  (∀ e s r s', P e → ve e s = Ok r s' → pass_step h0 Q s s') →
  (∀ t s r s', vt t s = Ok r s' → pass_step h0 Q s s') →
  only_visits P p →
  ∀ s a s', interp ve vt p s = Ok a s' → pass_step h0 Q s s'.
Proof.
  intros Hve Hvt Hp.
  induction Hp as [a|f|e k HP Hk IH|t k Hk IH|n k Hk IH|k Hk IH|e k Hk IH
                   |k Hk IH|u k Hk IH]; intros s a' s'; simpl.
  - intros [= <- <-]. apply pass_step_refl.
  - done.
  - destruct (ve e s) as [r s1| |] eqn:E; try done. intros H.
    eapply pass_step_trans; [by eapply Hve|by eapply IH].
  - destruct (vt t s) as [r s1| |] eqn:E; try done. intros H.
    eapply pass_step_trans; [by eapply Hvt|by eapply IH].
  - intros H. eapply pass_step_trans; [|by eapply IH].
    intros Hp0. apply pass_step_same; simpl; try done. by apply prefix_app_r.
  - intros H. eapply pass_step_trans; [|by eapply IH].
    intros Hp0. by apply pass_step_same.
  - destruct (heap s !! e); try done. apply IH.
  - apply IH.
  - intros H. eapply pass_step_trans; [|by eapply IH].
    intros Hp0. by apply pass_step_same.
Qed.
End PassStep.

Lemma strictly_under_under h0 e x :
  strictly_under h0 e x → under h0 e x ∧ x ≠ e.
Proof.
  intros [Hlt (c & Hc & Hcx)]. split; [|lia]. split; [lia|].
  by eapply rtc_l.
Qed.

Lemma under_child h0 e c x :
  wf_heap h0 = true → child h0 e c → under h0 c x → strictly_under h0 e x.
Proof.
  intros Hwf Hc [Hle Hr]. pose proof (wf_heap_child Hwf Hc). split; [lia|].
  by exists c.
Qed.


(** ** Descending functors *)

Section Descending.
Context {U : Type}.

Lemma only_visits_mutate_each (l : list Expr) fields unchanged :
  only_visits (U:=U) (λ x, x ∈ l)
    (ExprMutator.mutate_each l fields unchanged).
Proof.
  revert fields unchanged. induction l as [|x l IH]; intros fields unchanged.
  - constructor.
  - simpl. constructor; [by left|]. intros r.
    eapply only_visits_mono; [|apply IH]. intros y Hy. by right.
Qed.

Lemma only_visits_mutate_ty_args (P : Expr → Prop) l ty_args unchanged :
  only_visits (U:=U) P (ExprMutator.mutate_ty_args l ty_args unchanged).
Proof.
  revert ty_args unchanged. induction l as [|x l IH]; intros ty_args unchanged.
  - constructor.
  - simpl. constructor. intros r. apply IH.
Qed.

Lemma only_visits_Downcast_Var {R T} (P : Expr → Prop) e :
  only_visits (U:=U) (R:=R) (T:=T) P (ExprMutator.Downcast_Var e).
Proof.
  unfold ExprMutator.Downcast_Var. simpl. constructor. intros n.
  destruct (is_VarNode n); constructor.
Qed.

Lemma only_visits_mutate_params (l : list Expr) params flag :
  only_visits (U:=U) (λ x, x ∈ l) (ExprMutator.mutate_params l params flag).
Proof.
  revert params flag. induction l as [|x l IH]; intros params flag.
  - constructor.
  - simpl. constructor; [by left|]. intros r. constructor. intros n.
    destruct (is_VarNode n); [|constructor]. simpl.
    eapply only_visits_mono; [|apply IH]. intros y Hy. by right.
Qed.

Lemma only_visits_mutate_ty_params is_TypeVar (P : Expr → Prop) l tp flag :
  only_visits (U:=U) P (ExprMutator.mutate_ty_params is_TypeVar l tp flag).
Proof.
  revert tp flag. induction l as [|x l IH]; intros tp flag.
  - constructor.
  - simpl. constructor. intros [i|]; simpl; [|constructor].
    destruct (is_TypeVar i); [|constructor]. apply IH.
Qed.

Lemma only_visits_if {R T A} (P : Expr → Prop) (b : bool)
    (p q : prog U R T A) :
  only_visits P p → only_visits P q → only_visits P (if b then p else q).
Proof. by destruct b. Qed.

Lemma only_visits_make {R T} (P : Expr → Prop) n :
  only_visits (U:=U) (R:=R) (T:=T) P (make n).
Proof. constructor. intros r. constructor. Qed.

Lemma only_visits_this_Mutate {T} (P : Expr → Prop) e :
  P e → only_visits (U:=U) (T:=T) P (this_Mutate e).
Proof. intros He. constructor; [done|]. intros r. constructor. Qed.

Lemma only_visits_this_VisitExpr {R T} (P : Expr → Prop) e :
  P e → only_visits (U:=U) (R:=R) (T:=T) P (this_VisitExpr e).
Proof. intros He. constructor; [done|]. intros r. constructor. Qed.

Lemma only_visits_this_VisitType {R T} (P : Expr → Prop) t :
  only_visits (U:=U) (R:=R) (T:=T) P (this_VisitType t).
Proof. constructor. intros r. constructor. Qed.

Lemma only_visits_new_array {R T} (P : Expr → Prop) A :
  only_visits (U:=U) (R:=R) (T:=T) P (new_array A).
Proof. constructor. intros r. constructor. Qed.

(** The mutator none of whose methods is overridden is descending. *)
Lemma Mutator_base_descending is_TypeVar :
  descending (ExprMutator.base (U:=U) is_TypeVar).
Proof.
  split; [|intros t; constructor].
  intros e [nh ta|d|nh|nm|fields|params body rt tps attrs
            |op args attrs targs|var value body|c t f|tuple idx]; simpl.
  - unfold ExprMutator.VisitExpr_Var. destruct (defined ta); [|constructor].
    apply only_visits_bind; [apply only_visits_this_VisitType|].
    intros type. apply only_visits_if; [apply only_visits_make|constructor].
  - constructor.
  - constructor.
  - constructor.
  - unfold ExprMutator.VisitExpr_Tuple.
    apply only_visits_bind; [apply only_visits_new_array|]. intros a.
    apply only_visits_bind; [apply only_visits_mutate_each|]. intros [a' b].
    apply only_visits_if; [constructor|apply only_visits_make].
  - unfold ExprMutator.VisitExpr_Function.
    apply only_visits_bind; [apply only_visits_new_array|]. intros a.
    apply only_visits_bind; [apply only_visits_mutate_ty_params|].
    intros [a' b].
    apply only_visits_bind; [apply only_visits_new_array|]. intros a2.
    apply only_visits_bind.
    { eapply only_visits_mono; [|apply only_visits_mutate_params].
      intros x Hx. apply elem_of_app. by left. }
    intros [a2' b2].
    apply only_visits_bind; [apply only_visits_this_VisitType|]. intros rt'.
    apply only_visits_bind.
    { apply only_visits_this_Mutate. apply elem_of_app. right. by left. }
    intros body'.
    apply only_visits_if; [constructor|apply only_visits_make].
  - unfold ExprMutator.VisitExpr_Call.
    apply only_visits_bind; [apply only_visits_this_Mutate; by left|].
    intros new_op.
    apply only_visits_bind; [apply only_visits_new_array|]. intros a.
    apply only_visits_bind; [apply only_visits_mutate_ty_args|].
    intros [a' b].
    apply only_visits_bind; [apply only_visits_new_array|]. intros a2.
    apply only_visits_bind.
    { eapply only_visits_mono; [|apply only_visits_mutate_each].
      intros x Hx. by right. }
    intros [a2' b2].
    apply only_visits_if; [constructor|apply only_visits_make].
  - unfold ExprMutator.VisitExpr_Let.
    apply only_visits_bind; [apply only_visits_this_Mutate; set_solver|].
    intros e'.
    apply only_visits_bind; [apply only_visits_Downcast_Var|]. intros var'.
    apply only_visits_bind; [apply only_visits_this_Mutate; set_solver|].
    intros value'.
    apply only_visits_bind; [apply only_visits_this_Mutate; set_solver|].
    intros body'.
    apply only_visits_if; [constructor|apply only_visits_make].
  - unfold ExprMutator.VisitExpr_If.
    apply only_visits_bind; [apply only_visits_this_Mutate; set_solver|].
    intros c'.
    apply only_visits_bind; [apply only_visits_this_Mutate; set_solver|].
    intros t'.
    apply only_visits_bind; [apply only_visits_this_Mutate; set_solver|].
    intros f'.
    apply only_visits_if; [constructor|apply only_visits_make].
  - unfold ExprMutator.VisitExpr_TupleGetItem.
    apply only_visits_bind; [apply only_visits_this_Mutate; set_solver|].
    intros t'.
    apply only_visits_if; [constructor|apply only_visits_make].
Qed.

Lemma only_visits_visit_each (l : list Expr) :
  only_visits (U:=U) (λ x, x ∈ l) (ExprVisitor.visit_each l).
Proof.
  induction l as [|x l IH].
  - constructor.
  - simpl. constructor; [by left|]. intros r.
    eapply only_visits_mono; [|apply IH]. intros y Hy. by right.
Qed.

Lemma only_visits_visit_each_type (P : Expr → Prop) (l : list Ty) :
  only_visits (U:=U) P (ExprVisitor.visit_each_type l).
Proof.
  induction l as [|x l IH].
  - constructor.
  - simpl. constructor. intros r. apply IH.
Qed.

(** The visitor none of whose methods is overridden is descending. *)
Lemma Visitor_base_descending : descending (ExprVisitor.base (U:=U)).
Proof.
  split; [|intros t; constructor].
  intros e [nh ta|d|nh|nm|fields|params body rt tps attrs
            |op args attrs targs|var value body|c t f|tuple idx]; simpl.
  - unfold ExprVisitor.VisitExpr_Var. destruct (defined ta); [|constructor].
    apply only_visits_this_VisitType.
  - constructor.
  - constructor.
  - constructor.
  - apply only_visits_visit_each.
  - unfold ExprVisitor.VisitExpr_Function.
    apply only_visits_bind.
    { eapply only_visits_mono; [|apply only_visits_visit_each].
      intros x Hx. apply elem_of_app. by left. }
    intros _. apply only_visits_this_VisitExpr. apply elem_of_app.
    right. by left.
  - unfold ExprVisitor.VisitExpr_Call.
    apply only_visits_bind; [apply only_visits_this_VisitExpr; by left|].
    intros _.
    apply only_visits_bind; [apply only_visits_visit_each_type|]. intros _.
    eapply only_visits_mono; [|apply only_visits_visit_each].
    intros x Hx. by right.
  - unfold ExprVisitor.VisitExpr_Let.
    apply only_visits_bind; [apply only_visits_this_VisitExpr; set_solver|].
    intros _.
    apply only_visits_bind; [apply only_visits_this_VisitExpr; set_solver|].
    intros _. apply only_visits_this_VisitExpr; set_solver.
  - unfold ExprVisitor.VisitExpr_If.
    apply only_visits_bind; [apply only_visits_this_VisitExpr; set_solver|].
    intros _.
    apply only_visits_bind; [apply only_visits_this_VisitExpr; set_solver|].
    intros _. apply only_visits_this_VisitExpr; set_solver.
  - apply only_visits_this_VisitExpr; set_solver.
Qed.

End Descending.




(** ** A pass of a descending mutator over a DAG *)

Lemma prefix_lookup_lt {A} (l1 l2 : list A) i :
  l1 `prefix_of` l2 → i < length l1 → l2 !! i = l1 !! i.
Proof. intros [k ->] Hi. by rewrite lookup_app_l. Qed.

Section MutatorPass.
Context {U : Type}.
Variable this : ExprFunctor U Expr Ty.
Hypothesis Hdesc : descending this.
Variable h0 : list Node.
Hypothesis Hwf : wf_heap h0 = true.
Implicit Types s : state U Expr.

Lemma Mutator_pass fuel :
  (∀ e s r s', e < length h0 →
     ExprMutator.VisitExpr this fuel e s = Ok r s' →
     pass_step h0 (under h0 e) s s') ∧
  (∀ t s r s',
     ExprMutator.call_VisitType this fuel t s = Ok r s' →
     pass_step h0 (λ _, False) s s').
Proof using Hdesc Hwf.
  induction fuel as [|fuel [IHe IHt]]; [done|]. split.
  - intros e s r s' He H Hp. revert H.
    destruct (cache s !! e) as [it|] eqn:Hc.
    { rewrite (Mutator_VisitExpr_hit _ _ _ _ Hc). intros [= <- <-].
      by apply pass_step_refl. }
    destruct (lookup_lt_is_Some_2 h0 e He) as [n Hn].
    assert (Hn' : heap s !! e = Some n)
      by (by rewrite (prefix_lookup_lt Hp He)).
    rewrite (Mutator_VisitExpr_miss _ _ _ _ Hc Hn').
    intros (r1 & s1 & Hi & [= <- <-])%result_bind_Ok.
    eapply (@pass_step_store _ _ h0 (strictly_under h0 e) (under h0 e) e
              s s1);
      [|intros x; apply strictly_under_under|by split| |done|done| |done].
    + eapply interp_pass_step; [| |apply (proj1 Hdesc e n)|exact Hi].
      * intros c s0 r0 s0' Hc0 H0.
        assert (Hch : child h0 e c) by (by exists n).
        pose proof (wf_heap_child Hwf Hch).
        eapply pass_step_mono; [|eapply (IHe c); [lia|exact H0]].
        intros x. by apply under_child.
      * intros t s0 r0 s0' H0.
        eapply pass_step_mono; [|by eapply IHt]. done.
    + by apply not_elem_of_dom.
    + simpl. by rewrite dom_insert_L.
  - intros t s r s'. rewrite Mutator_call_VisitType_S.
    eapply interp_pass_step; [| |apply (proj2 Hdesc t)].
    + by intros e s0 r0 s0' [].
    + intros t0 s0 r0 s0'. apply IHt.
Qed.
End MutatorPass.

(** ** A pass of a descending visitor over a DAG *)

Section VisitorUnfold.
Context {U : Type}.
Variable this : ExprFunctor U unit unit.
Implicit Types s : state U nat.

Lemma Visitor_VisitExpr_hit fuel e s it :
  cache s !! e = Some it →
  ExprVisitor.VisitExpr this (S fuel) e s
  = Ok tt (set_cache (<[e := S it]> (cache s)) s).
Proof. intros H. simpl. by rewrite H. Qed.

Lemma Visitor_VisitExpr_miss fuel e s n :
  cache s !! e = None → heap s !! e = Some n →
  ExprVisitor.VisitExpr this (S fuel) e s
  = result_bind
      (λ _ s', Ok tt (set_cache (ExprVisitor.insert_counter e (cache s')) s'))
      (interp (ExprVisitor.VisitExpr this fuel)
              (ExprVisitor.call_VisitType this fuel)
              (ExprFunctor_dispatch this e n) (enter e s)).
Proof.
  intros Hc Hn. simpl. rewrite Hc, Hn.
  by destruct (interp _ _ (ExprFunctor_dispatch this e n) _).
Qed.

Lemma Visitor_call_VisitType_S fuel t s :
  ExprVisitor.call_VisitType this (S fuel) t s
  = interp (ExprVisitor.VisitExpr this fuel)
           (ExprVisitor.call_VisitType this fuel) (visit_type this t) s.
Proof. done. Qed.

Lemma dom_insert_counter e (m : gmap nat nat) :
  dom (ExprVisitor.insert_counter e m) = {[e]} ∪ dom m.
Proof.
  unfold ExprVisitor.insert_counter.
  destruct (m !! e) eqn:He; [|by rewrite dom_insert_L].
  apply elem_of_dom_2 in He. set_solver.
Qed.
End VisitorUnfold.

Section VisitorPass.
Context {U : Type}.
Variable this : ExprFunctor U unit unit.
Hypothesis Hdesc : descending this.
Variable h0 : list Node.
Hypothesis Hwf : wf_heap h0 = true.
Implicit Types s : state U nat.

Lemma Visitor_pass fuel :
  (∀ e s r s', e < length h0 →
     ExprVisitor.VisitExpr this fuel e s = Ok r s' →
     pass_step h0 (under h0 e) s s') ∧
  (∀ t s r s',
     ExprVisitor.call_VisitType this fuel t s = Ok r s' →
     pass_step h0 (λ _, False) s s').
Proof using Hdesc Hwf.
  induction fuel as [|fuel [IHe IHt]]; [done|]. split.
  - intros e s r s' He H Hp. revert H.
    destruct (cache s !! e) as [it|] eqn:Hc.
    { rewrite (Visitor_VisitExpr_hit _ _ _ _ Hc). destruct r.
      intros H. injection H as <-.
      apply pass_step_same; simpl; try done.
      rewrite dom_insert_L. apply elem_of_dom_2 in Hc. set_solver. }
    destruct (lookup_lt_is_Some_2 h0 e He) as [n Hn].
    assert (Hn' : heap s !! e = Some n)
      by (by rewrite (prefix_lookup_lt Hp He)).
    rewrite (Visitor_VisitExpr_miss _ _ _ _ Hc Hn').
    destruct r. intros ([] & s1 & Hi & H)%result_bind_Ok. injection H as <-.
    eapply (@pass_step_store _ _ h0 (strictly_under h0 e) (under h0 e) e
              s s1);
      [|intros x; apply strictly_under_under|by split| |done|done| |done].
    + eapply interp_pass_step; [| |apply (proj1 Hdesc e n)|exact Hi].
      * intros c s0 r0 s0' Hc0 H0.
        assert (Hch : child h0 e c) by (by exists n).
        pose proof (wf_heap_child Hwf Hch).
        eapply pass_step_mono; [|eapply (IHe c); [lia|exact H0]].
        intros x. by apply under_child.
      * intros t s0 r0 s0' H0.
        eapply pass_step_mono; [|by eapply IHt]. done.
    + by apply not_elem_of_dom.
    + simpl. apply dom_insert_counter.
  - intros t s r s'. rewrite Visitor_call_VisitType_S.
    eapply interp_pass_step; [| |apply (proj2 Hdesc t)].
    + by intros e s0 r0 s0' [].
    + intros t0 s0 r0 s0'. apply IHt.
Qed.
End VisitorPass.

(** ** The visitor none of whose methods is overridden *)

Section VisitorBase.
Context {U : Type}.
Implicit Types s : state U nat.

Section Handlers.
Variable ve : Expr → state U nat → result (state U nat) unit.
Variable vt : Ty → state U nat → result (state U nat) unit.
Hypothesis vt_noop : ∀ t s, vt t s = Ok tt s.

Lemma interp_visit_each l s :
  interp ve vt (ExprVisitor.visit_each l) s
  = result_bind (λ _ s', Ok tt s') (visit_list ve l s).
Proof.
  revert s; induction l as [|x l IH]; intros s; [done|].
  cbn [ExprVisitor.visit_each visit_list].
  rewrite interp_bind, interp_this_VisitExpr.
  destruct (ve x s) as [[] s1| |]; cbn [result_bind]; try done.
  rewrite IH. by destruct (visit_list ve l s1).
Qed.


End Handlers.


(** [VisitExpr] records the expression, in every visitor. *)
Lemma Visitor_VisitExpr_cached (this : ExprFunctor U unit unit) fuel e s r s' :
  ExprVisitor.VisitExpr this fuel e s = Ok r s' → e ∈ dom (cache s').
Proof.
  destruct fuel as [|fuel]; [done|].
  destruct (cache s !! e) as [it|] eqn:Hc.
  - rewrite (Visitor_VisitExpr_hit _ _ _ _ Hc). destruct r.
    intros H; injection H as <-. simpl. set_solver.
  - destruct (heap s !! e) as [n|] eqn:Hn.
    + rewrite (Visitor_VisitExpr_miss _ _ _ _ Hc Hn). destruct r.
      intros ([] & s1 & Hi & H)%result_bind_Ok. injection H as <-. simpl.
      rewrite dom_insert_counter. set_solver.
    + simpl. by rewrite Hc, Hn.
Qed.

Section Total.
Variable h0 : list Node.
Hypothesis Hwf : wf_heap h0 = true.

Lemma closed_enter e s : closed h0 s → closed h0 (enter e s).
Proof. done. Qed.

End Total.
End VisitorBase.

Lemma closed_reachable {U C} h0 (s : state U C) x y :
  closed h0 s → x ∈ dom (cache s) → rtc (child h0) x y → y ∈ dom (cache s).
Proof. intros Hcl Hx Hr. induction Hr; eauto. Qed.

Section VisitorOnce.
Context {U : Type}.
Variable this : ExprFunctor U unit unit.
Hypothesis Hdesc : descending this.
Variable h0 : list Node.
Hypothesis Hwf : wf_heap h0 = true.
Implicit Types s : state U nat.

(** On a miss, a descending visitor over a DAG records the expression with
    counter 1. *)
Lemma Visitor_miss_records_one fuel e s r s' :
  e < length h0 → h0 `prefix_of` heap s → cache s !! e = None →
  ExprVisitor.VisitExpr this fuel e s = Ok r s' →
  cache s' !! e = Some 1.
Proof using Hdesc Hwf.
  intros He Hp Hc. destruct fuel as [|fuel]; [done|].
  destruct (lookup_lt_is_Some_2 h0 e He) as [n Hn].
  assert (Hn' : heap s !! e = Some n) by (by rewrite (prefix_lookup_lt Hp He)).
  rewrite (Visitor_VisitExpr_miss _ _ _ _ Hc Hn'). destruct r.
  intros ([] & s1 & Hi & H)%result_bind_Ok. injection H as <-.
  cbn [cache set_cache].
  assert (Hs : pass_step h0 (strictly_under h0 e) (enter e s) s1).
  { eapply interp_pass_step; [| |apply (proj1 Hdesc e n)|exact Hi].
    - intros c s0 r0 s0' Hc0 H0.
      assert (Hch : child h0 e c) by (by exists n).
      pose proof (wf_heap_child Hwf Hch).
      eapply pass_step_mono;
        [|eapply (proj1 (@Visitor_pass U this Hdesc h0 Hwf fuel) c); [lia|exact H0]].
      intros x. by apply under_child.
    - intros t s0 r0 s0' H0.
      eapply pass_step_mono; [|by eapply (proj2 (@Visitor_pass U this Hdesc h0 Hwf fuel))].
      done. }
  destruct (Hs Hp) as (_ & l & _ & _ & Hl & Hd). simpl in Hd.
  assert (He1 : cache s1 !! e = None).
  { apply not_elem_of_dom. rewrite Hd. apply not_elem_of_dom in Hc.
    intros [?|Hin%elem_of_list_to_set]%elem_of_union; [done|].
    apply Hl in Hin as [[Hlt _] _]. lia. }
  unfold ExprVisitor.insert_counter. rewrite He1. apply lookup_insert_eq.
Qed.

End VisitorOnce.

(** ** The visitor processes each node once *)




(** The spec's fan-in test: the counting visitor sees the shared Constant
    once, and the counter of its identity is 2. *)
Example visitor_fan_in :
  ∃ s',
    ExprVisitor.VisitExpr Examples.counting_visitor 5 Examples.shared_root
      (init Examples.shared_heap 1 0) = Ok tt s' ∧
    user s' = 1 ∧ cache s' !! 0 = Some 2 ∧ trace s' = [3; 1; 0; 2].
Proof. eexists. split; [vm_compute; reflexivity|]. by vm_compute. Qed.

(** ** The mutator computes each rewrite once *)

Section MutatorOnce.
Context {U : Type}.
Variable this : ExprFunctor U Expr Ty.
Implicit Types s : state U Expr.

(** [VisitExpr] leaves its result in the cache, in every mutator. *)
Lemma Mutator_VisitExpr_cached fuel e s r s' :
  ExprMutator.VisitExpr this fuel e s = Ok r s' → cache s' !! e = Some r.
Proof.
  destruct fuel as [|fuel]; [done|].
  destruct (cache s !! e) as [it|] eqn:Hc.
  - rewrite (Mutator_VisitExpr_hit _ _ _ _ Hc). by intros [= <- <-].
  - destruct (heap s !! e) as [n|] eqn:Hn.
    + rewrite (Mutator_VisitExpr_miss _ _ _ _ Hc Hn).
      intros (r1 & s1 & Hi & [= <- <-])%result_bind_Ok. simpl.
      apply lookup_insert_eq.
    + simpl. by rewrite Hc, Hn.
Qed.




Section DAG.
Hypothesis Hdesc : descending this.
Variable h0 : list Node.
Hypothesis Hwf : wf_heap h0 = true.

(** A pass of a descending mutator from a fresh state enters the handler of
    an expression at most once, and only for expressions reachable from the
    root; the expressions cached are those whose handler was entered. *)
Lemma Mutator_at_most_once fuel root a u r s' :
  root < length h0 →
  ExprMutator.VisitExpr this fuel root (init h0 a u) = Ok r s' →
  NoDup (trace s') ∧
  (∀ x, x ∈ trace s' → rtc (child h0) root x) ∧
  dom (cache s') = list_to_set (trace s').
Proof using Hdesc Hwf.
  intros Hr H.
  destruct (proj1 (@Mutator_pass U this Hdesc h0 Hwf fuel) root _ _ _ Hr H)
    as (_ & l & Hl & Hnd & Hin & Hd); [done|].
  simpl in Hl, Hd. rewrite Hl. split_and!; try done.
  - intros x Hx. by apply Hin in Hx as [[_ ?] _].
  - rewrite Hd, dom_empty_L. set_solver.
Qed.

End DAG.
End MutatorOnce.




(** ** The memo cache only grows *)




(** With a type hook that returns its argument, the default Var handler
    returns [op]. *)
Lemma var_rewrite_calls_hook_eq {U}
    (ve : Expr → state U Expr → result (state U Expr) Expr)
    (vt : Ty → state U Expr → result (state U Expr) Ty)
    (op : Expr) (name_hint : string) (ta : Ty) (s : state U Expr) :
  (∀ t s0, vt t s0 = Ok t s0) →
  interp ve vt (ExprMutator.VisitExpr_Var op name_hint ta) s = Ok op s.
Proof.
  intros Hvt. unfold ExprMutator.VisitExpr_Var.
  destruct ta as [t|]; [|done]. cbn [defined].
  rewrite interp_bind, interp_this_VisitType, Hvt. cbn [result_bind].
  unfold ty_same_as. by rewrite bool_decide_eq_true_2.
Qed.

(** ** The default mutator on heaps without functions *)

Section MutatorIdentity.
Context {U : Type}.
Variable is_TypeVar : nat → bool.
Variable h0 : list Node.
Hypothesis Hwf : wf_heap h0 = true.
Hypothesis Hff : function_free h0 = true.
Hypothesis Hlet : let_binders_ok h0 = true.
Implicit Types s : state U Expr.

Lemma function_free_lookup e n : h0 !! e = Some n → is_FunctionNode n = false.
Proof using Hff.
  intros He. unfold function_free in Hff. rewrite forallb_forall in Hff.
  apply negb_true_iff, Hff, list_elem_of_In. by eapply list_elem_of_lookup_2.
Qed.

Lemma let_binders_lookup e var value body :
  h0 !! e = Some (LetNode var value body) →
  ∃ nv, h0 !! var = Some nv ∧ is_VarNode nv = true.
Proof using Hlet.
  intros He. unfold let_binders_ok in Hlet. rewrite forallb_forall in Hlet.
  specialize (Hlet (LetNode var value body)). simpl in Hlet.
  destruct (h0 !! var) as [nv|] eqn:Hv.
  - exists nv. split; [done|]. apply Hlet, list_elem_of_In.
    by eapply list_elem_of_lookup_2.
  - discriminate Hlet. apply list_elem_of_In. by eapply list_elem_of_lookup_2.
Qed.

(** With fuel for its depth, the default mutator returns the expression it
    was called on, builds no node and keeps the state of the pass. *)
Lemma Mutator_base_identity fuel e s :
  e < length h0 → e + 2 ≤ fuel →
  h0 `prefix_of` heap s → memo_identity s →
  ∃ s', ExprMutator.VisitExpr (ExprMutator.base is_TypeVar) fuel e s = Ok e s' ∧
        heap s' = heap s ∧ user s' = user s ∧ memo_identity s'.
Proof using Hwf Hff Hlet.
  revert e s. induction fuel as [|fuel IH]; intros e s He Hf Hp Hid; [lia|].
  destruct (cache s !! e) as [it|] eqn:Hc.
  { rewrite (Mutator_VisitExpr_hit _ _ _ _ Hc). rewrite (Hid _ _ Hc).
    by exists s. }
  destruct (lookup_lt_is_Some_2 h0 e He) as [n Hn].
  assert (Hn' : heap s !! e = Some n) by (by rewrite (prefix_lookup_lt Hp He)).
  rewrite (Mutator_VisitExpr_miss _ _ _ _ Hc Hn').
  destruct fuel as [|fuel']; [lia|].
  set (ve := ExprMutator.VisitExpr (ExprMutator.base is_TypeVar) (S fuel'))
    in *.
  set (vt := ExprMutator.call_VisitType (ExprMutator.base is_TypeVar)
               (S fuel')).
  assert (Hvt : ∀ t s0, vt t s0 = Ok t s0) by done.
  assert (Hvts : ∀ l s0, visit_list vt l s0 = Ok l s0).
  { induction l as [|t l IHl]; intros s0; [done|].
    cbn [visit_list]. rewrite Hvt. cbn [result_bind]. by rewrite IHl. }
  assert (Hve : ∀ c s0, c < e →
    h0 `prefix_of` heap s0 → memo_identity s0 →
    ∃ s1, ve c s0 = Ok c s1 ∧ heap s1 = heap s0 ∧ user s1 = user s0 ∧
          memo_identity s1).
  { intros c s0 Hce Hp0 Hid0. apply IH; try done; lia. }
  assert (Hves : ∀ l s0, (∀ c, c ∈ l → c < e) →
    h0 `prefix_of` heap s0 → memo_identity s0 →
    ∃ s1, visit_list ve l s0 = Ok l s1 ∧ heap s1 = heap s0 ∧
          user s1 = user s0 ∧ memo_identity s1).
  { induction l as [|c l IHl]; intros s0 Hlt Hp0 Hid0.
    - by exists s0.
    - destruct (Hve c s0) as (s1 & Hv & Hh1 & Hu1 & Hid1); try done.
      { apply Hlt. by left. }
      destruct (IHl s1) as (s2 & Hvl & Hh2 & Hu2 & Hid2); try done.
      { intros c' Hc'. apply Hlt. by right. }
      { cbn [heap enter alloc_array] in *. by rewrite Hh1. }
      exists s2. cbn [visit_list]. rewrite Hv. cbn [result_bind].
      rewrite Hvl. cbn [result_bind]. split_and!; try done; congruence. }
  assert (Hlt : ∀ c, c ∈ children n → c < e).
  { intros c Hcn. eapply wf_heap_child; [done|]. by exists n. }
  assert (Hfin : ∀ s1,
    heap s1 = heap s → user s1 = user s → memo_identity s1 →
    ∃ s', Ok e (set_cache (<[e := e]> (cache s1)) s1) = Ok e s' ∧
          heap s' = heap s ∧ user s' = user s ∧ memo_identity s').
  { intros s1 Hh Hu Hid1. eexists. split; [done|]. split_and!; try done.
    intros x r. simpl. rewrite lookup_insert.
    case_decide; [by intros [= <-]|apply Hid1]. }
  destruct n as [nh ta|d|nh|nm|fields|params body rt tps attrs
                 |op args attrs targs|var value body|c t f|tuple idx];
    cbn [ExprFunctor_dispatch ExprMutator.base visit_Var visit_Constant
         visit_GlobalVar visit_Op visit_Tuple visit_Function visit_Call
         visit_Let visit_If visit_TupleGetItem children] in *.
  - rewrite (var_rewrite_calls_hook_eq ve vt e nh ta (enter e s) Hvt).
    cbn [result_bind]. by apply Hfin.
  - unfold ExprMutator.VisitExpr_Constant. rewrite interp_ret.
    cbn [result_bind]. by apply Hfin.
  - unfold ExprMutator.VisitExpr_GlobalVar. rewrite interp_ret.
    cbn [result_bind]. by apply Hfin.
  - unfold ExprMutator.VisitExpr_Op. rewrite interp_ret.
    cbn [result_bind]. by apply Hfin.
  - rewrite Tuple_rewrite.
    destruct (Hves (elems fields) (alloc_array (enter e s)))
      as (s1 & -> & Hh & Hu & Hid1); try done.
    cbn [result_bind]. rewrite bool_decide_eq_true_2 by done.
    cbn [share_or_build result_bind].
    cbn [heap user enter alloc_array] in *. by apply Hfin.
  - by apply function_free_lookup in Hn.
  - rewrite Call_rewrite.
    destruct (Hve op (enter e s)) as (s1 & -> & Hh1 & Hu1 & Hid1); try done.
    { apply Hlt. by left. }
    cbn [result_bind]. rewrite Hvts. cbn [result_bind].
    destruct (Hves (elems args) (alloc_array (alloc_array s1)))
      as (s2 & -> & Hh2 & Hu2 & Hid2); try done.
    { intros c Hcn. apply Hlt. by right. }
    { cbn [heap enter alloc_array] in *. by rewrite Hh1. }
    cbn [result_bind]. unfold same_as. rewrite Nat.eqb_refl.
    rewrite !bool_decide_eq_true_2 by done.
    cbn [share_or_build result_bind andb].
    cbn [heap user enter alloc_array] in *. apply Hfin; [congruence..|done].
  - rewrite Let_rewrite. unfold mutate_var.
    destruct (Hve var (enter e s)) as (s1 & -> & Hh1 & Hu1 & Hid1); try done.
    { apply Hlt. set_solver. }
    cbn [result_bind].
    destruct (let_binders_lookup _ Hn) as (nv & Hnv & Hvar).
    assert (Hnv1 : heap s1 !! var = Some nv).
    { cbn [heap enter alloc_array] in *.
      rewrite Hh1, (prefix_lookup_lt Hp); [done|]. by eapply lookup_lt_Some. }
    rewrite Hnv1, Hvar. cbn [result_bind].
    destruct (Hve value s1) as (s2 & -> & Hh2 & Hu2 & Hid2); try done.
    { apply Hlt. set_solver. }
    { cbn [heap enter alloc_array] in *. by rewrite Hh1. }
    cbn [result_bind].
    destruct (Hve body s2) as (s3 & -> & Hh3 & Hu3 & Hid3); try done.
    { apply Hlt. set_solver. }
    { cbn [heap enter alloc_array] in *. by rewrite Hh2, Hh1. }
    cbn [result_bind]. unfold same_as. rewrite !Nat.eqb_refl.
    cbn [share_or_build result_bind andb].
    cbn [heap user enter alloc_array] in *. apply Hfin; [congruence..|done].
  - rewrite If_rewrite.
    destruct (Hve c (enter e s)) as (s1 & -> & Hh1 & Hu1 & Hid1); try done.
    { apply Hlt. set_solver. }
    cbn [result_bind].
    destruct (Hve t s1) as (s2 & -> & Hh2 & Hu2 & Hid2); try done.
    { apply Hlt. set_solver. }
    { cbn [heap enter alloc_array] in *. by rewrite Hh1. }
    cbn [result_bind].
    destruct (Hve f s2) as (s3 & -> & Hh3 & Hu3 & Hid3); try done.
    { apply Hlt. set_solver. }
    { cbn [heap enter alloc_array] in *. by rewrite Hh2, Hh1. }
    cbn [result_bind]. unfold same_as. rewrite !Nat.eqb_refl.
    cbn [share_or_build result_bind andb].
    cbn [heap user enter alloc_array] in *. apply Hfin; [congruence..|done].
  - rewrite TupleGetItem_rewrite.
    destruct (Hve tuple (enter e s)) as (s1 & -> & Hh1 & Hu1 & Hid1);
      try done.
    { apply Hlt. set_solver. }
    cbn [result_bind]. unfold same_as. rewrite Nat.eqb_refl.
    cbn [share_or_build result_bind].
    cbn [heap user enter alloc_array] in *. by apply Hfin.
Qed.
End MutatorIdentity.

(** * Further properties *)

(** ** The visitor reads only *)

Section ReadOnly.
Context {U C R T : Type}.
Variable w : bool.
Implicit Types s : state U C.

Lemma same_objects_refl s : same_objects w s s.
Proof. by split_and!. Qed.

Lemma same_objects_trans s1 s2 s3 :
  same_objects w s1 s2 → same_objects w s2 s3 → same_objects w s1 s3.
Proof.
  intros (Hh & Ha & Hu) (Hh' & Ha' & Hu'). split_and!.
  - by rewrite Hh'.
  - by rewrite Ha'.
  - intros Hw. by rewrite Hu', Hu.
Qed.

Lemma interp_builds_nothing {A}
    (ve : Expr → state U C → result (state U C) R)
    (vt : Ty → state U C → result (state U C) T) (p : prog U R T A) :
  (∀ e s r s', ve e s = Ok r s' → same_objects w s s') →
  (∀ t s r s', vt t s = Ok r s' → same_objects w s s') →
  builds_nothing w p →
  ∀ s a s', interp ve vt p s = Ok a s' → same_objects w s s'.
Proof.
  intros Hve Hvt Hp.
  induction Hp as [a|f|e k Hk IH|t k Hk IH|e k Hk IH|k Hk IH|u k Hw Hk IH];
    intros s a' s'; simpl.
  - intros [= <- <-]. apply same_objects_refl.
  - done.
  - destruct (ve e s) as [r s1| |] eqn:E; try done. intros H.
    eapply same_objects_trans; [by eapply Hve|by eapply IH].
  - destruct (vt t s) as [r s1| |] eqn:E; try done. intros H.
    eapply same_objects_trans; [by eapply Hvt|by eapply IH].
  - destruct (heap s !! e); try done. apply IH.
  - apply IH.
  - intros H. eapply same_objects_trans; [|by eapply IH].
    split_and!; try done. intros Hw'. congruence.
Qed.
End ReadOnly.

Lemma builds_nothing_bind {U R T A B} w (p : prog U R T A)
    (f : A → prog U R T B) :
  builds_nothing w p → (∀ a, builds_nothing w (f a)) →
  builds_nothing w (p ≫= f).
Proof.
  intros Hp Hf. unfold mbind, prog_mbind.
  induction Hp; simpl; try constructor; auto.
Qed.

Lemma builds_nothing_visit_each {U} w (l : list Expr) :
  builds_nothing (U:=U) w (ExprVisitor.visit_each l).
Proof.
  induction l as [|x l IH]; [constructor|].
  simpl. constructor. intros r. apply IH.
Qed.

Lemma builds_nothing_visit_each_type {U} w (l : list Ty) :
  builds_nothing (U:=U) w (ExprVisitor.visit_each_type l).
Proof.
  induction l as [|x l IH]; [constructor|].
  simpl. constructor. intros r. apply IH.
Qed.

Lemma builds_nothing_this_VisitExpr {U R T} w e :
  builds_nothing (U:=U) (R:=R) (T:=T) w (this_VisitExpr e).
Proof. constructor. intros r. constructor. Qed.

Lemma builds_nothing_this_VisitType {U R T} w t :
  builds_nothing (U:=U) (R:=R) (T:=T) w (this_VisitType t).
Proof. constructor. intros r. constructor. Qed.

(** The visitor none of whose methods is overridden builds nothing and does
    not write the state of the pass. *)
Lemma Visitor_base_read_only {U} : read_only false (ExprVisitor.base (U:=U)).
Proof.
  split; [|intros t; constructor].
  intros e [nh ta|d|nh|nm|fields|params body rt tps attrs
            |op args attrs targs|var value body|c t f|tuple idx]; simpl.
  - unfold ExprVisitor.VisitExpr_Var. destruct (defined ta); [|constructor].
    apply builds_nothing_this_VisitType.
  - constructor.
  - constructor.
  - constructor.
  - apply builds_nothing_visit_each.
  - unfold ExprVisitor.VisitExpr_Function.
    apply builds_nothing_bind; [apply builds_nothing_visit_each|].
    intros _. apply builds_nothing_this_VisitExpr.
  - unfold ExprVisitor.VisitExpr_Call.
    apply builds_nothing_bind; [apply builds_nothing_this_VisitExpr|].
    intros _.
    apply builds_nothing_bind; [apply builds_nothing_visit_each_type|].
    intros _. apply builds_nothing_visit_each.
  - unfold ExprVisitor.VisitExpr_Let.
    apply builds_nothing_bind; [apply builds_nothing_this_VisitExpr|].
    intros _.
    apply builds_nothing_bind; [apply builds_nothing_this_VisitExpr|].
    intros _. apply builds_nothing_this_VisitExpr.
  - unfold ExprVisitor.VisitExpr_If.
    apply builds_nothing_bind; [apply builds_nothing_this_VisitExpr|].
    intros _.
    apply builds_nothing_bind; [apply builds_nothing_this_VisitExpr|].
    intros _. apply builds_nothing_this_VisitExpr.
  - apply builds_nothing_this_VisitExpr.
Qed.

Lemma Visitor_same_objects {U} w (this : ExprFunctor U unit unit) fuel :
  read_only w this →
  (∀ e (s : state U nat) r s',
     ExprVisitor.VisitExpr this fuel e s = Ok r s' → same_objects w s s') ∧
  (∀ t (s : state U nat) r s',
     ExprVisitor.call_VisitType this fuel t s = Ok r s' →
     same_objects w s s').
Proof.
  intros [Hre Hrt]. induction fuel as [|fuel [IHe IHt]]; [done|]. split.
  - intros e s r s'.
    destruct (cache s !! e) as [it|] eqn:Hc.
    { rewrite (Visitor_VisitExpr_hit _ _ _ _ Hc). destruct r.
      intros H. injection H as <-. by split_and!. }
    destruct (heap s !! e) as [n|] eqn:Hn; [|simpl; by rewrite Hc, Hn].
    rewrite (Visitor_VisitExpr_miss _ _ _ _ Hc Hn). destruct r.
    intros ([] & s1 & Hi & H)%result_bind_Ok. injection H as <-.
    eapply interp_builds_nothing in Hi as (Hh & Ha & Hu); [|done|done|done].
    by split_and!.
  - intros t s r s'. rewrite Visitor_call_VisitType_S.
    by apply interp_builds_nothing.
Qed.

(** X1. A visitor whose handlers contain no construction builds no node and
    no array: after [VisitExpr], and after a call of its type hook, the heap
    and the number of arrays are as before; when its handlers do not write the
    state of the concrete pass either, that state is as before too.  The
    visitor none of whose methods is overridden is of this kind: all it
    changes is [visit_counter_]. *)
Theorem visitor_builds_nothing {U} (w : bool) (this : ExprFunctor U unit unit)
    (fuel : nat) :
  read_only w this →
  (∀ e (s : state U nat) r s',
     ExprVisitor.VisitExpr this fuel e s = Ok r s' →
     heap s' = heap s ∧ arrays s' = arrays s ∧
     (w = false → user s' = user s)) ∧
  (∀ t (s : state U nat) r s',
     ExprVisitor.call_VisitType this fuel t s = Ok r s' →
     heap s' = heap s ∧ arrays s' = arrays s ∧
     (w = false → user s' = user s)) ∧
  read_only false (ExprVisitor.base (U:=U)).
Proof.
  intros Hro. destruct (Visitor_same_objects fuel Hro) as [He Ht].
  split_and!.
  - intros e s r s' H. exact (He _ _ _ _ H).
  - intros t s r s' H. exact (Ht _ _ _ _ H).
  - apply Visitor_base_read_only.
Qed.

Lemma visitor_builds_nothing_witness :
  read_only false (ExprVisitor.base (U:=nat)) ∧
  (∃ s',
     ExprVisitor.VisitExpr ExprVisitor.base 5 Examples.shared_root
       (init Examples.shared_heap 1 7) = Ok tt s' ∧
     heap s' = Examples.shared_heap ∧ arrays s' = 1 ∧ user s' = 7) ∧
  (∃ s',
     ExprVisitor.call_VisitType ExprVisitor.base 5 (Some 0)
       (init (C:=nat) Examples.shared_heap 1 7) = Ok tt s' ∧
     heap s' = Examples.shared_heap ∧ arrays s' = 1 ∧ user s' = 7).
Proof.
  split; [apply Visitor_base_read_only|].
  destruct (@visitor_builds_nothing nat false ExprVisitor.base 5
              Visitor_base_read_only) as (He & Ht & _).
  split.
  - eexists. split; [vm_compute; reflexivity|].
    destruct (He Examples.shared_root (init Examples.shared_heap 1 7) tt _
                ltac:(vm_compute; reflexivity)) as (Hh & Ha & Hu).
    split; [exact Hh|]. split; [exact Ha|]. exact (Hu eq_refl).
  - eexists. split; [vm_compute; reflexivity|].
    destruct (Ht (Some 0) (init Examples.shared_heap 1 7) tt _
                ltac:(vm_compute; reflexivity)) as (Hh & Ha & Hu).
    split; [exact Hh|]. split; [exact Ha|]. exact (Hu eq_refl).
Defined.

(** ** The visit counters only grow *)

Section Counters.
Context {U : Type}.
Implicit Types s : state U nat.

Lemma counters_grow_refl s : counters_grow s s.
Proof.
  split.
  - intros x c Hc. by exists c.
  - intros x c Hn Hs. congruence.
Qed.

Lemma counters_grow_trans s1 s2 s3 :
  counters_grow s1 s2 → counters_grow s2 s3 → counters_grow s1 s3.
Proof.
  intros [Hk Hn] [Hk' Hn']. split.
  - intros x c Hc. destruct (Hk _ _ Hc) as (c2 & Hc2 & Hle).
    destruct (Hk' _ _ Hc2) as (c3 & Hc3 & Hle'). exists c3. split; [done|lia].
  - intros x c Hx Hc. destruct (cache s2 !! x) as [c2|] eqn:Hc2.
    + pose proof (Hn _ _ Hx Hc2). destruct (Hk' _ _ Hc2) as (c3 & Hc3 & Hle).
      assert (c3 = c) by congruence. lia.
    + by eapply Hn'.
Qed.

Lemma counters_grow_same s s' : cache s' = cache s → counters_grow s s'.
Proof.
  intros Hc. split.
  - intros x c Hx. exists c. by rewrite Hc.
  - intros x c Hn Hs. rewrite Hc in Hs. congruence.
Qed.

Lemma counters_grow_increment e it s :
  cache s !! e = Some it →
  counters_grow s (set_cache (<[e := S it]> (cache s)) s).
Proof.
  intros He. split; simpl.
  - intros x c Hx. destruct (decide (x = e)) as [->|Hne].
    + exists (S it). rewrite lookup_insert_eq. split; [done|].
      assert (c = it) by congruence. lia.
    + exists c. by rewrite lookup_insert_ne.
  - intros x c Hn. destruct (decide (x = e)) as [->|Hne]; [congruence|].
    rewrite lookup_insert_ne by done. congruence.
Qed.

Lemma counters_grow_record e s s1 :
  counters_grow (enter e s) s1 →
  counters_grow s (set_cache (ExprVisitor.insert_counter e (cache s1)) s1).
Proof.
  intros [Hk Hn]. unfold ExprVisitor.insert_counter. simpl in *.
  destruct (cache s1 !! e) as [c1|] eqn:He1; [by split|].
  split; simpl.
  - intros x c Hx. destruct (Hk _ _ Hx) as (c' & Hc' & Hle).
    exists c'. split; [|done].
    rewrite lookup_insert_ne; [done|]. intros <-. congruence.
  - intros x c Hx. destruct (decide (x = e)) as [->|Hne].
    + rewrite lookup_insert_eq. intros [= <-]. lia.
    + rewrite lookup_insert_ne by done. by apply Hn.
Qed.

Lemma Visitor_counters_grow (this : ExprFunctor U unit unit) fuel :
  (∀ e s r s',
     ExprVisitor.VisitExpr this fuel e s = Ok r s' → counters_grow s s') ∧
  (∀ t s r s',
     ExprVisitor.call_VisitType this fuel t s = Ok r s' →
     counters_grow s s').
Proof.
  induction fuel as [|fuel [IHe IHt]]; [done|].
  assert (Hp : ∀ A (p : prog U unit unit A) s a s',
    interp (ExprVisitor.VisitExpr this fuel)
           (ExprVisitor.call_VisitType this fuel) p s = Ok a s' →
    counters_grow s s').
  { intros A p s a s'.
    apply interp_rel; eauto using counters_grow_refl, counters_grow_trans;
      intros; by apply counters_grow_same. }
  split.
  - intros e s r s'.
    destruct (cache s !! e) as [it|] eqn:Hc.
    { rewrite (Visitor_VisitExpr_hit _ _ _ _ Hc). destruct r.
      intros H. injection H as <-. by apply counters_grow_increment. }
    destruct (heap s !! e) as [n|] eqn:Hn; [|simpl; by rewrite Hc, Hn].
    rewrite (Visitor_VisitExpr_miss _ _ _ _ Hc Hn). destruct r.
    intros ([] & s1 & Hi & H)%result_bind_Ok. injection H as <-.
    apply counters_grow_record. by eapply Hp.
  - intros t s r s'. rewrite Visitor_call_VisitType_S. apply Hp.
Qed.

(** X2. In every visitor, [VisitExpr] removes no identity from
    [visit_counter_] and decreases no counter; the counters it adds are at
    least 1; and the expression it was called on is recorded afterwards, with
    a counter that is at least 1 and greater than the one it had. *)
Theorem visit_counters_only_grow (this : ExprFunctor U unit unit)
    (fuel : nat) (e : Expr) s (r : unit) s' :
  ExprVisitor.VisitExpr this fuel e s = Ok r s' →
  (∀ x c, cache s !! x = Some c → ∃ c', cache s' !! x = Some c' ∧ c ≤ c') ∧
  (∀ x c, cache s !! x = None → cache s' !! x = Some c → 1 ≤ c) ∧
  ∃ c', cache s' !! e = Some c' ∧ 1 ≤ c' ∧
        ∀ c, cache s !! e = Some c → c < c'.
Proof.
  intros H.
  destruct (proj1 (Visitor_counters_grow this fuel) _ _ _ _ H) as [Hk Hn].
  split; [done|]. split; [done|].
  destruct fuel as [|fuel]; [done|].
  destruct (cache s !! e) as [it|] eqn:Hc.
  - rewrite (Visitor_VisitExpr_hit _ _ _ _ Hc) in H. destruct r.
    injection H as <-. exists (S it). simpl. rewrite lookup_insert_eq.
    split_and!; [done|lia|]. intros c [= <-]. lia.
  - apply Visitor_VisitExpr_cached in H as Hd.
    apply elem_of_dom in Hd as [c' Hc']. exists c'.
    split_and!; [done|by eapply Hn|done].
Qed.
End Counters.

Lemma visit_counters_only_grow_witness :
  ∃ s1 s2,
    ExprVisitor.VisitExpr ExprVisitor.base 5 1
      (init (U:=unit) Examples.shared_heap 1 tt) = Ok tt s1 ∧
    ExprVisitor.VisitExpr ExprVisitor.base 5 Examples.shared_root s1
    = Ok tt s2 ∧
    cache s1 !! 0 = Some 1 ∧
    ∃ c', cache s2 !! 0 = Some c' ∧ 1 ≤ c'.
Proof.
  eexists _, _. split; [vm_compute; reflexivity|].
  split; [vm_compute; reflexivity|].
  lazymatch goal with
  | |- cache ?s1 !! _ = _ ∧ ∃ c', cache ?s2 !! _ = _ ∧ _ =>
      destruct (proj1 (@visit_counters_only_grow unit ExprVisitor.base 5
                  Examples.shared_root s1 tt s2
                  ltac:(vm_compute; reflexivity)) 0 1 eq_refl)
        as (c' & Hc' & Hle)
  end.
  split; [reflexivity|].
  exists c'. split; [exact Hc'|exact Hle].
Defined.

(** ** The calls of the default handlers, in order *)

Lemma visit_list_CallExpr {S R} (ve : Expr → S → result S R)
    (vt : Ty → S → result S R) (l : list Expr) (st : S) :
  visit_list (run_call ve vt) (CallExpr <$> l) st = visit_list ve l st.
Proof.
  revert st; induction l as [|x l IH]; intros st; [done|].
  rewrite fmap_cons. cbn [visit_list run_call]. destruct (ve x st); [|done..].
  cbn [result_bind]. by rewrite IH.
Qed.

Lemma visit_list_CallType {S R} (ve : Expr → S → result S R)
    (vt : Ty → S → result S R) (l : list Ty) (st : S) :
  visit_list (run_call ve vt) (CallType <$> l) st = visit_list vt l st.
Proof.
  revert st; induction l as [|x l IH]; intros st; [done|].
  rewrite fmap_cons. cbn [visit_list run_call]. destruct (vt x st); [|done..].
  cbn [result_bind]. by rewrite IH.
Qed.

Section VisitorCalls.
Context {U : Type}.
Variable ve : Expr → state U nat → result (state U nat) unit.
Variable vt : Ty → state U nat → result (state U nat) unit.
Implicit Types s : state U nat.

Lemma interp_visit_each_types l s :
  interp ve vt (ExprVisitor.visit_each_type l) s
  = result_bind (λ _ s', Ok tt s') (visit_list vt l s).
Proof.
  revert s; induction l as [|x l IH]; intros s; [done|].
  cbn [ExprVisitor.visit_each_type visit_list].
  rewrite interp_bind, interp_this_VisitType.
  destruct (vt x s) as [[] s1| |]; cbn [result_bind]; try done.
  rewrite IH. by destruct (visit_list vt l s1).
Qed.

(** X3. The default handler of the visitor on a node makes the calls of
    [visitor_calls], in that order, and does nothing else: the fields of a
    Tuple in order; the parameters of a Function and then its body, and
    neither its type parameters nor its return type; the callee of a Call,
    its type arguments through the type hook, and its arguments; the value,
    the var and the body of a Let; the condition and the two branches of an
    If; the tuple of a TupleGetItem; the annotation of a Var, when defined,
    through the type hook; nothing for a Constant, a GlobalVar or an Op. *)
Theorem visitor_default_calls (e : Expr) (n : Node) s :
  interp ve vt (ExprFunctor_dispatch ExprVisitor.base e n) s
  = result_bind (λ _ s', Ok tt s')
      (visit_list (run_call ve vt) (visitor_calls n) s).
Proof.
  destruct n as [nh ta|d|nh|nm|fields|params body rt tps attrs
                 |op args attrs targs|var value body|c t f|tuple idx];
    cbn [ExprFunctor_dispatch ExprVisitor.base visit_Var visit_Constant
         visit_GlobalVar visit_Op visit_Tuple visit_Function visit_Call
         visit_Let visit_If visit_TupleGetItem visitor_calls].
  - unfold ExprVisitor.VisitExpr_Var. destruct (defined ta); [|done].
    rewrite interp_this_VisitType. cbn [visit_list run_call].
    by destruct (vt ta s) as [[] s1| |].
  - done.
  - done.
  - done.
  - unfold ExprVisitor.VisitExpr_Tuple.
    by rewrite interp_visit_each, visit_list_CallExpr.
  - unfold ExprVisitor.VisitExpr_Function.
    rewrite interp_bind, interp_visit_each, visit_list_app,
      visit_list_CallExpr.
    destruct (visit_list ve (elems params) s) as [rs s1| |];
      cbn [result_bind]; try done.
    rewrite interp_this_VisitExpr. cbn [visit_list run_call].
    by destruct (ve body s1) as [[] s2| |].
  - unfold ExprVisitor.VisitExpr_Call. cbn [visit_list run_call].
    rewrite interp_bind, interp_this_VisitExpr.
    destruct (ve op s) as [[] s1| |]; cbn [result_bind]; try done.
    rewrite interp_bind, interp_visit_each_types, visit_list_app,
      visit_list_CallType.
    destruct (visit_list vt (elems targs) s1) as [rs s2| |];
      cbn [result_bind]; try done.
    rewrite interp_visit_each, visit_list_CallExpr.
    by destruct (visit_list ve (elems args) s2).
  - rewrite Visitor_Let_sequence. cbn [visit_list run_call].
    destruct (ve value s) as [[] s1| |]; cbn [result_bind]; try done.
    destruct (ve var s1) as [[] s2| |]; cbn [result_bind]; try done.
    by destruct (ve body s2) as [[] s3| |].
  - unfold ExprVisitor.VisitExpr_If. cbn [visit_list run_call].
    rewrite interp_bind, interp_this_VisitExpr.
    destruct (ve c s) as [[] s1| |]; cbn [result_bind]; try done.
    rewrite interp_bind, interp_this_VisitExpr.
    destruct (ve t s1) as [[] s2| |]; cbn [result_bind]; try done.
    rewrite interp_this_VisitExpr.
    by destruct (ve f s2) as [[] s3| |].
  - unfold ExprVisitor.VisitExpr_TupleGetItem. cbn [visit_list run_call].
    rewrite interp_this_VisitExpr.
    by destruct (ve tuple s) as [[] s1| |].
Qed.
End VisitorCalls.

Section MutatorCalls.
Variable is_TypeVar : nat → bool.
Implicit Types s : state (list call) Expr.

Lemma log_calls_app (cs cs' : list call) s :
  set_user (user (set_user (user s ++ cs) s) ++ cs') (set_user (user s ++ cs) s)
  = set_user (user s ++ cs ++ cs') s.
Proof. unfold set_user. simpl. by rewrite app_assoc. Qed.

Lemma visit_list_logging_mutate (l : list Expr) s :
  visit_list logging_mutate l s
  = Ok l (set_user (user s ++ (CallExpr <$> l)) s).
Proof.
  revert s; induction l as [|x l IH]; intros s.
  - simpl. unfold set_user. rewrite app_nil_r. by destruct s.
  - cbn [visit_list logging_mutate result_bind]. rewrite IH.
    cbn [result_bind]. unfold log_call. by rewrite log_calls_app.
Qed.

Lemma visit_list_logging_type (l : list Ty) s :
  visit_list logging_type l s
  = Ok l (set_user (user s ++ (CallType <$> l)) s).
Proof.
  revert s; induction l as [|x l IH]; intros s.
  - simpl. unfold set_user. rewrite app_nil_r. by destruct s.
  - cbn [visit_list logging_type result_bind]. rewrite IH.
    cbn [result_bind]. unfold log_call. by rewrite log_calls_app.
Qed.

Lemma visit_list_logging_var (l : list Expr) s :
  forallb (λ x, match heap s !! x with
                | Some nv => is_VarNode nv
                | None => false
                end) l = true →
  visit_list (mutate_var logging_mutate) l s
  = Ok l (set_user (user s ++ (CallExpr <$> l)) s).
Proof.
  revert s; induction l as [|x l IH]; intros s Hl.
  - simpl. unfold set_user. rewrite app_nil_r. by destruct s.
  - simpl in Hl. apply andb_true_iff in Hl as [Hx Hl].
    cbn [visit_list].
    assert (Hm : mutate_var logging_mutate x s
                 = Ok x (log_call (CallExpr x) s)).
    { unfold mutate_var, logging_mutate. cbn [result_bind log_call set_user heap].
      destruct (heap s !! x) as [nv|]; [|done]. by rewrite Hx. }
    rewrite Hm. cbn [result_bind]. rewrite IH by done.
    cbn [result_bind]. unfold log_call. by rewrite log_calls_app.
Qed.

Lemma visit_list_logging_type_var (l : list Ty) s :
  forallb (λ t, match t with
                | Some i => is_TypeVar i
                | None => false
                end) l = true →
  visit_list (visit_type_var is_TypeVar logging_type) l s
  = Ok l (set_user (user s ++ (CallType <$> l)) s).
Proof.
  revert s; induction l as [|x l IH]; intros s Hl.
  - simpl. unfold set_user. rewrite app_nil_r. by destruct s.
  - simpl in Hl. apply andb_true_iff in Hl as [Hx Hl].
    cbn [visit_list].
    assert (Hm : visit_type_var is_TypeVar logging_type x s
                 = Ok x (log_call (CallType x) s)).
    { unfold visit_type_var, logging_type. cbn [result_bind].
      destruct x as [i|]; [|done]. by rewrite Hx. }
    rewrite Hm. cbn [result_bind]. rewrite IH by done.
    cbn [result_bind]. unfold log_call. by rewrite log_calls_app.
Qed.

Lemma share_or_build_user {U} op unchanged n' (st st' : state U Expr) r :
  share_or_build op unchanged n' st = Ok r st' → user st' = user st.
Proof. destruct unchanged; by intros [= <- <-]. Qed.

(** X4. With a [Mutate] and a type hook that return their argument and
    record their calls, the default handler of the mutator on a node whose
    binders are Vars and whose type parameters are type variables returns,
    and the calls recorded are those of [mutator_calls], in that order: the
    fields of a Tuple in order; the type parameters of a Function, its
    parameters, its return type and its body; the callee of a Call, its type
    arguments and its arguments; the var, the value and the body of a Let;
    the condition and the branches of an If; the tuple of a TupleGetItem; the
    annotation of a Var when defined; nothing for a Constant, a GlobalVar or
    an Op. *)
Theorem mutator_default_calls (op : Expr) (n : Node) s :
  binders_ok is_TypeVar (heap s) n = true →
  ∃ r s',
    interp logging_mutate logging_type
      (ExprFunctor_dispatch (ExprMutator.base is_TypeVar) op n) s = Ok r s' ∧
    user s' = user s ++ mutator_calls n.
Proof.
  intros Hok.
  assert (Hfin : ∀ b n' (s1 : state (list call) Expr) cs,
    user s1 = user s ++ cs →
    ∃ r s', share_or_build op b n' s1 = Ok r s' ∧ user s' = user s ++ cs).
  { intros b n' s1 cs Hu.
    destruct (share_or_build_returns op b n' s1) as (r & s' & Hr).
    exists r, s'. split; [done|]. by rewrite (share_or_build_user _ _ _ _ Hr). }
  destruct n as [nh ta|d|nh|nm|fields|params body rt tps attrs
                 |callee args attrs targs|var value body|c t f|tuple idx];
    cbn [ExprFunctor_dispatch ExprMutator.base visit_Var visit_Constant
         visit_GlobalVar visit_Op visit_Tuple visit_Function visit_Call
         visit_Let visit_If visit_TupleGetItem mutator_calls binders_ok]
      in *.
  - unfold ExprMutator.VisitExpr_Var. destruct ta as [t|]; cbn [defined].
    + rewrite interp_bind, interp_this_VisitType.
      cbn [logging_type result_bind]. unfold ty_same_as.
      rewrite bool_decide_eq_true_2 by done. cbn [negb].
      rewrite interp_ret. by eexists _, _.
    + rewrite interp_ret. eexists _, _. split; [done|]. by rewrite app_nil_r.
  - eexists _, _. split; [done|]. by rewrite app_nil_r.
  - eexists _, _. split; [done|]. by rewrite app_nil_r.
  - eexists _, _. split; [done|]. by rewrite app_nil_r.
  - rewrite Tuple_rewrite, visit_list_logging_mutate. cbn [result_bind].
    by apply Hfin.
  - apply andb_true_iff in Hok as [Hps Htps].
    rewrite Function_rewrite, visit_list_logging_type_var by done.
    cbn [result_bind]. rewrite visit_list_logging_var by done.
    cbn [result_bind logging_type logging_mutate].
    match goal with
    | |- ∃ r s', (if ?b then _ else _) = _ ∧ _ =>
        destruct b; eexists _, _; (split; [reflexivity|])
    end; simpl; by rewrite <- !app_assoc.
  - rewrite Call_rewrite. cbn [logging_mutate result_bind].
    rewrite visit_list_logging_type. cbn [result_bind].
    rewrite visit_list_logging_mutate. cbn [result_bind].
    apply Hfin. simpl. by rewrite <- !app_assoc.
  - rewrite Let_rewrite. unfold mutate_var.
    cbn [logging_mutate result_bind log_call set_user heap].
    destruct (heap s !! var) as [nv|]; [|done]. rewrite Hok.
    cbn [result_bind]. apply Hfin. simpl. by rewrite <- !app_assoc.
  - rewrite If_rewrite. cbn [logging_mutate result_bind].
    apply Hfin. simpl. by rewrite <- !app_assoc.
  - rewrite TupleGetItem_rewrite. cbn [logging_mutate result_bind].
    by apply Hfin.
Qed.
End MutatorCalls.

Lemma mutator_default_calls_witness :
  binders_ok Examples.all_TypeVar Examples.fn_heap
    (FunctionNode (mkArray 0 [0]) 0 None (mkArray 1 []) None) = true ∧
  ∃ r s',
    interp logging_mutate logging_type
      (ExprFunctor_dispatch (ExprMutator.base Examples.all_TypeVar)
         Examples.fn_root
         (FunctionNode (mkArray 0 [0]) 0 None (mkArray 1 []) None))
      (init Examples.fn_heap 2 []) = Ok r s' ∧
    user s' = [CallExpr 0; CallType None; CallExpr 0].
Proof.
  split; [reflexivity|].
  apply (@mutator_default_calls Examples.all_TypeVar Examples.fn_root
           (FunctionNode (mkArray 0 [0]) 0 None (mkArray 1 []) None)
           (init Examples.fn_heap 2 [])).
  reflexivity.
Defined.

(** ** The counters count the visits *)

Lemma occ_nil x : occ x [] = 0.
Proof. done. Qed.

Lemma occ_cons x y l :
  occ x (y :: l) = (if decide (y = x) then 1 else 0) + occ x l.
Proof. unfold occ. rewrite filter_cons. by case_decide. Qed.

Lemma occ_app x l1 l2 : occ x (l1 ++ l2) = occ x l1 + occ x l2.
Proof. unfold occ. by rewrite filter_app, length_app. Qed.

Lemma occ_absent x l : (∀ y, y ∈ l → y ≠ x) → occ x l = 0.
Proof.
  induction l as [|y l IH]; intros H; [done|].
  rewrite occ_cons, IH.
  - rewrite decide_False; [done|]. apply H. by left.
  - intros z Hz. apply H. by right.
Qed.

Lemma occ_visitor_calls x n :
  occ x (called_exprs (visitor_calls n)) = occ x (children n).
Proof.
  assert (Hm : ∀ l, called_exprs (CallExpr <$> l) = l).
  { induction l as [|y l IH]; [done|]. rewrite fmap_cons. simpl.
    by rewrite <- IH at 2. }
  assert (Ht : ∀ l, called_exprs (CallType <$> l) = []).
  { induction l as [|y l IH]; [done|]. by rewrite fmap_cons. }
  destruct n as [nh ta|d|nh|nm|fields|params body rt tps attrs
                 |op args attrs targs|var value body|c t f|tuple idx];
    cbn [visitor_calls children]; try done.
  - by destruct (defined ta).
  - by rewrite Hm.
  - unfold called_exprs. rewrite flat_map_app. fold (called_exprs (CallExpr <$> elems params)).
    by rewrite Hm.
  - unfold called_exprs. cbn [flat_map app]. rewrite flat_map_app.
    fold (called_exprs (CallType <$> elems targs)).
    fold (called_exprs (CallExpr <$> elems args)).
    by rewrite Ht, Hm.
  - cbn [called_exprs flat_map app]. rewrite !occ_cons, occ_nil. lia.
Qed.

Lemma occ_present x l : x ∈ l ↔ occ x l ≠ 0.
Proof.
  split.
  - intros Hx Ho. unfold occ in Ho. apply length_zero_iff_nil in Ho.
    assert (Hf : x ∈ filter (λ y, y = x) l)
      by (by apply list_elem_of_filter).
    rewrite Ho in Hf. by apply not_elem_of_nil in Hf.
  - intros Ho. destruct (decide (x ∈ l)) as [|Hni]; [done|].
    exfalso. apply Ho, occ_absent. by intros y Hy ->.
Qed.

Section VisitorCounts.
Context {U : Type}.
Variable h0 : list Node.
Hypothesis Hwf : wf_heap h0 = true.
Implicit Types s : state U nat.
Local Abbreviation base := (ExprVisitor.base (U:=U)).

Lemma counter_increment e it s x :
  cache s !! e = Some it →
  counter (set_cache (<[e := S it]> (cache s)) s) x
  = counter s x + (if decide (x = e) then 1 else 0).
Proof.
  intros He. unfold counter. simpl. case_decide as Hx.
  - subst x. rewrite lookup_insert_eq, He. simpl. lia.
  - rewrite lookup_insert_ne by done. lia.
Qed.

Lemma counter_insert_ne e (m : gmap nat nat) s x :
  x ≠ e →
  counter (set_cache (ExprVisitor.insert_counter e m) s) x
  = default 0 (m !! x).
Proof.
  intros Hx. unfold counter, ExprVisitor.insert_counter. simpl.
  destruct (m !! e); [done|]. by rewrite lookup_insert_ne.
Qed.

Lemma Visitor_base_type_hook fuel t s r s' :
  ExprVisitor.call_VisitType base fuel t s = Ok r s' → s' = s.
Proof. destruct fuel as [|fuel]; [done|]. simpl. by intros [= _ <-]. Qed.

Lemma Visitor_counts fuel e s r s' :
  e < length h0 → h0 `prefix_of` heap s →
  ExprVisitor.VisitExpr base fuel e s = Ok r s' →
  ∃ l, trace s' = trace s ++ l ∧
       ∀ x, counter s' x
            = counter s x + (if decide (x = e) then 1 else 0) +
              occ x (flat_map (children_at h0) l).
Proof using Hwf.
  revert e s r s'. induction fuel as [|fuel IH]; intros e s r s' He Hp H;
    [done|].
  destruct (cache s !! e) as [it|] eqn:Hc.
  { rewrite (Visitor_VisitExpr_hit _ _ _ _ Hc) in H. destruct r.
    injection H as <-. exists []. split; [by rewrite app_nil_r|].
    intros x. rewrite (@counter_increment e it s x Hc). simpl.
    rewrite occ_nil. lia. }
  pose proof (Visitor_miss_records_one Visitor_base_descending Hwf _ _ He Hp
                Hc H) as Hone.
  pose proof (proj1 (@Visitor_pass U _ Visitor_base_descending h0 Hwf (S fuel))
                e s r s' He H Hp) as (_ & l' & Hl' & _ & Hunder & _).
  destruct (lookup_lt_is_Some_2 h0 e He) as [n Hn].
  assert (Hn' : heap s !! e = Some n) by (by rewrite (prefix_lookup_lt Hp He)).
  rewrite (Visitor_VisitExpr_miss _ _ _ _ Hc Hn') in H. destruct r.
  apply result_bind_Ok in H as ([] & s1 & Hi & H). injection H as <-.
  rewrite visitor_default_calls in Hi.
  apply result_bind_Ok in Hi as (rs & s1' & Hv & [= ->]).
  assert (Hcalls : ∀ cs s0 rs0 s2,
    (∀ c, c ∈ called_exprs cs → c < e) → h0 `prefix_of` heap s0 →
    visit_list (run_call (ExprVisitor.VisitExpr base fuel)
                  (ExprVisitor.call_VisitType base fuel)) cs s0 = Ok rs0 s2 →
    ∃ l, trace s2 = trace s0 ++ l ∧
         ∀ x, counter s2 x
              = counter s0 x + occ x (called_exprs cs) +
                occ x (flat_map (children_at h0) l)).
  { induction cs as [|c cs IHcs]; intros s0 rs0 s2 Hlt Hp0.
    - intros [= _ <-]. exists []. split; [by rewrite app_nil_r|].
      intros x. simpl. rewrite occ_nil. lia.
    - cbn [visit_list]. intros (r1 & s3 & Hc1 & H1)%result_bind_Ok.
      apply result_bind_Ok in H1 as (rs1 & s4 & Hcs & [= _ <-]).
      destruct c as [c|t]; cbn [run_call] in Hc1.
      + assert (Hce : c < e) by (apply Hlt; simpl; by left).
        destruct (IH c s0 r1 s3) as (l1 & Hl1 & Hx1); [lia|done|done|].
        pose proof (proj1 (Visitor_same_objects fuel Visitor_base_read_only)
                      _ _ _ _ Hc1) as (Hh3 & _).
        destruct (IHcs s3 rs1 s4) as (l2 & Hl2 & Hx2); [|by rewrite Hh3|done|].
        { intros c' Hc'. apply Hlt. simpl. by right. }
        exists (l1 ++ l2). split; [by rewrite Hl2, Hl1, app_assoc|].
        intros x. rewrite Hx2, Hx1, flat_map_app, occ_app.
        cbn [called_exprs flat_map app]. fold (called_exprs cs).
        rewrite occ_cons. rewrite (decide_ext (c = x) (x = c)) by done. lia.
      + apply Visitor_base_type_hook in Hc1 as ->.
        destruct (IHcs s0 rs1 s4) as (l2 & Hl2 & Hx2); [|done|done|].
        { intros c' Hc'. by apply Hlt. }
        exists l2. split; [done|]. intros x. by rewrite Hx2. }
  destruct (Hcalls (visitor_calls n) (enter e s) rs s1) as (L & HL & Hx);
    [|done|done|].
  { intros c Hc'. eapply wf_heap_child; [done|]. exists n. split; [done|].
    apply occ_present. rewrite <- occ_visitor_calls. by apply occ_present. }
  simpl in HL. exists (e :: L). split; [simpl; by rewrite HL, <- app_assoc|].
  assert (l' = e :: L) as ->.
  { simpl in Hl'. rewrite HL, <- app_assoc in Hl'. by apply app_inv_head in Hl'. }
  intros x. cbn [flat_map]. rewrite occ_app.
  unfold children_at at 1. rewrite Hn.
  destruct (decide (x = e)) as [->|Hne].
  - unfold counter at 1. rewrite Hone. unfold counter. rewrite Hc. simpl.
    rewrite (@occ_absent e (children n)), (@occ_absent e (flat_map _ L));
      [done|..].
    + intros c Hc0. apply list_elem_of_In, in_flat_map in Hc0 as (y & Hy & Hcy).
      apply list_elem_of_In in Hy. apply list_elem_of_In in Hcy.
      assert (y ≤ e) by (apply (Hunder y); by right).
      unfold children_at in Hcy. destruct (h0 !! y) as [ny|] eqn:Hny;
        [|by apply not_elem_of_nil in Hcy].
      assert (c < y); [|lia].
      eapply wf_heap_child; [done|]. by exists ny.
    + intros c Hcn. assert (c < e); [|lia].
      eapply wf_heap_child; [done|]. by exists n.
  - rewrite counter_insert_ne by done. fold (counter s1 x).
    rewrite Hx, occ_visitor_calls. unfold counter. simpl. lia.
Qed.
End VisitorCounts.

(** X5. When the default visitor returns from [VisitExpr(e)] over a DAG,
    the counter of every identity [x] in [visit_counter_] has grown by the
    number of references to [x] from the nodes whose handler ran during the
    call (the number of times [x] is a child of one of them), plus one for
    [e] itself: the counter of an expression is the number of times the
    traversal reached it. *)
Theorem visit_counter_counts_references {U} (fuel : nat) (e : Expr)
    (s : state U nat) (r : unit) (s' : state U nat) :
  wf_heap (heap s) = true → e < length (heap s) →
  ExprVisitor.VisitExpr ExprVisitor.base fuel e s = Ok r s' →
  ∃ l, trace s' = trace s ++ l ∧
       ∀ x, counter s' x
            = counter s x + (if decide (x = e) then 1 else 0) +
              occ x (flat_map (children_at (heap s)) l).
Proof. intros Hwf He H. by eapply Visitor_counts. Qed.

(** On [root = Tuple([TupleGetItem(shared, 0), TupleGetItem(shared, 0)])]
    the handlers run are those of the root, the two projections and the
    Constant; the Constant, referenced twice, has counter 2. *)
Lemma visit_counter_counts_references_witness :
  wf_heap Examples.shared_heap = true ∧
  Examples.shared_root < length Examples.shared_heap ∧
  ∃ s',
    ExprVisitor.VisitExpr ExprVisitor.base 5 Examples.shared_root
      (init Examples.shared_heap 1 tt) = Ok tt s' ∧
    trace s' = [3; 1; 0; 2] ∧
    ∀ x, counter s' x
         = (if decide (x = Examples.shared_root) then 1 else 0) +
           occ x (flat_map (children_at Examples.shared_heap) [3; 1; 0; 2]).
Proof.
  split; [reflexivity|]. split; [vm_compute; lia|].
  eexists. split; [vm_compute; reflexivity|]. split; [reflexivity|].
  destruct (@visit_counter_counts_references unit 5 Examples.shared_root
              (init Examples.shared_heap 1 tt) tt _ eq_refl
              ltac:(vm_compute; lia) ltac:(vm_compute; reflexivity))
    as (l & Hl & Hx).
  vm_compute in Hl. subst l. exact Hx.
Defined.

(** ** The default mutator without functions, and on a function *)

(** X6. Over a DAG without Function nodes whose Let binders are Vars, from a
    state whose memo cache binds expressions to themselves (the fresh state,
    or any state such a pass has left), the mutator none of whose methods is
    overridden returns, with fuel for the depth of [e], the very expression
    it was called on: it builds no node, leaves the state of the concrete
    pass as it is, and binds in the memo cache every expression to itself. *)
Theorem default_mutator_identity_without_functions {U}
    (is_TypeVar : nat → bool) (fuel : nat) (e : Expr) (s : state U Expr) :
  wf_heap (heap s) = true → function_free (heap s) = true →
  let_binders_ok (heap s) = true →
  e < length (heap s) → e + 2 ≤ fuel → memo_identity s →
  ∃ s', ExprMutator.VisitExpr (ExprMutator.base is_TypeVar) fuel e s = Ok e s' ∧
        heap s' = heap s ∧ user s' = user s ∧ memo_identity s'.
Proof.
  intros Hwf Hff Hlet He Hf Hid.
  by apply (@Mutator_base_identity U is_TypeVar (heap s) Hwf Hff Hlet).
Qed.

(** [lt = Let(x, Constant(1), Tuple([x, Constant(2)]))] is returned as it
    is. *)
Lemma default_mutator_identity_without_functions_witness :
  wf_heap Examples.let_heap = true ∧
  function_free Examples.let_heap = true ∧
  let_binders_ok Examples.let_heap = true ∧
  Examples.let_root < length Examples.let_heap ∧
  memo_identity Examples.let_state ∧
  ∃ s', ExprMutator.VisitExpr (ExprMutator.base Examples.all_TypeVar) 6
          Examples.let_root Examples.let_state = Ok Examples.let_root s' ∧
        heap s' = Examples.let_heap ∧ user s' = tt ∧ memo_identity s'.
Proof.
  assert (Hid : memo_identity Examples.let_state).
  { intros x r Hx. simpl in Hx. by rewrite lookup_empty in Hx. }
  split; [reflexivity|]. split; [reflexivity|]. split; [reflexivity|].
  split; [vm_compute; lia|]. split; [exact Hid|].
  apply (@default_mutator_identity_without_functions unit
           Examples.all_TypeVar 6 Examples.let_root Examples.let_state
           eq_refl eq_refl eq_refl);
    [vm_compute; lia|vm_compute; lia|exact Hid].
Defined.

Lemma visit_list_length {S A B} (f : A → S → result S B) (l : list A)
    (st : S) (rs : list B) (st' : S) :
  visit_list f l st = Ok rs st' → length rs = length l.
Proof.
  revert st rs st'; induction l as [|x l IH]; intros st rs st'; simpl.
  - intros H. by injection H as <- _.
  - intros (r & s1 & _ & H)%result_bind_Ok.
    apply result_bind_Ok in H as (rs1 & s2 & Hl & H).
    injection H as <- _. simpl. f_equal. by eapply IH.
Qed.

(** X7. In every mutator, the default Function handler never returns the
    Function it was called on: whenever the array of type parameters of the
    node was built before the handler runs (as the array of every existing
    node was), and whatever the rewrites of the type parameters, the
    parameters, the return type and the body return, the handler returns a
    Function object that did not exist before, with the original attributes,
    whose array of type parameters is another object than the node's and
    which has as many parameters and type parameters as the node. *)
Theorem function_handler_always_rebuilds {U} (is_TypeVar : nat → bool)
    (this : ExprFunctor U Expr Ty) (fuel : nat) (op : Expr)
    (params : Array Expr) (body : Expr) (ret_type : Ty)
    (type_params : Array Ty) (attrs : Attrs) (s : state U Expr)
    (r : Expr) (s' : state U Expr) :
  op < length (heap s) →
  node_ type_params < arrays s →
  interp (ExprMutator.VisitExpr this fuel)
    (ExprMutator.call_VisitType this fuel)
    (ExprFunctor_dispatch (ExprMutator.base is_TypeVar) op
       (FunctionNode params body ret_type type_params attrs)) s = Ok r s' →
  r ≠ op ∧ heap s !! r = None ∧
  ∃ ps b rt tys a1 a2,
    heap s' !! r
    = Some (FunctionNode (mkArray a1 ps) b rt (mkArray a2 tys) attrs) ∧
    a2 ≠ node_ type_params ∧
    length ps = length (elems params) ∧
    length tys = length (elems type_params).
Proof.
  intros Hop Harr.
  cbn [ExprFunctor_dispatch ExprMutator.base visit_Function].
  rewrite Function_rewrite.
  intros (tys & s1 & Htys & H)%result_bind_Ok.
  apply result_bind_Ok in H as (ps & s2 & Hps & H).
  apply result_bind_Ok in H as (rt & s3 & Hrt & H).
  apply result_bind_Ok in H as (b & s4 & Hb & H).
  rewrite (proj2 (Nat.eqb_neq (arrays s) (node_ type_params))) in H by lia.
  simpl in H. injection H as <- <-.
  pose proof (visit_list_length _ _ _ Htys) as Hlt.
  pose proof (visit_list_length _ _ _ Hps) as Hlp.
  apply visit_list_type_var_extends, extends_length in Htys.
  apply visit_list_mutate_var_extends, extends_length in Hps.
  apply (proj2 (VisitExpr_extends this fuel)), extends_length in Hrt.
  apply (proj1 (VisitExpr_extends this fuel)), extends_length in Hb.
  simpl in *. split; [lia|]. split; [apply lookup_ge_None; lia|].
  eexists _, _, _, _, _, _. rewrite lookup_app_r, Nat.sub_diag by done.
  split; [done|]. split; [simpl; lia|done].
Qed.

(** On [f = Function([x], x)] the default mutator's Function handler, run
    where the pass runs it, returns the new object at address 2. *)
Lemma function_handler_always_rebuilds_witness :
  Examples.fn_root < length (heap Examples.fn_state) ∧
  1 < arrays Examples.fn_state ∧
  ∃ s',
    interp
      (ExprMutator.VisitExpr (ExprMutator.base Examples.all_TypeVar) 3)
      (ExprMutator.call_VisitType (ExprMutator.base Examples.all_TypeVar) 3)
      (ExprFunctor_dispatch (ExprMutator.base Examples.all_TypeVar)
         Examples.fn_root
         (FunctionNode (mkArray 0 [0]) 0 None (mkArray 1 []) None))
      Examples.fn_state = Ok 2 s' ∧
    2 ≠ Examples.fn_root ∧ heap Examples.fn_state !! 2 = None ∧
    ∃ ps b rt tys a1 a2,
      heap s' !! 2
      = Some (FunctionNode (mkArray a1 ps) b rt (mkArray a2 tys) None) ∧
      a2 ≠ 1 ∧ length ps = 1 ∧ length tys = 0.
Proof.
  split; [vm_compute; lia|]. split; [vm_compute; lia|].
  eexists. split; [vm_compute; reflexivity|].
  apply (@function_handler_always_rebuilds unit Examples.all_TypeVar
           (ExprMutator.base Examples.all_TypeVar) 3 Examples.fn_root
           (mkArray 0 [0]) 0 None (mkArray 1 []) None Examples.fn_state);
    [vm_compute; lia|vm_compute; lia|vm_compute; reflexivity].
Defined.

(** ** The default mutator returns a copy *)

Lemma all2_impl {A B} (f g : A → B → bool) l l' :
  (∀ a b, f a b = true → g a b = true) →
  all2 f l l' = true → all2 g l l' = true.
Proof.
  intros Hfg. revert l'; induction l as [|x l IH]; intros [|y l']; simpl;
    try done.
  intros [Hxy Hl]%andb_true_iff. apply andb_true_iff. auto.
Qed.

Lemma all2_refl {A} (f : A → A → bool) l :
  (∀ a, a ∈ l → f a a = true) → all2 f l l = true.
Proof.
  induction l as [|x l IH]; intros H; simpl; [done|].
  apply andb_true_iff. split; [apply H; by left|].
  apply IH. intros a Ha. apply H. by right.
Qed.

Lemma copy_node_impl (f g : Expr → Expr → bool) nx ny :
  (∀ a b, f a b = true → g a b = true) →
  copy_node f nx ny = true → copy_node g nx ny = true.
Proof.
  intros Hfg. destruct nx, ny; simpl; try done;
    rewrite ?andb_true_iff; intros H; destruct_and?; split_and?;
    eauto using all2_impl.
Qed.

Lemma copy_of_mono fuel fuel' h h' x y :
  fuel ≤ fuel' → h `prefix_of` h' →
  copy_of fuel h x y = true → copy_of fuel' h' x y = true.
Proof.
  intros Hf Hp. revert fuel' Hf x y.
  induction fuel as [|fuel IH]; intros fuel' Hf x y; [done|].
  destruct fuel' as [|fuel']; [lia|]. simpl.
  destruct (h !! x) as [nx|] eqn:Hx; [|done].
  destruct (h !! y) as [ny|] eqn:Hy; [|done].
  rewrite (prefix_lookup_Some _ _ _ _ Hx Hp), (prefix_lookup_Some _ _ _ _ Hy Hp).
  intros [H|H]%orb_true_iff; apply orb_true_iff; [by left|right].
  eapply copy_node_impl; [|done]. intros a b. apply IH. lia.
Qed.

Lemma copy_of_refl fuel h x :
  x < length h → copy_of (S fuel) h x x = true.
Proof.
  intros Hx. simpl. destruct (lookup_lt_is_Some_2 h x Hx) as [n ->].
  unfold same_as. by rewrite Nat.eqb_refl.
Qed.

(** A copy of a Var is the Var itself. *)
Lemma copy_of_Var fuel h x y nx :
  h !! x = Some nx → is_VarNode nx = true →
  copy_of fuel h x y = true → y = x.
Proof.
  intros Hx Hv. destruct fuel as [|fuel]; [done|]. simpl. rewrite Hx.
  destruct (h !! y) as [ny|]; [|done].
  intros [H|H]%orb_true_iff.
  - symmetry. by apply Nat.eqb_eq.
  - by destruct nx.
Qed.

Section DefaultCopy.
Context {U : Type}.
Variable is_TypeVar : nat → bool.
Variable h0 : list Node.
Hypothesis Hwf : wf_heap h0 = true.
Hypothesis Hbind : forallb (binders_ok is_TypeVar h0) h0 = true.
Implicit Types s : state U Expr.

Lemma binders_ok_lookup e n : h0 !! e = Some n → binders_ok is_TypeVar h0 n = true.
Proof using Hbind.
  intros He. rewrite forallb_forall in Hbind.
  apply Hbind, list_elem_of_In. by eapply list_elem_of_lookup_2.
Qed.

Lemma memo_copies_mono s s' :
  heap s `prefix_of` heap s' → cache s' = cache s →
  memo_copies s → memo_copies s'.
Proof.
  intros Hp Hc Hm x y Hxy. rewrite Hc in Hxy.
  eapply copy_of_mono; [| |exact (Hm x y Hxy)]; [lia|done].
Qed.

(** Sharing the node or building the new one: either way the result is a
    copy. *)
Lemma share_or_build_copy e n unchanged n' s :
  heap s !! e = Some n →
  copy_node (copy_of e (heap s)) n n' = true →
  memo_copies s →
  ∃ r s', share_or_build e unchanged n' s = Ok r s' ∧
          heap s `prefix_of` heap s' ∧ user s' = user s ∧
          cache s' = cache s ∧
          copy_of (S e) (heap s') e r = true.
Proof.
  intros He Hn Hm. destruct unchanged; simpl.
  - exists e, s. split_and!; try done. unfold same_as.
    by rewrite He, Nat.eqb_refl.
  - eexists _, _. split; [done|]. simpl.
    assert (Hp : heap s `prefix_of` heap s ++ [n']) by (by apply prefix_app_r).
    split_and!; try done.
    rewrite (prefix_lookup_Some _ _ _ _ He Hp).
    rewrite lookup_app_r, Nat.sub_diag by done. simpl.
    apply orb_true_iff. right.
    eapply copy_node_impl; [|exact Hn]. intros a b.
    by apply copy_of_mono.
Qed.

Lemma Mutator_base_copy fuel e s :
  e < length h0 → e + 2 ≤ fuel →
  h0 `prefix_of` heap s → memo_copies s →
  ∃ r s', ExprMutator.VisitExpr (ExprMutator.base is_TypeVar) fuel e s
          = Ok r s' ∧
          heap s `prefix_of` heap s' ∧ user s' = user s ∧ memo_copies s' ∧
          copy_of (S e) (heap s') e r = true.
Proof using Hwf Hbind.
  revert e s. induction fuel as [|fuel IH]; intros e s He Hf Hp Hm; [lia|].
  destruct (cache s !! e) as [it|] eqn:Hc.
  { rewrite (Mutator_VisitExpr_hit _ _ _ _ Hc). exists it, s.
    split_and!; try done. by apply Hm. }
  destruct (lookup_lt_is_Some_2 h0 e He) as [n Hn].
  assert (Hn' : heap s !! e = Some n) by (by rewrite (prefix_lookup_lt Hp He)).
  rewrite (Mutator_VisitExpr_miss _ _ _ _ Hc Hn').
  destruct fuel as [|fuel']; [lia|].
  set (ve := ExprMutator.VisitExpr (ExprMutator.base is_TypeVar) (S fuel'))
    in *.
  set (vt := ExprMutator.call_VisitType (ExprMutator.base is_TypeVar)
               (S fuel')).
  assert (Hvt : ∀ t s0, vt t s0 = Ok t s0) by done.
  assert (Hvts : ∀ l s0, visit_list vt l s0 = Ok l s0).
  { induction l as [|t l IHl]; intros s0; [done|].
    cbn [visit_list]. rewrite Hvt. cbn [result_bind]. by rewrite IHl. }
  assert (Hve : ∀ c s0, c < e →
    h0 `prefix_of` heap s0 → memo_copies s0 →
    ∃ r s1, ve c s0 = Ok r s1 ∧ heap s0 `prefix_of` heap s1 ∧
            user s1 = user s0 ∧ memo_copies s1 ∧
            copy_of e (heap s1) c r = true).
  { intros c s0 Hce Hp0 Hm0.
    destruct (IH c s0) as (r & s1 & Hr & Hp1 & Hu1 & Hm1 & Hc1);
      try done; try lia.
    exists r, s1. split_and!; try done.
    eapply copy_of_mono; [| |exact Hc1]; [lia|done]. }
  assert (Hves : ∀ l s0, (∀ c, c ∈ l → c < e) →
    h0 `prefix_of` heap s0 → memo_copies s0 →
    ∃ rs s1, visit_list ve l s0 = Ok rs s1 ∧ heap s0 `prefix_of` heap s1 ∧
             user s1 = user s0 ∧ memo_copies s1 ∧
             all2 (copy_of e (heap s1)) l rs = true).
  { induction l as [|c l IHl]; intros s0 Hlt Hp0 Hm0.
    - by exists [], s0.
    - destruct (Hve c s0) as (r & s1 & Hv & Hp1 & Hu1 & Hm1 & Hc1);
        try done.
      { apply Hlt. by left. }
      destruct (IHl s1) as (rs & s2 & Hvl & Hp2 & Hu2 & Hm2 & Hc2); try done.
      { intros c' Hc'. apply Hlt. by right. }
      { by etrans. }
      exists (r :: rs), s2. cbn [visit_list]. rewrite Hv. cbn [result_bind].
      rewrite Hvl. cbn [result_bind]. split_and!; try done.
      + by etrans.
      + congruence.
      + simpl. apply andb_true_iff. split; [|done].
        eapply copy_of_mono; [| |exact Hc1]; [lia|done]. }
  assert (Hvar : ∀ c s0, c < e →
    (match h0 !! c with Some nv => is_VarNode nv | None => false end) = true →
    h0 `prefix_of` heap s0 → memo_copies s0 →
    ∃ s1, mutate_var ve c s0 = Ok c s1 ∧ heap s0 `prefix_of` heap s1 ∧
          user s1 = user s0 ∧ memo_copies s1).
  { intros c s0 Hce Hv Hp0 Hm0.
    destruct (h0 !! c) as [nv|] eqn:Hnv; [|done].
    destruct (Hve c s0) as (r & s1 & Hr & Hp1 & Hu1 & Hm1 & Hc1); try done.
    assert (Hnv1 : heap s1 !! c = Some nv).
    { eapply prefix_lookup_Some; [done|]. by etrans. }
    apply (@copy_of_Var _ _ _ _ _ Hnv1 Hv) in Hc1 as ->.
    exists s1. unfold mutate_var. rewrite Hr. cbn [result_bind].
    by rewrite Hnv1, Hv. }
  assert (Hvars : ∀ l s0, (∀ c, c ∈ l → c < e) →
    forallb (λ x, match h0 !! x with
                  | Some nv => is_VarNode nv
                  | None => false
                  end) l = true →
    h0 `prefix_of` heap s0 → memo_copies s0 →
    ∃ s1, visit_list (mutate_var ve) l s0 = Ok l s1 ∧
          heap s0 `prefix_of` heap s1 ∧ user s1 = user s0 ∧ memo_copies s1).
  { induction l as [|c l IHl]; intros s0 Hlt Hall Hp0 Hm0.
    - by exists s0.
    - simpl in Hall. apply andb_true_iff in Hall as [Hc0 Hall].
      destruct (Hvar c s0) as (s1 & Hv & Hp1 & Hu1 & Hm1); try done.
      { apply Hlt. by left. }
      destruct (IHl s1) as (s2 & Hvl & Hp2 & Hu2 & Hm2); try done.
      { intros c' Hc'. apply Hlt. by right. }
      { by etrans. }
      exists s2. cbn [visit_list]. rewrite Hv. cbn [result_bind].
      rewrite Hvl. cbn [result_bind]. split_and!; try done.
      + by etrans.
      + congruence. }
  assert (Htvs : ∀ l s0,
    forallb (λ t, match t with
                  | Some i => is_TypeVar i
                  | None => false
                  end) l = true →
    visit_list (visit_type_var is_TypeVar vt) l s0 = Ok l s0).
  { induction l as [|t l IHl]; intros s0 Hall; [done|].
    simpl in Hall. apply andb_true_iff in Hall as [Ht Hall].
    assert (Ht1 : visit_type_var is_TypeVar vt t s0 = Ok t s0).
    { unfold visit_type_var. rewrite Hvt. cbn [result_bind].
      destruct t as [i|]; [|done]. by rewrite Ht. }
    cbn [visit_list]. rewrite Ht1. cbn [result_bind]. by rewrite IHl. }
  assert (Hlt : ∀ c, c ∈ children n → c < e).
  { intros c Hcn. eapply wf_heap_child; [done|]. by exists n. }
  assert (Hfin : ∀ r s1,
    heap s `prefix_of` heap s1 → user s1 = user s → memo_copies s1 →
    copy_of (S e) (heap s1) e r = true →
    ∃ r' s', Ok r (set_cache (<[e := r]> (cache s1)) s1) = Ok r' s' ∧
             heap s `prefix_of` heap s' ∧ user s' = user s ∧
             memo_copies s' ∧ copy_of (S e) (heap s') e r' = true).
  { intros r s1 Hp1 Hu Hm1 Hcp. eexists _, _. split; [done|].
    split_and!; try done.
    intros x y. simpl. rewrite lookup_insert.
    case_decide; [by intros [= <-]; subst x|apply Hm1]. }
  assert (Hshare : ∀ unchanged n' s1,
    heap s `prefix_of` heap s1 → user s1 = user s → memo_copies s1 →
    copy_node (copy_of e (heap s1)) n n' = true →
    ∃ r' s',
      result_bind (λ r s2, Ok r (set_cache (<[e := r]> (cache s2)) s2))
        (share_or_build e unchanged n' s1) = Ok r' s' ∧
      heap s `prefix_of` heap s' ∧ user s' = user s ∧
      memo_copies s' ∧ copy_of (S e) (heap s') e r' = true).
  { intros unchanged n' s1 Hp1 Hu1 Hm1 Hcn.
    destruct (@share_or_build_copy e n unchanged n' s1)
      as (r & s2 & -> & Hp2 & Hu2 & Hc2 & Hcp); try done.
    { by eapply prefix_lookup_Some. }
    cbn [result_bind]. apply Hfin; try done.
    - by etrans.
    - congruence.
    - by eapply memo_copies_mono. }
  pose proof (binders_ok_lookup _ Hn) as Hb.
  destruct n as [nh ta|d|nh|nm|fields|params body rt tps attrs
                 |op args attrs targs|var value body|c t f|tuple idx];
    cbn [ExprFunctor_dispatch ExprMutator.base visit_Var visit_Constant
         visit_GlobalVar visit_Op visit_Tuple visit_Function visit_Call
         visit_Let visit_If visit_TupleGetItem children binders_ok] in *.
  - rewrite (var_rewrite_calls_hook_eq ve vt e nh ta (enter e s) Hvt).
    cbn [result_bind]. apply Hfin; try done. apply copy_of_refl.
    simpl. by eapply lookup_lt_Some.
  - unfold ExprMutator.VisitExpr_Constant. rewrite interp_ret.
    cbn [result_bind]. apply Hfin; try done. apply copy_of_refl.
    simpl. by eapply lookup_lt_Some.
  - unfold ExprMutator.VisitExpr_GlobalVar. rewrite interp_ret.
    cbn [result_bind]. apply Hfin; try done. apply copy_of_refl.
    simpl. by eapply lookup_lt_Some.
  - unfold ExprMutator.VisitExpr_Op. rewrite interp_ret.
    cbn [result_bind]. apply Hfin; try done. apply copy_of_refl.
    simpl. by eapply lookup_lt_Some.
  - rewrite Tuple_rewrite.
    destruct (Hves (elems fields) (alloc_array (enter e s)))
      as (rs & s1 & -> & Hp1 & Hu1 & Hm1 & Hc1); try done.
    cbn [result_bind]. by apply Hshare.
  - apply andb_true_iff in Hb as [Hbp Hbt].
    rewrite Function_rewrite, Htvs by done. cbn [result_bind].
    destruct (Hvars (elems params) (alloc_array (alloc_array (enter e s))))
      as (s1 & -> & Hp1 & Hu1 & Hm1); try done.
    { intros c Hcn. apply Hlt. set_solver. }
    cbn [result_bind]. rewrite Hvt. cbn [result_bind].
    destruct (Hve body s1) as (b & s2 & -> & Hp2 & Hu2 & Hm2 & Hc2); try done.
    { apply Hlt. set_solver. }
    { by etrans. }
    cbn [result_bind].
    match goal with
    | |- context [if ?c then Ok e s2 else Ok _ (alloc ?n' s2)] =>
        change (if c then Ok e s2 else Ok (length (heap s2)) (alloc n' s2))
          with (share_or_build e c n' s2)
    end.
    apply Hshare.
    + by etrans.
    + cbn [user enter alloc_array] in *. congruence.
    + done.
    + simpl. unfold ty_same_as. rewrite !bool_decide_eq_true_2 by done.
      rewrite Hc2, !andb_true_r. apply all2_refl. intros a Ha.
      assert (Hae : a < e) by (apply Hlt; set_solver).
      destruct e as [|e']; [lia|]. apply copy_of_refl.
      apply prefix_length in Hp, Hp1, Hp2.
      cbn [heap enter alloc_array] in *. lia.
  - rewrite Call_rewrite.
    destruct (Hve op (enter e s)) as (r1 & s1 & -> & Hp1 & Hu1 & Hm1 & Hc1);
      try done.
    { apply Hlt. by left. }
    cbn [result_bind]. rewrite Hvts. cbn [result_bind].
    destruct (Hves (elems args) (alloc_array (alloc_array s1)))
      as (rs & s2 & -> & Hp2 & Hu2 & Hm2 & Hc2); try done.
    { intros c Hcn. apply Hlt. by right. }
    { by etrans. }
    cbn [result_bind]. apply Hshare.
    + by etrans.
    + cbn [user enter alloc_array] in *. congruence.
    + done.
    + simpl. rewrite !bool_decide_eq_true_2 by done.
      rewrite Hc2, !andb_true_r.
      eapply copy_of_mono; [| |exact Hc1]; [lia|done].
  - rewrite Let_rewrite.
    destruct (Hvar var (enter e s)) as (s1 & -> & Hp1 & Hu1 & Hm1); try done.
    { apply Hlt. set_solver. }
    cbn [result_bind].
    destruct (Hve value s1) as (r2 & s2 & -> & Hp2 & Hu2 & Hm2 & Hc2);
      try done.
    { apply Hlt. set_solver. }
    { by etrans. }
    cbn [result_bind].
    destruct (Hve body s2) as (r3 & s3 & -> & Hp3 & Hu3 & Hm3 & Hc3);
      try done.
    { apply Hlt. set_solver. }
    { by do 2 (etrans; [|done]). }
    cbn [result_bind]. apply Hshare.
    + by do 2 (etrans; [|done]).
    + cbn [user enter alloc_array] in *. congruence.
    + done.
    + simpl. rewrite Hc3, andb_true_r. apply andb_true_iff. split.
      * assert (Hae : var < e) by (apply Hlt; set_solver).
        destruct e as [|e']; [lia|]. apply copy_of_refl.
        apply prefix_length in Hp, Hp1, Hp2, Hp3.
        cbn [heap enter alloc_array] in *. lia.
      * eapply copy_of_mono; [| |exact Hc2]; [lia|done].
  - rewrite If_rewrite.
    destruct (Hve c (enter e s)) as (r1 & s1 & -> & Hp1 & Hu1 & Hm1 & Hc1);
      try done.
    { apply Hlt. set_solver. }
    cbn [result_bind].
    destruct (Hve t s1) as (r2 & s2 & -> & Hp2 & Hu2 & Hm2 & Hc2); try done.
    { apply Hlt. set_solver. }
    { by etrans. }
    cbn [result_bind].
    destruct (Hve f s2) as (r3 & s3 & -> & Hp3 & Hu3 & Hm3 & Hc3); try done.
    { apply Hlt. set_solver. }
    { by do 2 (etrans; [|done]). }
    cbn [result_bind]. apply Hshare.
    + by do 2 (etrans; [|done]).
    + cbn [user enter alloc_array] in *. congruence.
    + done.
    + simpl. rewrite Hc3, andb_true_r. apply andb_true_iff. split.
      * eapply copy_of_mono; [| |exact Hc1]; [lia|by etrans].
      * eapply copy_of_mono; [| |exact Hc2]; [lia|done].
  - rewrite TupleGetItem_rewrite.
    destruct (Hve tuple (enter e s))
      as (r1 & s1 & -> & Hp1 & Hu1 & Hm1 & Hc1); try done.
    { apply Hlt. set_solver. }
    cbn [result_bind]. apply Hshare; try done.
    simpl. by rewrite Hc1, bool_decide_eq_true_2.
Qed.
End DefaultCopy.

(** X8. Over a DAG in which the bound var of every Let and the parameters of
    every Function are Vars and the type parameters of every Function are
    type vars, from a state whose memo cache binds expressions to copies of
    them (the fresh state, or any state such a pass has left), the mutator
    none of whose methods is overridden returns, with fuel for the depth of
    [e], without a fault; the nodes that existed are kept as they are, the
    state of the concrete pass is untouched, and the result is a copy of
    [e]: the same object, or a node of the same kind, with the same type
    handles, attributes and index, over copies of the children in order.
    Vars and the other leaves are never copied. *)
Theorem default_mutator_returns_copy {U} (is_TypeVar : nat → bool)
    (fuel : nat) (e : Expr) (s : state U Expr) :
  wf_heap (heap s) = true →
  forallb (binders_ok is_TypeVar (heap s)) (heap s) = true →
  e < length (heap s) → e + 2 ≤ fuel → memo_copies s →
  ∃ r s', ExprMutator.VisitExpr (ExprMutator.base is_TypeVar) fuel e s
          = Ok r s' ∧
          heap s `prefix_of` heap s' ∧ user s' = user s ∧ memo_copies s' ∧
          copy_of (S e) (heap s') e r = true.
Proof.
  intros Hwf Hbind He Hf Hm.
  by apply (@Mutator_base_copy U is_TypeVar (heap s) Hwf Hbind).
Qed.

(** On [t = Tuple([f])] with [f = Function([x], x)] the result, at address
    4, is another object than [t], and a copy of it. *)
Lemma default_mutator_returns_copy_witness :
  wf_heap Examples.fn_tuple_heap = true ∧
  forallb (binders_ok Examples.all_TypeVar Examples.fn_tuple_heap)
    Examples.fn_tuple_heap = true ∧
  Examples.fn_tuple_root < length Examples.fn_tuple_heap ∧
  memo_copies Examples.fn_tuple_state ∧
  ∃ s', ExprMutator.VisitExpr (ExprMutator.base Examples.all_TypeVar) 5
          Examples.fn_tuple_root Examples.fn_tuple_state = Ok 4 s' ∧
        Examples.fn_tuple_heap `prefix_of` heap s' ∧ memo_copies s' ∧
        copy_of 3 (heap s') Examples.fn_tuple_root 4 = true.
Proof.
  assert (Hm : memo_copies Examples.fn_tuple_state).
  { intros x y Hx. simpl in Hx. by rewrite lookup_empty in Hx. }
  split; [reflexivity|]. split; [reflexivity|]. split; [vm_compute; lia|].
  split; [exact Hm|].
  destruct (@default_mutator_returns_copy unit Examples.all_TypeVar 5
              Examples.fn_tuple_root Examples.fn_tuple_state
              eq_refl eq_refl ltac:(vm_compute; lia) ltac:(vm_compute; lia)
              Hm) as (r & s' & Hr & Hp & _ & Hm' & Hc).
  assert (r = 4) as ->.
  { vm_compute in Hr. by injection Hr as <- _. }
  exists s'. split; [exact Hr|]. split; [exact Hp|]. split; [exact Hm'|].
  exact Hc.
Defined.

(** ** The default mutator rewrites what is reachable *)

Section HandlerCachesChildren.
Context {U : Type}.
Variable this : ExprFunctor U Expr Ty.
Variable fuel : nat.
Implicit Types s : state U Expr.
Local Abbreviation ve := (ExprMutator.VisitExpr this fuel).
Local Abbreviation vt := (ExprMutator.call_VisitType this fuel).

Lemma extends_dom s s' : extends s s' → dom (cache s) ⊆ dom (cache s').
Proof. intros (_ & _ & Hc & _). by apply subseteq_dom. Qed.

Lemma ve_cached c s r s' :
  ve c s = Ok r s' → c ∈ dom (cache s') ∧ dom (cache s) ⊆ dom (cache s').
Proof.
  intros H. split.
  - eapply elem_of_dom_2. by eapply Mutator_VisitExpr_cached.
  - by eapply extends_dom, (proj1 (VisitExpr_extends this fuel)).
Qed.

Lemma vt_cached t s r s' :
  vt t s = Ok r s' → dom (cache s) ⊆ dom (cache s').
Proof. intros H. by eapply extends_dom, (proj2 (VisitExpr_extends this fuel)). Qed.

Lemma mutate_var_cached c s r s' :
  mutate_var ve c s = Ok r s' →
  c ∈ dom (cache s') ∧ dom (cache s) ⊆ dom (cache s').
Proof.
  unfold mutate_var. intros (e & s1 & He & H)%result_bind_Ok.
  destruct (heap s1 !! e) as [n|]; [|done].
  destruct (is_VarNode n); [|done]. injection H as _ <-.
  by apply ve_cached in He.
Qed.

Lemma visit_list_ve_cached l s rs s' :
  visit_list ve l s = Ok rs s' →
  (∀ c, c ∈ l → c ∈ dom (cache s')) ∧ dom (cache s) ⊆ dom (cache s').
Proof.
  revert s rs; induction l as [|x l IH]; intros s rs; simpl.
  - intros [= _ <-]. split; [by intros c ?%elem_of_nil|done].
  - intros (r & s1 & Hx & H)%result_bind_Ok.
    apply result_bind_Ok in H as (rs1 & s2 & Hl & [= _ <-]).
    apply ve_cached in Hx as [Hx Hs]. apply IH in Hl as [Hl Hs'].
    split; [|set_solver].
    intros c [->|Hc]%elem_of_cons; [set_solver|by apply Hl].
Qed.

Lemma visit_list_mutate_var_cached l s rs s' :
  visit_list (mutate_var ve) l s = Ok rs s' →
  (∀ c, c ∈ l → c ∈ dom (cache s')) ∧ dom (cache s) ⊆ dom (cache s').
Proof.
  revert s rs; induction l as [|x l IH]; intros s rs; simpl.
  - intros [= _ <-]. split; [by intros c ?%elem_of_nil|done].
  - intros (r & s1 & Hx & H)%result_bind_Ok.
    apply result_bind_Ok in H as (rs1 & s2 & Hl & [= _ <-]).
    apply mutate_var_cached in Hx as [Hx Hs]. apply IH in Hl as [Hl Hs'].
    split; [|set_solver].
    intros c [->|Hc]%elem_of_cons; [set_solver|by apply Hl].
Qed.

Lemma share_or_build_cache op unchanged n' s r s' :
  share_or_build op unchanged n' s = Ok r s' → cache s' = cache s.
Proof. destruct unchanged; simpl; by intros [= _ <-]. Qed.

Variable is_TypeVar : nat → bool.

(** When a default handler returns, run in any mutator, every child of its
    node is in the memo cache. *)
Lemma default_handler_caches_children e n s r s' :
  interp ve vt (ExprFunctor_dispatch (ExprMutator.base is_TypeVar) e n) s
  = Ok r s' →
  ∀ c, c ∈ children n → c ∈ dom (cache s').
Proof.
  destruct n as [nh ta|d|nh|nm|fields|params body rt tps attrs
                 |op args attrs targs|var value body|c t f|tuple idx];
    cbn [ExprFunctor_dispatch ExprMutator.base visit_Var visit_Constant
         visit_GlobalVar visit_Op visit_Tuple visit_Function visit_Call
         visit_Let visit_If visit_TupleGetItem children];
    try (by intros _ c ?%elem_of_nil).
  - rewrite Tuple_rewrite. intros (rs & s1 & Hl & H)%result_bind_Ok.
    apply share_or_build_cache in H as ->.
    by apply visit_list_ve_cached in Hl as [Hl _].
  - rewrite Function_rewrite.
    intros (tys & s1 & Htys & H)%result_bind_Ok.
    apply result_bind_Ok in H as (ps & s2 & Hps & H).
    apply result_bind_Ok in H as (rt' & s3 & Hrt & H).
    apply result_bind_Ok in H as (b & s4 & Hb & H).
    apply visit_list_mutate_var_cached in Hps as [Hps _].
    apply vt_cached in Hrt. apply ve_cached in Hb as [Hb Hs].
    assert (Hc : cache s' = cache s4) by (case_match; by injection H as _ <-).
    rewrite Hc. intros c [Hc'|Hc']%elem_of_app; [|set_solver].
    specialize (Hps c Hc'). set_solver.
  - rewrite Call_rewrite.
    intros (new_op & s1 & Hop & H)%result_bind_Ok.
    apply result_bind_Ok in H as (tys & s2 & Htys & H).
    apply result_bind_Ok in H as (rs & s3 & Hargs & H).
    apply share_or_build_cache in H as ->.
    apply ve_cached in Hop as [Hop _].
    apply visit_list_vt_extends, extends_dom in Htys.
    apply visit_list_ve_cached in Hargs as [Hargs Hs].
    cbn [cache alloc_array] in *.
    intros c [->|Hc]%elem_of_cons; [set_solver|by apply Hargs].
  - rewrite Let_rewrite.
    intros (v & s1 & Hv & H)%result_bind_Ok.
    apply result_bind_Ok in H as (r2 & s2 & H2 & H).
    apply result_bind_Ok in H as (r3 & s3 & H3 & H).
    apply share_or_build_cache in H as ->.
    apply mutate_var_cached in Hv as [Hv _].
    apply ve_cached in H2 as [H2 Hs2]. apply ve_cached in H3 as [H3 Hs3].
    intros c Hc. set_solver.
  - rewrite If_rewrite.
    intros (r1 & s1 & H1 & H)%result_bind_Ok.
    apply result_bind_Ok in H as (r2 & s2 & H2 & H).
    apply result_bind_Ok in H as (r3 & s3 & H3 & H).
    apply share_or_build_cache in H as ->.
    apply ve_cached in H1 as [H1 _].
    apply ve_cached in H2 as [H2 Hs2]. apply ve_cached in H3 as [H3 Hs3].
    intros c' Hc. set_solver.
  - rewrite TupleGetItem_rewrite.
    intros (r1 & s1 & H1 & H)%result_bind_Ok.
    apply share_or_build_cache in H as ->.
    apply ve_cached in H1 as [H1 _]. intros c Hc. set_solver.
Qed.
End HandlerCachesChildren.

Section MutatorCoverage.
Context {U : Type}.
Variable is_TypeVar : nat → bool.
Variable h0 : list Node.
Implicit Types s : state U Expr.

(** The default mutator keeps the memo cache closed under children. *)
Lemma Mutator_base_closed fuel :
  (∀ e s r s',
     ExprMutator.VisitExpr (ExprMutator.base is_TypeVar) fuel e s = Ok r s' →
     h0 `prefix_of` heap s → closed h0 s →
     h0 `prefix_of` heap s' ∧ closed h0 s') ∧
  (∀ t s r s',
     ExprMutator.call_VisitType (ExprMutator.base is_TypeVar) fuel t s
     = Ok r s' →
     h0 `prefix_of` heap s → closed h0 s →
     h0 `prefix_of` heap s' ∧ closed h0 s').
Proof.
  induction fuel as [|fuel [IHe IHt]]; [done|]. split.
  - intros e s r s' H Hp Hcl.
    destruct (cache s !! e) as [it|] eqn:Hc.
    { rewrite (Mutator_VisitExpr_hit _ _ _ _ Hc) in H. by injection H as _ <-. }
    destruct (heap s !! e) as [n|] eqn:Hn; [|by simpl in H; rewrite Hc, Hn in H].
    rewrite (Mutator_VisitExpr_miss _ _ _ _ Hc Hn) in H.
    apply result_bind_Ok in H as (r1 & s1 & Hi & [= _ <-]).
    pose proof (@default_handler_caches_children _ _ _ _ _ _ _ _ _ Hi) as Hch.
    assert (Hrel : h0 `prefix_of` heap s1 ∧ closed h0 s1).
    { revert Hi Hp Hcl.
      change (h0 `prefix_of` heap s) with (h0 `prefix_of` heap (enter e s)).
      change (closed h0 s) with (closed h0 (enter e s)).
      generalize (enter e s). intros s0 Hi.
      eapply (@interp_rel _ _ _ _ _ _ (λ sa sb,
                h0 `prefix_of` heap sa → closed h0 sa →
                h0 `prefix_of` heap sb ∧ closed h0 sb)); [..|exact Hi].
      - done.
      - intros sa sb sc Hab Hbc Hpa Hca.
        destruct (Hab Hpa Hca) as [Hpb Hcb]. by apply Hbc.
      - intros n' sa Hpa Hca. split; [|done]. simpl. by apply prefix_app_r.
      - done.
      - done.
      - exact IHe.
      - exact IHt. }
    destruct Hrel as [Hp1 Hcl1]. split; [done|].
    intros x c. simpl. rewrite dom_insert_L.
    intros [->%elem_of_singleton|Hx]%elem_of_union (n0 & Hn0 & Hc0).
    + apply elem_of_union_r, Hch.
      pose proof (prefix_lookup_Some _ _ _ _ Hn0 Hp) as Hn1.
      rewrite Hn in Hn1. by injection Hn1 as ->.
    + apply elem_of_union_r. eapply Hcl1; [done|]. by exists n0.
  - intros t s r s' H. simpl in H. by injection H as _ <-.
Qed.
End MutatorCoverage.

(** X9. Over a DAG [h0] in which the bound var of every Let and the
    parameters of every Function are Vars and the type parameters of every
    Function are type vars, a pass of the mutator none of whose methods is
    overridden, from the fresh state and with fuel for the depth of [root],
    returns; the handlers it has entered are, once each, those of the
    expressions reachable from [root]; and the memo cache binds exactly
    these expressions, each to a copy of it. *)
Theorem default_mutator_rewrites_reachable {U} (is_TypeVar : nat → bool)
    (h0 : list Node) (root fuel a : nat) (u : U) :
  wf_heap h0 = true →
  forallb (binders_ok is_TypeVar h0) h0 = true →
  root < length h0 → root + 2 ≤ fuel →
  ∃ r s',
    ExprMutator.VisitExpr (ExprMutator.base is_TypeVar) fuel root
      (init h0 a u) = Ok r s' ∧
    NoDup (trace s') ∧
    (∀ x, x ∈ trace s' ↔ rtc (child h0) root x) ∧
    (∀ x, x ∈ dom (cache s') ↔ rtc (child h0) root x) ∧
    memo_copies s'.
Proof.
  intros Hwf Hbind Hroot Hfuel.
  assert (Hm0 : memo_copies (init (U:=U) (C:=Expr) h0 a u)).
  { intros x y Hx. simpl in Hx. by rewrite lookup_empty in Hx. }
  assert (Hcl0 : closed h0 (init (U:=U) (C:=Expr) h0 a u)).
  { intros x c Hx. simpl in Hx. by rewrite dom_empty_L in Hx. }
  destruct (@Mutator_base_copy U is_TypeVar h0 Hwf Hbind fuel root
              (init h0 a u) Hroot Hfuel (reflexivity _) Hm0)
    as (r & s' & Hv & _ & _ & Hm & _).
  destruct (@Mutator_at_most_once U _ (Mutator_base_descending is_TypeVar)
              h0 Hwf fuel root a u r s' Hroot Hv) as (Hnd & Hin & Hd).
  destruct (proj1 (@Mutator_base_closed U is_TypeVar h0 fuel) _ _ _ _ Hv
              (reflexivity _) Hcl0) as [_ Hcl].
  assert (Hreach : ∀ x, rtc (child h0) root x → x ∈ dom (cache s')).
  { intros x Hr. eapply closed_reachable; [done| |done].
    eapply elem_of_dom_2. by eapply Mutator_VisitExpr_cached. }
  exists r, s'. split_and!; try done.
  - intros x. split; [by apply Hin|]. intros Hr.
    apply (elem_of_list_to_set (C:=gset nat)). rewrite <- Hd. by apply Hreach.
  - intros x. split; [|by apply Hreach]. rewrite Hd.
    intros Hx%elem_of_list_to_set. by apply Hin.
Qed.

(** On [t = Tuple([f])] with [f = Function([x], x)]: the handlers of [t],
    [f] and [x] are entered, once each. *)
Lemma default_mutator_rewrites_reachable_witness :
  wf_heap Examples.fn_tuple_heap = true ∧
  forallb (binders_ok Examples.all_TypeVar Examples.fn_tuple_heap)
    Examples.fn_tuple_heap = true ∧
  Examples.fn_tuple_root < length Examples.fn_tuple_heap ∧
  ∃ r s',
    ExprMutator.VisitExpr (ExprMutator.base Examples.all_TypeVar) 5
      Examples.fn_tuple_root (init Examples.fn_tuple_heap 3 tt) = Ok r s' ∧
    NoDup (trace s') ∧
    (∀ x, x ∈ trace s' ↔ rtc (child Examples.fn_tuple_heap)
                             Examples.fn_tuple_root x) ∧
    (∀ x, x ∈ dom (cache s') ↔ rtc (child Examples.fn_tuple_heap)
                                   Examples.fn_tuple_root x) ∧
    memo_copies s'.
Proof.
  split; [reflexivity|]. split; [reflexivity|]. split; [vm_compute; lia|].
  apply (@default_mutator_rewrites_reachable unit Examples.all_TypeVar
           Examples.fn_tuple_heap Examples.fn_tuple_root 5 3 tt
           eq_refl eq_refl); vm_compute; lia.
Defined.
